(** * ConcurrencyController (Backend/utils/concurrency.util.js)

    A shallow embedding of the task-queue controller: the controller object,
    the part of the JavaScript heap it shares with its callers (promises,
    AbortControllers), and the suspended activations of its two async
    methods [executeTask] and [runTaskWithRetry].

    JavaScript runs every synchronous stretch of code to completion, so the
    behaviour of the controller is a transition system whose steps are
      - the public method calls (addTask, start, pause, resume, stop,
        cancelTask, clearQueue), and
      - the resumptions of a suspended activation: the body promise of the
        current attempt settles, the retry delay elapses, the timeout timer
        fires, or [executeTask] continues after [await runTaskWithRetry].
    Every step takes the value [Date.now()] would return during it.

    Numbers are integers ([Z]) except inside [getStats], where the success
    rate is computed on binary64 floats as the source does.  Observer
    callbacks (onSuccess, onError, onComplete) and event listeners are
    outside the model: they are taken to return normally and not to call
    back into the controller.  A task body is opaque; when and how its
    promise settles is part of the history.  Timers fire when the history
    says so; the durations they were set with are recorded only.

    Not embedded, because nothing below depends on them: addTasks,
    getTaskStatus, on/off/emit, and the class ConcurrencyUtils. *)

From Stdlib Require Import ZArith QArith String Ascii.
From Stdlib Require Import Floats.PrimFloat Floats.FloatOps Floats.SpecFloat.
From Stdlib Require Uint63 DecimalString.
From stdpp Require Import gmap strings list fin_maps.

Local Open Scope Z_scope.

(** ** JavaScript values the controller relies on *)

(** [o || d] on an optional number: [undefined] and [0] are falsy. *)
Definition num_or (o : option Z) (d : Z) : Z :=
  match o with
  | Some z => if z =? 0 then d else z
  | None => d
  end.

(** Truthiness of an optional number, as in [x ? a : b]. *)
Definition num_truthy (o : option Z) : bool :=
  match o with
  | Some z => negb (z =? 0)
  | None => false
  end.

(** [a >= b] where [a] may be [undefined]: the comparison with NaN is false. *)
Definition js_ge (a : option Z) (b : Z) : bool :=
  match a with
  | Some x => b <=? x
  | None => false
  end.

(** [Array.prototype.splice(i, 0, x)]. *)
Definition splice_insert {A} (i : nat) (x : A) (l : list A) : list A :=
  take i l ++ x :: drop i l.

(** The [Error] objects the source creates, one constructor per message,
    and the value a task body rejects with. *)
Inductive JsError :=
| InvalidTaskConfig          (* addTask: missing id or task *)
| QueueFull (capacity : Z)   (* addTask: queue at maxQueueSize *)
| TaskAborted                (* runTaskWithRetry: signal.aborted *)
| TaskCancelled              (* cancelTask on a queued task *)
| QueueCleared               (* clearQueue *)
| BodyError.                 (* rejection reason of the task body *)

(** Values of the fields the specification and the source type differently. *)
Inductive JsValue :=
| JsUndefined
| JsNumber (q : Q)
| JsString (s : string).

(** ** Number.prototype.toFixed(2) on binary64 *)

Module JsNumber.

(** A counter as a double; exact below 2^53. *)
Definition of_Z (z : Z) : float :=
  if z <? 0 then PrimFloat.opp (PrimFloat.of_uint63 (Uint63.of_Z (- z)))
  else PrimFloat.of_uint63 (Uint63.of_Z z).

Definition digits (n : Z) : string :=
  DecimalString.NilZero.string_of_uint (N.to_uint (Z.to_N n)).

(** The integer [n] for which [n / 100] is nearest to [m * 2^e], the
    larger one on a tie (step 10.a of the ECMAScript algorithm). *)
Definition scaled (m : positive) (e : Z) : Z :=
  if 0 <=? e then 100 * Z.pos m * 2 ^ e
  else (200 * Z.pos m + 2 ^ (- e)) / (2 * 2 ^ (- e)).

(** Decimal digits of [n], zero-padded to three, with the point before
    the last two. *)
Definition fixed2 (n : Z) : string :=
  let d := digits n in
  let d := match String.length d with
           | 0%nat => "000"
           | 1%nat => "00" +:+ d
           | 2%nat => "0" +:+ d
           | _ => d
           end in
  let k := (String.length d - 2)%nat in
  substring 0 k d +:+ "." +:+ substring k 2 d.

(** [x.toFixed(2)].  Doubles of magnitude 1e21 and above, which the
    source formats through ToString, are outside the range of a ratio of
    two counters times 100 and are rendered in fixed notation here. *)
Definition toFixed2 (x : float) : string :=
  match Prim2SF x with
  | S754_zero _ => "0.00"
  | S754_infinity false => "Infinity"
  | S754_infinity true => "-Infinity"
  | S754_nan => "NaN"
  | S754_finite s m e => (if s then "-" else "") +:+ fixed2 (scaled m e)
  end.

(** [(c / t * 100).toFixed(2) + '%'] *)
Definition percent (c t : Z) : string :=
  toFixed2 (PrimFloat.mul (PrimFloat.div (of_Z c) (of_Z t)) (of_Z 100)) +:+ "%".

End JsNumber.

(** ** Data model *)

(** The options object of the constructor. *)
Record ControllerOptions := {
  opt_maxConcurrency : option Z;
  opt_maxQueueSize : option Z;
  opt_retryDelay : option Z;
  opt_defaultTimeout : option Z
}.

Record Config := {
  maxConcurrency : Z;
  maxQueueSize : Z;
  retryDelay : Z;
  defaultTimeout : Z
}.

(** A task function.  What it does is opaque: its promise settles through
    the events [BodyResolved] and [BodyRejected] below. *)
Inductive Body := AsyncFunction (label : nat).

(** TaskConfig, as passed to addTask.  [cfg_id] is [None] when the property
    is absent; the empty string is falsy as well. *)
Record TaskConfig := {
  cfg_id : option string;
  cfg_task : option Body;
  cfg_priority : option Z;
  cfg_retries : option Z;
  cfg_retryDelay : option Z;
  cfg_timeout : option Z
}.

(** The task object addTask builds: the config spread, the promise whose
    resolve and reject it captured, createdAt, attempts, and the
    abortController executeTask stores on it. *)
Record Task := {
  task_id : string;
  task_body : Body;
  task_priority : option Z;
  task_retries : option Z;
  task_retryDelay : option Z;
  task_timeout : option Z;
  task_promise : nat;
  task_createdAt : Z;
  task_attempts : Z;
  task_abortController : option nat
}.

Record TaskResult := {
  res_id : string;
  res_success : bool;
  res_error : option JsError;
  res_duration : Z;
  res_retryCount : Z
}.

(** State of the promise addTask returned. *)
Inductive Settlement :=
| Fulfilled (r : TaskResult)        (* task.resolve(taskResult) *)
| RejectedResult (r : TaskResult)   (* task.reject(taskResult)  *)
| RejectedError (e : JsError).      (* reject(new Error(...))   *)

Module Stats.
Record t := {
  totalTasks : Z;
  completedTasks : Z;
  failedTasks : Z;
  retriedTasks : Z;
  startTime : option Z;
  endTime : option Z
}.

Definition initial : t :=
  {| totalTasks := 0; completedTasks := 0; failedTasks := 0;
     retriedTasks := 0; startTime := None; endTime := None |}.

Definition incr_totalTasks (s : t) : t :=
  {| totalTasks := totalTasks s + 1; completedTasks := completedTasks s;
     failedTasks := failedTasks s; retriedTasks := retriedTasks s;
     startTime := startTime s; endTime := endTime s |}.

Definition incr_completedTasks (s : t) : t :=
  {| totalTasks := totalTasks s; completedTasks := completedTasks s + 1;
     failedTasks := failedTasks s; retriedTasks := retriedTasks s;
     startTime := startTime s; endTime := endTime s |}.

Definition incr_failedTasks (s : t) : t :=
  {| totalTasks := totalTasks s; completedTasks := completedTasks s;
     failedTasks := failedTasks s + 1; retriedTasks := retriedTasks s;
     startTime := startTime s; endTime := endTime s |}.

Definition incr_retriedTasks (s : t) : t :=
  {| totalTasks := totalTasks s; completedTasks := completedTasks s;
     failedTasks := failedTasks s; retriedTasks := retriedTasks s + 1;
     startTime := startTime s; endTime := endTime s |}.

Definition set_startTime (now : Z) (s : t) : t :=
  {| totalTasks := totalTasks s; completedTasks := completedTasks s;
     failedTasks := failedTasks s; retriedTasks := retriedTasks s;
     startTime := Some now; endTime := endTime s |}.

Definition set_endTime (now : Z) (s : t) : t :=
  {| totalTasks := totalTasks s; completedTasks := completedTasks s;
     failedTasks := failedTasks s; retriedTasks := retriedTasks s;
     startTime := startTime s; endTime := Some now |}.
End Stats.

(** *** Suspended activations *)

(** How [runTaskWithRetry] ended. *)
Inductive Outcome :=
| Returned                       (* return result *)
| Threw (e : option JsError).    (* throw lastError; undefined if the loop never ran *)

(** Where an activation of [executeTask] is suspended. *)
Inductive Phase :=
| AwaitBody (attempt : Z)    (* in runTaskWithRetry, at [await task.task(task.data, signal)] *)
| AwaitDelay (attempt : Z) (lastError : JsError) (ms : Z)
                             (* in runTaskWithRetry, at [await this.delay(delay)] *)
| AwaitRun (o : Outcome)     (* at [await this.runTaskWithRetry(...)], which has settled *)
| Finished.

(** The timer [setTimeout(() => abortController.abort(), timeout)]. *)
Inductive Timer :=
| Armed (ms : Z)
| Cleared
| Fired.

Record Activation := {
  act_task : Task;
  act_signal : nat;         (* the AbortController created by executeTask *)
  act_startTime : Z;
  act_timer : Timer;
  act_phase : Phase
}.

(** One call [task.task(task.data, signal)]. *)
Record BodyCall := {
  call_activation : nat;
  call_task : string;
  call_signal : nat;
  call_attempt : Z
}.

(** *** The controller and the heap around it *)

Record State := {
  config : Config;
  taskQueue : list Task;
  runningTasks : gmap string Task;
  completedTasks : gmap string TaskResult;
  isRunning : bool;
  isPaused : bool;
  stats : Stats.t;
  (* heap objects shared with callers and task bodies *)
  promises : list (option Settlement);   (* index = handle; None = pending *)
  abortControllers : list bool;          (* index = handle; value = signal.aborted *)
  (* activations of executeTask, index = handle *)
  activations : list Activation;
  (* every invocation of a task body so far, oldest first *)
  bodyCalls : list BodyCall
}.

Definition with_taskQueue (q : list Task) (s : State) : State :=
  {| config := config s; taskQueue := q; runningTasks := runningTasks s;
     completedTasks := completedTasks s; isRunning := isRunning s;
     isPaused := isPaused s; stats := stats s; promises := promises s;
     abortControllers := abortControllers s; activations := activations s;
     bodyCalls := bodyCalls s |}.

Definition with_runningTasks (m : gmap string Task) (s : State) : State :=
  {| config := config s; taskQueue := taskQueue s; runningTasks := m;
     completedTasks := completedTasks s; isRunning := isRunning s;
     isPaused := isPaused s; stats := stats s; promises := promises s;
     abortControllers := abortControllers s; activations := activations s;
     bodyCalls := bodyCalls s |}.

Definition with_completedTasks (m : gmap string TaskResult) (s : State) : State :=
  {| config := config s; taskQueue := taskQueue s; runningTasks := runningTasks s;
     completedTasks := m; isRunning := isRunning s;
     isPaused := isPaused s; stats := stats s; promises := promises s;
     abortControllers := abortControllers s; activations := activations s;
     bodyCalls := bodyCalls s |}.

Definition with_flags (running paused : bool) (s : State) : State :=
  {| config := config s; taskQueue := taskQueue s; runningTasks := runningTasks s;
     completedTasks := completedTasks s; isRunning := running;
     isPaused := paused; stats := stats s; promises := promises s;
     abortControllers := abortControllers s; activations := activations s;
     bodyCalls := bodyCalls s |}.

Definition with_stats (st : Stats.t) (s : State) : State :=
  {| config := config s; taskQueue := taskQueue s; runningTasks := runningTasks s;
     completedTasks := completedTasks s; isRunning := isRunning s;
     isPaused := isPaused s; stats := st; promises := promises s;
     abortControllers := abortControllers s; activations := activations s;
     bodyCalls := bodyCalls s |}.

Definition with_promises (ps : list (option Settlement)) (s : State) : State :=
  {| config := config s; taskQueue := taskQueue s; runningTasks := runningTasks s;
     completedTasks := completedTasks s; isRunning := isRunning s;
     isPaused := isPaused s; stats := stats s; promises := ps;
     abortControllers := abortControllers s; activations := activations s;
     bodyCalls := bodyCalls s |}.

Definition with_abortControllers (acs : list bool) (s : State) : State :=
  {| config := config s; taskQueue := taskQueue s; runningTasks := runningTasks s;
     completedTasks := completedTasks s; isRunning := isRunning s;
     isPaused := isPaused s; stats := stats s; promises := promises s;
     abortControllers := acs; activations := activations s;
     bodyCalls := bodyCalls s |}.

Definition with_activations (acts : list Activation) (s : State) : State :=
  {| config := config s; taskQueue := taskQueue s; runningTasks := runningTasks s;
     completedTasks := completedTasks s; isRunning := isRunning s;
     isPaused := isPaused s; stats := stats s; promises := promises s;
     abortControllers := abortControllers s; activations := acts;
     bodyCalls := bodyCalls s |}.

Definition with_bodyCalls (calls : list BodyCall) (s : State) : State :=
  {| config := config s; taskQueue := taskQueue s; runningTasks := runningTasks s;
     completedTasks := completedTasks s; isRunning := isRunning s;
     isPaused := isPaused s; stats := stats s; promises := promises s;
     abortControllers := abortControllers s; activations := activations s;
     bodyCalls := calls |}.

Definition set_phase (p : Phase) (a : Activation) : Activation :=
  {| act_task := act_task a; act_signal := act_signal a;
     act_startTime := act_startTime a; act_timer := act_timer a;
     act_phase := p |}.

Definition set_timer (t : Timer) (a : Activation) : Activation :=
  {| act_task := act_task a; act_signal := act_signal a;
     act_startTime := act_startTime a; act_timer := t;
     act_phase := act_phase a |}.

(** ** Heap operations *)

(** Settling a promise: only the first resolve or reject has an effect. *)
Definition settle (p : nat) (v : Settlement) (s : State) : State :=
  match promises s !! p with
  | Some None => with_promises (<[p := Some v]> (promises s)) s
  | _ => s
  end.

(** [abortController.abort()] *)
Definition abort (a : nat) (s : State) : State :=
  with_abortControllers (<[a := true]> (abortControllers s)) s.

(** [signal.aborted] *)
Definition aborted (a : nat) (s : State) : bool :=
  default false (abortControllers s !! a).

Definition update_activation (e : nat) (f : Activation -> Activation) (s : State) : State :=
  with_activations (alter f e (activations s)) s.

(** ** The constructor *)

Definition constructor (o : ControllerOptions) : State :=
  {| config := {| maxConcurrency := num_or (opt_maxConcurrency o) 5;
                  maxQueueSize := num_or (opt_maxQueueSize o) 1000;
                  retryDelay := num_or (opt_retryDelay o) 1000;
                  defaultTimeout := num_or (opt_defaultTimeout o) 30000 |};
     taskQueue := [];
     runningTasks := ∅;
     completedTasks := ∅;
     isRunning := false;
     isPaused := false;
     stats := Stats.initial;
     promises := [];
     abortControllers := [];
     activations := [];
     bodyCalls := [] |}.

(** ** Execution: executeTask and runTaskWithRetry *)

Definition maxRetries_of (t : Task) : Z := num_or (task_retries t) 0.

(** The catch block of the retry loop, entered with loop variable
    [attempt] and caught error [err]: [lastError = error], then either the
    retry delay, or, on the last attempt, the loop ends and [lastError] is
    thrown. *)
Definition catchAttempt (e : nat) (attempt : Z) (err : JsError) (s : State) : State :=
  match activations s !! e with
  | None => s
  | Some a =>
    if attempt <? maxRetries_of (act_task a) then
      let s := with_stats (Stats.incr_retriedTasks (stats s)) s in
      let delay := num_or (task_retryDelay (act_task a)) (retryDelay (config s)) in
      update_activation e (set_phase (AwaitDelay attempt err delay)) s
    else
      update_activation e (set_phase (AwaitRun (Threw (Some err)))) s
  end.

(** The retry loop from its test [attempt <= maxRetries] to its next
    suspension.  [lastError] is the error of the previous iteration, if
    there was one. *)
Definition retryIteration (e : nat) (attempt : Z) (lastError : option JsError) (s : State) : State :=
  match activations s !! e with
  | None => s
  | Some a =>
    if attempt <=? maxRetries_of (act_task a) then
      if aborted (act_signal a) s then
        catchAttempt e attempt TaskAborted s
      else
        let call := {| call_activation := e; call_task := task_id (act_task a);
                       call_signal := act_signal a; call_attempt := attempt |} in
        let s := with_bodyCalls (bodyCalls s ++ [call]) s in
        update_activation e (set_phase (AwaitBody attempt)) s
    else
      update_activation e (set_phase (AwaitRun (Threw lastError))) s
  end.

(** [runTaskWithRetry(task, signal)] up to its first suspension. *)
Definition runTaskWithRetry (e : nat) (s : State) : State :=
  retryIteration e 0 None s.

(** [executeTask(task)] up to its first suspension: attempts++, a new
    AbortController stored on the task, the task entered in runningTasks,
    the timeout timer, and the call of runTaskWithRetry. *)
Definition executeTask (now : Z) (task : Task) (s : State) : State :=
  let signal := length (abortControllers s) in
  let task := {| task_id := task_id task; task_body := task_body task;
                 task_priority := task_priority task;
                 task_retries := task_retries task;
                 task_retryDelay := task_retryDelay task;
                 task_timeout := task_timeout task;
                 task_promise := task_promise task;
                 task_createdAt := task_createdAt task;
                 task_attempts := task_attempts task + 1;
                 task_abortController := Some signal |} in
  let s := with_abortControllers (abortControllers s ++ [false]) s in
  let s := with_runningTasks (<[task_id task := task]> (runningTasks s)) s in
  let timeout := num_or (task_timeout task) (defaultTimeout (config s)) in
  let e := length (activations s) in
  let a := {| act_task := task; act_signal := signal; act_startTime := now;
              act_timer := Armed timeout; act_phase := AwaitRun (Threw None) |} in
  let s := with_activations (activations s ++ [a]) s in
  runTaskWithRetry e s.

(** [processNextTask()]: it has no await, so it runs to its end when
    called. *)
Definition processNextTask (now : Z) (s : State) : State :=
  if negb (isRunning s) || isPaused s
     || (maxConcurrency (config s) <=? Z.of_nat (size (runningTasks s))) then s
  else
    match taskQueue s with
    | [] => s
    | task :: rest => executeTask now task (with_taskQueue rest s)
    end.

(** The finally block of executeTask. *)
Definition finallyExecuteTask (now : Z) (task : Task) (s : State) : State :=
  let s := with_runningTasks (delete (task_id task) (runningTasks s)) s in
  processNextTask now s.

(** executeTask after [await this.runTaskWithRetry(...)] returned. *)
Definition taskSucceeded (now : Z) (e : nat) (a : Activation) (s : State) : State :=
  let task := act_task a in
  let timer := match act_timer a with Armed _ => Cleared | t => t end in
  let s := update_activation e (fun a => set_phase Finished (set_timer timer a)) s in
  let taskResult := {| res_id := task_id task; res_success := true;
                       res_error := None;
                       res_duration := now - act_startTime a;
                       res_retryCount := task_attempts task - 1 |} in
  let s := with_completedTasks (<[task_id task := taskResult]> (completedTasks s)) s in
  let s := with_stats (Stats.incr_completedTasks (stats s)) s in
  let s := settle (task_promise task) (Fulfilled taskResult) s in
  finallyExecuteTask now task s.

(** executeTask after [await this.runTaskWithRetry(...)] threw [error]. *)
Definition taskFailed (now : Z) (e : nat) (a : Activation) (error : option JsError) (s : State) : State :=
  let task := act_task a in
  let s := update_activation e (set_phase Finished) s in
  let taskResult := {| res_id := task_id task; res_success := false;
                       res_error := error;
                       res_duration := now - act_startTime a;
                       res_retryCount := task_attempts task - 1 |} in
  let s := with_completedTasks (<[task_id task := taskResult]> (completedTasks s)) s in
  let s := with_stats (Stats.incr_failedTasks (stats s)) s in
  let s := settle (task_promise task) (RejectedResult taskResult) s in
  finallyExecuteTask now task s.

(** ** Public methods *)

(** The for loop of insertTaskByPriority.  [i] counts the elements still
    to be inspected, so the element looked at is [q[i-1]]; the result is
    [insertIndex]. *)
Fixpoint scanInsertIndex (q : list Task) (priority : Z) (i : nat) (insertIndex : nat) : nat :=
  match i with
  | O => insertIndex
  | S j =>
    match q !! j with
    | Some t =>
      if js_ge (task_priority t) priority then S j
      else scanInsertIndex q priority j insertIndex
    | None => scanInsertIndex q priority j insertIndex
    end
  end.

Definition insertTaskByPriority (task : Task) (s : State) : State :=
  let priority := num_or (task_priority task) 0 in
  let insertIndex :=
    scanInsertIndex (taskQueue s) priority (length (taskQueue s)) (length (taskQueue s)) in
  with_taskQueue (splice_insert insertIndex task (taskQueue s)) s.

(** [!taskConfig.id || !taskConfig.task]: the id and body if both are
    truthy. *)
Definition validTaskConfig (c : TaskConfig) : option (string * Body) :=
  match cfg_id c, cfg_task c with
  | Some i, Some b => if String.eqb i "" then None else Some (i, b)
  | _, _ => None
  end.

(** [addTask(taskConfig)]: returns the handle of the promise and the new
    state.  The executor of the promise runs inside the call. *)
Definition addTask (now : Z) (c : TaskConfig) (s : State) : nat * State :=
  let p := length (promises s) in
  let s := with_promises (promises s ++ [None]) s in
  match validTaskConfig c with
  | None => (p, settle p (RejectedError InvalidTaskConfig) s)
  | Some (i, b) =>
    if maxQueueSize (config s) <=? Z.of_nat (length (taskQueue s)) then
      (p, settle p (RejectedError (QueueFull (maxQueueSize (config s)))) s)
    else
      let task := {| task_id := i; task_body := b;
                     task_priority := cfg_priority c;
                     task_retries := cfg_retries c;
                     task_retryDelay := cfg_retryDelay c;
                     task_timeout := cfg_timeout c;
                     task_promise := p; task_createdAt := now;
                     task_attempts := 0; task_abortController := None |} in
      let s := insertTaskByPriority task s in
      let s := with_stats (Stats.incr_totalTasks (stats s)) s in
      let s := if isRunning s && negb (isPaused s) then processNextTask now s else s in
      (p, s)
  end.

Definition start (now : Z) (s : State) : State :=
  if isRunning s then s
  else
    let s := with_flags true false s in
    let s := with_stats (Stats.set_startTime now (stats s)) s in
    processNextTask now s.

Definition pause (s : State) : State :=
  with_flags (isRunning s) true s.

Definition resume (now : Z) (s : State) : State :=
  processNextTask now (with_flags (isRunning s) false s).

(** [this.runningTasks.forEach(task => task.abortController?.abort())] *)
Definition abortAll (tasks : list Task) (s : State) : State :=
  foldl (fun s task =>
           match task_abortController task with
           | Some a => abort a s
           | None => s
           end) s tasks.

Definition stop (now : Z) (s : State) : State :=
  let s := with_flags false false s in
  let s := with_stats (Stats.set_endTime now (stats s)) s in
  abortAll (map_to_list (runningTasks s)).*2 s.

(** [taskQueue.findIndex(task => task.id === taskId)] *)
Fixpoint findIndex (taskId : string) (q : list Task) : option nat :=
  match q with
  | [] => None
  | t :: rest =>
    if String.eqb (task_id t) taskId then Some O
    else S <$> findIndex taskId rest
  end.

Definition cancelTask (taskId : string) (s : State) : bool * State :=
  match runningTasks s !! taskId with
  | Some task =>
    let s := match task_abortController task with
             | Some a => abort a s
             | None => s
             end in
    (true, with_runningTasks (delete taskId (runningTasks s)) s)
  | None =>
    match findIndex taskId (taskQueue s) with
    | Some queueIndex =>
      match taskQueue s !! queueIndex with
      | Some task =>
        let s := with_taskQueue (delete queueIndex (taskQueue s)) s in
        (true, settle (task_promise task) (RejectedError TaskCancelled) s)
      | None => (false, s)
      end
    | None => (false, s)
    end
  end.

Definition clearQueue (s : State) : State :=
  let s := foldl (fun s task => settle (task_promise task) (RejectedError QueueCleared) s)
                 s (taskQueue s) in
  with_taskQueue [] s.

(** *** getStats *)

Module Snapshot.
Record t := {
  totalTasks : Z;
  completedTasks : Z;     (* this.completedTasks.size, overriding the spread counter *)
  failedTasks : Z;
  retriedTasks : Z;
  startTime : option Z;
  endTime : option Z;
  duration : Z;
  queueSize : Z;
  runningTasks : Z;
  isRunning : bool;
  isPaused : bool;
  successRate : string
}.
End Snapshot.

Definition getStats (now : Z) (s : State) : Snapshot.t :=
  let st := stats s in
  let duration :=
    if num_truthy (Stats.startTime st)
    then num_or (Stats.endTime st) now - default 0 (Stats.startTime st)
    else 0 in
  {| Snapshot.totalTasks := Stats.totalTasks st;
     Snapshot.failedTasks := Stats.failedTasks st;
     Snapshot.retriedTasks := Stats.retriedTasks st;
     Snapshot.startTime := Stats.startTime st;
     Snapshot.endTime := Stats.endTime st;
     Snapshot.duration := duration;
     Snapshot.queueSize := Z.of_nat (length (taskQueue s));
     Snapshot.runningTasks := Z.of_nat (size (runningTasks s));
     Snapshot.completedTasks := Z.of_nat (size (completedTasks s));
     Snapshot.isRunning := isRunning s;
     Snapshot.isPaused := isPaused s;
     Snapshot.successRate :=
       if 0 <? Stats.totalTasks st
       then JsNumber.percent (Stats.completedTasks st) (Stats.totalTasks st)
       else "0%" |}.

(** ** The transition system *)

Inductive Event :=
(* method calls *)
| AddTask (c : TaskConfig)
| Start
| Pause
| Resume
| Stop
| CancelTask (taskId : string)
| ClearQueue
(* resumptions of the activation [e] *)
| BodyResolved (e : nat)     (* the promise of the current attempt fulfils *)
| BodyRejected (e : nat)     (* ... or rejects, or the body threw *)
| DelayElapsed (e : nat)     (* the timer of this.delay fires *)
| TimeoutElapsed (e : nat)   (* the timeout timer of executeTask fires *)
| RunSettled (e : nat).      (* executeTask continues after its await *)

Definition resumeActivation (now : Z) (ev : Event) (s : State) : State :=
  match ev with
  | BodyResolved e =>
    match act_phase <$> activations s !! e with
    | Some (AwaitBody _) => update_activation e (set_phase (AwaitRun Returned)) s
    | _ => s
    end
  | BodyRejected e =>
    match act_phase <$> activations s !! e with
    | Some (AwaitBody attempt) => catchAttempt e attempt BodyError s
    | _ => s
    end
  | DelayElapsed e =>
    match act_phase <$> activations s !! e with
    | Some (AwaitDelay attempt lastError _) =>
      retryIteration e (attempt + 1) (Some lastError) s
    | _ => s
    end
  | TimeoutElapsed e =>
    match activations s !! e with
    | Some a =>
      match act_timer a with
      | Armed _ => abort (act_signal a) (update_activation e (set_timer Fired) s)
      | _ => s
      end
    | None => s
    end
  | RunSettled e =>
    match activations s !! e with
    | Some a =>
      match act_phase a with
      | AwaitRun Returned => taskSucceeded now e a s
      | AwaitRun (Threw error) => taskFailed now e a error s
      | _ => s
      end
    | None => s
    end
  | _ => s
  end.

Definition step (now : Z) (ev : Event) (s : State) : State :=
  match ev with
  | AddTask c => (addTask now c s).2
  | Start => start now s
  | Pause => pause s
  | Resume => resume now s
  | Stop => stop now s
  | CancelTask taskId => (cancelTask taskId s).2
  | ClearQueue => clearQueue s
  | _ => resumeActivation now ev s
  end.

(** A history: each event with the clock reading at which it happens. *)
Definition run (h : list (Z * Event)) (s : State) : State :=
  foldl (fun s '(now, ev) => step now ev s) s h.

(** * Views, invariants and scenarios

    The vocabulary of the properties proved further down: projections of
    the state that a group of methods leaves alone, the invariants that
    hold along every history, the two snapshot fields as the
    specification words them, and the concrete histories the statements
    about single runs are made on. *)

(** ** Views *)

(** [slots] is the part of the state the concurrency ceiling is about,
    [timing] the part the elapsed duration is computed from, [submitted]
    the counter of accepted submissions, and [signal_view] what relates
    activations to AbortControllers and body calls. *)
Definition slots (s : State) : Config * gmap string Task :=
  (config s, runningTasks s).

Definition timing (s : State) : bool * option Z * option Z :=
  (isRunning s, Stats.startTime (stats s), Stats.endTime (stats s)).

Definition submitted (s : State) : Z := Stats.totalTasks (stats s).

Definition signal_view (s : State) : nat * list Activation * list BodyCall :=
  (length (abortControllers s), activations s, bodyCalls s).

Ltac unfold_views := unfold slots, timing, submitted, signal_view in *.

Ltac frame_by f :=
  intros; unfold f; unfold_views; repeat case_match; simpl; try done.

(** Rewriting with the lemmas that say a helper keeps [config]. *)
Create Rewrite HintDb controller_config.

Ltac config_simpl := repeat (simpl; autorewrite with controller_config).

(** ** Invariants *)

(** The running map is within the ceiling. *)
Definition within_ceiling (s : State) : Prop :=
  Z.of_nat (size (runningTasks s)) <= maxConcurrency (config s).

(** The AbortControllers, the activations of executeTask and the calls of
    task bodies fit together: one controller per activation, created with
    it, and passed to every call the activation makes. *)
Record signals_wf (s : State) : Prop := {
  wf_count : length (abortControllers s) = length (activations s);
  wf_signal : forall e a, activations s !! e = Some a -> act_signal a = e;
  wf_calls : forall c, c ∈ bodyCalls s ->
    call_signal c = call_activation c /\ is_Some (activations s !! call_activation c)
}.

(** The activation [e] is suspended on the call of its task body for
    attempt [attempt]. *)
Definition waiting_on_body (e : nat) (attempt : Z) (s : State) : Prop :=
  act_phase <$> activations s !! e = Some (AwaitBody attempt).

(** The event is the settlement of the body call of activation [e]. *)
Definition body_settles (e : nat) (ev : Event) : bool :=
  match ev with
  | BodyResolved e' | BodyRejected e' => bool_decide (e' = e)
  | _ => false
  end.

(** ** Histories without start or stop *)

Definition is_stop (ev : Event) : bool :=
  match ev with Stop => true | _ => false end.

Definition is_start (ev : Event) : bool :=
  match ev with Start => true | _ => false end.

(** A history without a call of [stop] / of [start]. *)
Definition no_stop (h : list (Z * Event)) : Prop :=
  Forall (fun te => is_stop te.2 = false) h.

Definition no_start (h : list (Z * Event)) : Prop :=
  Forall (fun te => is_start te.2 = false) h.

(** ** The snapshot as JavaScript values *)

(** The two fields the specification types differently from the source. *)
Definition js_duration (snap : Snapshot.t) : JsValue :=
  JsNumber (inject_Z (Snapshot.duration snap)).

Definition js_successRate (snap : Snapshot.t) : JsValue :=
  JsString (Snapshot.successRate snap).

(** The same two fields in the wording of the specification: the ratio
    completedCount / totalSubmitted (0 without submissions), and
    (stoppedAt ?? now) - startedAt, undefined if never started. *)
Definition spec_successRate (s : State) : JsValue :=
  if Stats.totalTasks (stats s) =? 0 then JsNumber 0
  else JsNumber (Stats.completedTasks (stats s) # Z.to_pos (Stats.totalTasks (stats s))).

Definition spec_duration (now : Z) (s : State) : JsValue :=
  match Stats.startTime (stats s) with
  | None => JsUndefined
  | Some t0 => JsNumber (inject_Z (default now (Stats.endTime (stats s)) - t0))
  end.

(** ** Concrete controllers, tasks and histories *)

Module Scenario.

(** [new ConcurrencyController({ maxConcurrency })] *)
Definition controller (maxConcurrency : Z) : State :=
  constructor {| opt_maxConcurrency := Some maxConcurrency;
                 opt_maxQueueSize := None;
                 opt_retryDelay := None;
                 opt_defaultTimeout := None |}.

(** [{ id, task, priority, retries }] *)
Definition taskConfig (i : string) (priority retries : option Z) : TaskConfig :=
  {| cfg_id := Some i; cfg_task := Some (AsyncFunction 0);
     cfg_priority := priority; cfg_retries := retries;
     cfg_retryDelay := None; cfg_timeout := None |}.

(** One slot; A is dispatched at once, B (priority 0) and then C
    (priority 10) are queued behind it. *)
Definition low_then_high : list (Z * Event) :=
  [(1, Start);
   (2, AddTask (taskConfig "A" (Some 0) None));
   (3, AddTask (taskConfig "B" (Some 0) None));
   (4, AddTask (taskConfig "C" (Some 10) None))].

(** A with two retries; its body rejects on each of its calls. *)
Definition always_failing : list (Z * Event) :=
  [(1, Start);
   (2, AddTask (taskConfig "A" None (Some 2)));
   (3, BodyRejected 0%nat); (4, DelayElapsed 0%nat);
   (5, BodyRejected 0%nat); (6, DelayElapsed 0%nat);
   (7, BodyRejected 0%nat); (8, RunSettled 0%nat)].

(** One slot; A is running, B is queued. *)
Definition one_running_one_queued : list (Z * Event) :=
  [(1, Start);
   (2, AddTask (taskConfig "A" None None));
   (3, AddTask (taskConfig "B" None None))].

End Scenario.

Module ScenarioStats.

(** Two submissions to one slot; A has completed, B is running. *)
Definition one_of_two_done : list (Z * Event) :=
  Scenario.one_running_one_queued ++ [(4, BodyResolved 0%nat); (5, RunSettled 0%nat)].

End ScenarioStats.

Module ScenarioRetry.

(** A with two retries: its first call rejects and the delay elapses, so
    the second attempt has begun. *)
Definition second_attempt : list (Z * Event) :=
  [(1, Start);
   (2, AddTask (Scenario.taskConfig "A" None (Some 2)));
   (3, BodyRejected 0%nat); (1003, DelayElapsed 0%nat)].

(** The same task, but the timeout timer fires during the first call. *)
Definition timeout_in_first_attempt : list (Z * Event) :=
  [(1, Start);
   (2, AddTask (Scenario.taskConfig "A" None (Some 2)));
   (30002, TimeoutElapsed 0%nat);
   (30003, BodyRejected 0%nat); (31003, DelayElapsed 0%nat);
   (32003, DelayElapsed 0%nat); (32004, RunSettled 0%nat)].

(** A is running and B queued when A's timer fires; A's body ignores the
    signal and fulfils a minute later. *)
Definition body_outlives_timeout : list (Z * Event) :=
  Scenario.one_running_one_queued ++ [(30002, TimeoutElapsed 0%nat)].

Definition late_success : list (Z * Event) :=
  [(90000, BodyResolved 0%nat); (90001, RunSettled 0%nat)].

End ScenarioRetry.

Module ScenarioFailure.

(** One rejection of the body followed by the retry delay. *)
Definition failed_attempt : list (Z * Event) :=
  [(3, BodyRejected 0%nat); (4, DelayElapsed 0%nat)].

Definition submit (r : nat) : list (Z * Event) :=
  [(1, Start); (2, AddTask (Scenario.taskConfig "A" None (Some (Z.of_nat r))))].

Definition last_attempt : list (Z * Event) :=
  [(5, BodyRejected 0%nat); (6, RunSettled 0%nat)].

(** Task A with [retries: r] is submitted to a started controller, its
    body rejects on every call, every delay elapses, and executeTask
    continues after the last rejection. *)
Definition exhausts_retries (r : nat) : list (Z * Event) :=
  submit r ++ concat (replicate r failed_attempt) ++ last_attempt.

(** The task object of A once dispatched. *)
Definition task (r : nat) : Task :=
  {| task_id := "A"; task_body := AsyncFunction 0; task_priority := None;
     task_retries := Some (Z.of_nat r); task_retryDelay := None;
     task_timeout := None; task_promise := 0; task_createdAt := 2;
     task_attempts := 1; task_abortController := Some 0%nat |}.

Definition activation (r : nat) (p : Phase) : Activation :=
  {| act_task := task r; act_signal := 0; act_startTime := 2;
     act_timer := Armed 30000; act_phase := p |}.

(** The state while the call of attempt [k] is pending. *)
Record in_attempt (r k : nat) (s : State) : Prop := {
  ia_config : config s = config (Scenario.controller 1);
  ia_activations : activations s = [activation r (AwaitBody (Z.of_nat k))];
  ia_signals : abortControllers s = [false];
  ia_promises : promises s = [None];
  ia_queue : taskQueue s = [];
  ia_results : completedTasks s = ∅;
  ia_total : Stats.totalTasks (stats s) = 1;
  ia_completed : Stats.completedTasks (stats s) = 0;
  ia_failed : Stats.failedTasks (stats s) = 0;
  ia_retried : Stats.retriedTasks (stats s) = Z.of_nat k;
  ia_calls : length (bodyCalls s) = S k
}.

(** What is observable once the task has failed for good. *)
Record failed_for_good (r : nat) (s : State) : Prop := {
  ffg_results : completedTasks s =
    {[ "A"%string := {| res_id := "A"; res_success := false;
                        res_error := Some BodyError; res_duration := 4;
                        res_retryCount := 0 |} ]};
  ffg_promises : promises s =
    [Some (RejectedResult {| res_id := "A"; res_success := false;
                             res_error := Some BodyError; res_duration := 4;
                             res_retryCount := 0 |})];
  ffg_total : Stats.totalTasks (stats s) = 1;
  ffg_completed : Stats.completedTasks (stats s) = 0;
  ffg_failed : Stats.failedTasks (stats s) = 1;
  ffg_retried : Stats.retriedTasks (stats s) = Z.of_nat r;
  ffg_calls : length (bodyCalls s) = S r
}.

End ScenarioFailure.

(** * The rest of the controller's interface *)

(** ** getTaskStatus *)



(** ** addTasks *)

(** [taskConfigs.map(config => this.addTask(config))]: the calls are made
    one after the other, each with its own clock reading; the result is
    the list of their promises. *)
Definition addTasks (cs : list (Z * TaskConfig)) (s : State) : list nat * State :=
  foldl (fun acc c => let r := addTask c.1 c.2 acc.2 in (acc.1 ++ [r.1], r.2)) ([], s) cs.

(** [Promise.allSettled(promises)]: pending until every promise has
    settled, then fulfilled with their outcomes in order; it never
    rejects. *)
Definition allSettled (ps : list nat) (s : State) : option (list Settlement) :=
  mapM (fun p => mjoin (promises s !! p)) ps.

(** ** More views and invariants *)

(** The two flags the scheduler tests. *)
Definition flags (s : State) : bool * bool := (isRunning s, isPaused s).

(** The scheduler is switched off: the controller is stopped or paused. *)
Definition blocked (s : State) : Prop :=
  isRunning s = false \/ isPaused s = true.

(** The number of tasks dispatched so far. *)
Definition dispatched (s : State) : nat := length (activations s).

Definition is_resume (ev : Event) : bool :=
  match ev with Resume => true | _ => false end.

(** A history in which neither [start] nor [resume] is called. *)
Definition no_start_resume (h : list (Z * Event)) : Prop :=
  Forall (fun te => is_start te.2 = false /\ is_resume te.2 = false) h.

(** The promises of the tasks waiting in the queue, and of the tasks
    dispatched so far. *)
Definition queued_promises (s : State) : list nat :=
  task_promise <$> taskQueue s.

Definition dispatched_promises (s : State) : list nat :=
  task_promise <$> (act_task <$> activations s).

Definition owned_promises (s : State) : list nat :=
  queued_promises s ++ dispatched_promises s.

Definition own_view (s : State) : list Task * list (option Settlement) * list Task :=
  (taskQueue s, promises s, act_task <$> activations s).

(** Every task has a promise of its own, allocated on the heap, and the
    promise of a task that waits in the queue is pending. *)
Record promises_wf (s : State) : Prop := {
  pw_nodup : NoDup (owned_promises s);
  pw_bound : Forall (fun p => (p < length (promises s))%nat) (owned_promises s);
  pw_pending : Forall (fun p => promises s !! p = Some None) (queued_promises s)
}.

(** The promise [p] has been settled with [v] and belongs to no task that
    is queued or was dispatched. *)
Definition retired (p : nat) (v : Settlement) (s : State) : Prop :=
  promises s !! p = Some (Some v) /\ p ∉ owned_promises s.

(** How the promise store moves from one state to a later one: a settled
    promise keeps its outcome, the store only grows, and a promise that
    is owned later was owned before or did not exist yet. *)
Record evolves (s s' : State) : Prop := {
  ev_settled : forall p v,
    promises s !! p = Some (Some v) -> promises s' !! p = Some (Some v);
  ev_length : (length (promises s) <= length (promises s'))%nat;
  ev_owned : forall p,
    p ∈ owned_promises s' ->
    p ∈ owned_promises s \/ (length (promises s) <= p)%nat }.

(** What relates the running map to the activations and their
    AbortControllers. *)
Definition run_view (s : State) : gmap string Task * nat * list (Task * nat) :=
  (runningTasks s, length (abortControllers s),
   (fun a => (act_task a, act_signal a)) <$> activations s).

(** Every entry of the running map is the task of an activation of
    executeTask and carries the AbortController created for it. *)
Definition running_wf (s : State) : Prop :=
  forall i task, runningTasks s !! i = Some task ->
    exists e a, activations s !! e = Some a /\ act_task a = task
      /\ task_abortController task = Some (act_signal a)
      /\ (act_signal a < length (abortControllers s))%nat.

(** The number of times activation [e] has called its task body. *)
Definition calls_of (e : nat) (s : State) : nat :=
  length (filter (fun c => call_activation c = e) (bodyCalls s)).

(** What the phase of an activation says about the [n] calls of the task
    body it has made: in attempt [k] (counted from 0) at most [k + 1], and
    [k] is within the retries of the task; after the loop at most
    retries + 1. *)
Definition phase_ok (task : Task) (n : nat) (p : Phase) : Prop :=
  match p with
  | AwaitBody k => Z.of_nat n <= k + 1 /\ 0 <= k <= maxRetries_of task
  | AwaitDelay k _ _ => Z.of_nat n <= k + 1 /\ 0 <= k < maxRetries_of task
  | _ => Z.of_nat n <= Z.max 0 (maxRetries_of task + 1)
  end.

Definition retry_bounded (s : State) : Prop :=
  forall e a, activations s !! e = Some a ->
    phase_ok (act_task a) (calls_of e s) (act_phase a).


(** The result executeTask records and settles the promise with, when
    runTaskWithRetry ended with [out] at time [now]. *)
Definition result_of (now : Z) (a : Activation) (out : Outcome) : TaskResult :=
  {| res_id := task_id (act_task a);
     res_success := match out with Returned => true | Threw _ => false end;
     res_error := match out with Returned => None | Threw error => error end;
     res_duration := now - act_startTime a;
     res_retryCount := task_attempts (act_task a) - 1 |}.

Definition settlement_of (now : Z) (a : Activation) (out : Outcome) : Settlement :=
  match out with
  | Returned => Fulfilled (result_of now a out)
  | Threw _ => RejectedResult (result_of now a out)
  end.

(** The attempts counter: what it is for queued and dispatched tasks, and
    what the recorded results derive from it. *)
Definition attempts_view (s : State) : list Task * list Task * gmap string TaskResult :=
  (taskQueue s, act_task <$> activations s, completedTasks s).

Record attempts_wf (s : State) : Prop := {
  aw_queued : Forall (fun t => task_attempts t = 0) (taskQueue s);
  aw_dispatched : Forall (fun t => task_attempts t = 1) (act_task <$> activations s);
  aw_completed : map_Forall (fun _ r => res_retryCount r = 0) (completedTasks s) }.

(** * Event listeners: on, off and emit

    [eventListeners] is the one field of the controller the state above
    leaves out: only [on], [off] and [emit] touch it.  A listener is a
    function object, compared by identity; it is a number here.  What a
    call of a listener does is its own business, except that it may
    throw, which [emit] catches; listeners that call [on] or [off] while
    [emit] runs are not modelled. *)

Module Listeners.

(** [new Map()] *)
Definition empty : gmap string (list nat) := ∅.

Definition on (event : string) (listener : nat) (r : gmap string (list nat))
  : gmap string (list nat) :=
  let r := match r !! event with
           | Some _ => r
           | None => <[event := []]> r
           end in
  alter (fun listeners => listeners ++ [listener]) event r.

(** [listeners.indexOf(listener)], [None] for -1. *)
Fixpoint indexOf (listener : nat) (listeners : list nat) : option nat :=
  match listeners with
  | [] => None
  | l :: rest =>
    if Nat.eqb l listener then Some 0%nat
    else S <$> indexOf listener rest
  end.

Definition off (event : string) (listener : nat) (r : gmap string (list nat))
  : gmap string (list nat) :=
  match r !! event with
  | Some listeners =>
    match indexOf listener listeners with
    | Some index => <[event := delete index listeners]> r
    | None => r
    end
  | None => r
  end.

(** What a call of [emit] does: the listeners it calls, in order, and
    those whose exception it logs. *)
Record Emitted := { called : list nat; logged : list nat }.

Definition emit (throws : nat -> bool) (event : string) (r : gmap string (list nat))
  : Emitted :=
  match r !! event with
  | Some listeners =>
    foldl (fun out listener =>
             {| called := called out ++ [listener];
                logged := if throws listener then logged out ++ [listener]
                          else logged out |})
          {| called := []; logged := [] |} listeners
  | None => {| called := []; logged := [] |}
  end.

End Listeners.

(** * ConcurrencyUtils *)

(** ** limitConcurrency

    The async function runs from one [await] to the next in one step.
    The promise [task().then(...)] of the i-th task called is [results[i]];
    it is identified with its index, and [executing] holds indices.  A
    task function either returns a promise, which the environment
    settles later, or throws when called. *)

Module LimitConcurrency.

Inductive TaskFn (E : Type) :=
| ReturnsPromise
| Throws (error : E).
Arguments ReturnsPromise {E}.
Arguments Throws {E} error.

Inductive PromiseState (V E : Type) :=
| Pending
| Fulfilled (value : V)
| Rejected (error : E).
Arguments Pending {V E}.
Arguments Fulfilled {V E} value.
Arguments Rejected {V E} error.

(** Where the function is: suspended in [await Promise.race(executing)],
    with the tasks still to be called, the promises the race was created
    on and the state of the race ([None]: pending, [Some None]: fulfilled,
    [Some (Some e)]: rejected with [e]); after [return Promise.all(results)]
    with that promise pending; or settled, with the values or the error. *)
Inductive Phase (V E : Type) :=
| AwaitRace (rest : list (TaskFn E)) (snapshot : list nat) (race : option (option E))
| AwaitAll
| Done (outcome : list V + E).
Arguments AwaitRace {V E} rest snapshot race.
Arguments AwaitAll {V E}.
Arguments Done {V E} outcome.

Record State (V E : Type) := {
  concurrency : Z;
  results : list (PromiseState V E);
  executing : list nat;
  phase : Phase V E }.
Arguments concurrency {V E} s.
Arguments results {V E} s.
Arguments executing {V E} s.
Arguments phase {V E} s.

Definition with_phase {V E} (ph : Phase V E) (s : State V E) : State V E :=
  {| concurrency := concurrency s; results := results s;
     executing := executing s; phase := ph |}.

(** [Promise.race(ps)] when it is created: settled already if one of the
    promises is, as the first such promise of the array. *)
Fixpoint race_of {V E} (results : list (PromiseState V E)) (ps : list nat)
  : option (option E) :=
  match ps with
  | [] => None
  | p :: ps =>
    match results !! p with
    | Some (Fulfilled _) => Some None
    | Some (Rejected error) => Some (Some error)
    | _ => race_of results ps
    end
  end.

(** The first rejected promise of an array. *)
Fixpoint first_rejected {V E} (results : list (PromiseState V E)) : option E :=
  match results with
  | [] => None
  | Rejected error :: _ => Some error
  | _ :: results => first_rejected results
  end.

Definition value_of {V E} (p : PromiseState V E) : option V :=
  match p with Fulfilled value => Some value | _ => None end.

(** [Promise.all(results)]: rejected with the first rejection, fulfilled
    with the values in the order of the array once all are fulfilled. *)
Definition all_of {V E} (results : list (PromiseState V E)) : Phase V E :=
  match first_rejected results with
  | Some error => Done (inr error)
  | None =>
    match mapM value_of results with
    | Some values => Done (inl values)
    | None => AwaitAll
    end
  end.

(** [results.push(promise); executing.push(promise)] with the promise of
    the task just called. *)
Definition push {V E} (s : State V E) : State V E :=
  let promise := length (results s) in
  {| concurrency := concurrency s;
     results := results s ++ [Pending];
     executing := executing s ++ [promise];
     phase := phase s |}.

(** The for loop from the call of the next task to the next [await], or
    to the end. *)
Fixpoint loop {V E} (tasks : list (TaskFn E)) (s : State V E) : State V E :=
  match tasks with
  | [] => with_phase (all_of (results s)) s
  | Throws error :: _ => with_phase (Done (inr error)) s
  | ReturnsPromise :: rest =>
    let s := push s in
    if concurrency s <=? Z.of_nat (length (executing s)) then
      with_phase (AwaitRace rest (executing s) (race_of (results s) (executing s))) s
    else loop rest s
  end.

Definition limitConcurrency {V E} (tasks : list (TaskFn E)) (concurrency : Z)
  : State V E :=
  loop tasks {| concurrency := concurrency; results := []; executing := [];
                phase := AwaitAll |}.

(** [executing.indexOf(promise)], [None] for -1. *)
Fixpoint indexOf (promise : nat) (ps : list nat) : option nat :=
  match ps with
  | [] => None
  | p :: ps =>
    if Nat.eqb p promise then Some 0%nat
    else S <$> indexOf promise ps
  end.

(** [executing.splice(executing.indexOf(promise), 1)]; [splice(-1, 1)]
    removes the last element. *)
Definition splice_out (promise : nat) (ps : list nat) : list nat :=
  match indexOf promise ps with
  | Some index => delete index ps
  | None => delete (length ps - 1)%nat ps
  end.

Inductive Event (V E : Type) :=
| Fulfil (promise : nat) (value : V)   (* the promise of a task fulfils: the callback runs *)
| Reject (promise : nat) (error : E)   (* ... or rejects: the callback is skipped *)
| Resume.                              (* the function continues behind its await *)
Arguments Fulfil {V E} promise value.
Arguments Reject {V E} promise error.
Arguments Resume {V E}.

Definition step {V E} (ev : Event V E) (s : State V E) : State V E :=
  match ev with
  | Fulfil p value =>
    match results s !! p with
    | Some Pending =>
      let results' := <[p := Fulfilled value]> (results s) in
      {| concurrency := concurrency s;
         results := results';
         executing := splice_out p (executing s);
         phase := match phase s with
                  | AwaitRace rest snapshot None =>
                    if bool_decide (p ∈ snapshot)
                    then AwaitRace rest snapshot (Some None)
                    else AwaitRace rest snapshot None
                  | AwaitAll => all_of results'
                  | ph => ph
                  end |}
    | _ => s
    end
  | Reject p error =>
    match results s !! p with
    | Some Pending =>
      {| concurrency := concurrency s;
         results := <[p := Rejected error]> (results s);
         executing := executing s;
         phase := match phase s with
                  | AwaitRace rest snapshot None =>
                    if bool_decide (p ∈ snapshot)
                    then AwaitRace rest snapshot (Some (Some error))
                    else AwaitRace rest snapshot None
                  | AwaitAll => Done (inr error)
                  | ph => ph
                  end |}
    | _ => s
    end
  | Resume =>
    match phase s with
    | AwaitRace rest _ (Some None) => loop rest s
    | AwaitRace _ _ (Some (Some error)) => with_phase (Done (inr error)) s
    | _ => s
    end
  end.

Definition run {V E} (h : list (Event V E)) (s : State V E) : State V E :=
  foldl (fun s ev => step ev s) s h.

Definition is_pending {V E} (p : option (PromiseState V E)) : bool :=
  match p with Some Pending => true | _ => false end.

(** The promises of tasks that have been called and have not settled. *)
Definition in_flight {V E} (s : State V E) : list nat :=
  filter (fun p => is_pending (results s !! p)) (seq 0 (length (results s))).

End LimitConcurrency.

(** ** batchProcess: the batches *)

Module BatchProcess.

(** [Array.prototype.slice(from, to)] *)
Definition slice {A} (from to : Z) (l : list A) : list A :=
  let len := Z.of_nat (length l) in
  let k := if from <? 0 then Z.max (len + from) 0 else Z.min from len in
  let final := if to <? 0 then Z.max (len + to) 0 else Z.min to len in
  take (Z.to_nat (final - k)) (drop (Z.to_nat k) l).

(** [for (let i = 0; i < data.length; i += batchSize) batches.push(...)];
    [None] when the fuel runs out before the loop ends. *)
Fixpoint batches_from {A} (fuel : nat) (data : list A) (batchSize i : Z)
    (batches : list (list A)) : option (list (list A)) :=
  match fuel with
  | O => None
  | S fuel =>
    if i <? Z.of_nat (length data) then
      batches_from fuel data batchSize (i + batchSize)
        (batches ++ [slice i (i + batchSize) data])
    else Some batches
  end.

Definition batches {A} (fuel : nat) (data : list A) (batchSize : Z)
  : option (list (list A)) :=
  batches_from fuel data batchSize 0 [].

(** One task per batch for limitConcurrency. *)
Definition batchTasks {A E} (bs : list (list A)) : list (LimitConcurrency.TaskFn E) :=
  (fun _ => LimitConcurrency.ReturnsPromise) <$> bs.

(** [results.flat()] *)
Definition flat {B} (results : list (list B)) : list B := concat results.

End BatchProcess.

(** ** createTaskPool *)

Module TaskPool.

Inductive TaskFn (E : Type) :=
| ReturnsPromise
| Throws (error : E).
Arguments ReturnsPromise {E}.
Arguments Throws {E} error.

Inductive PromiseState (V E : Type) :=
| Pending
| Fulfilled (value : V)
| Rejected (error : E).
Arguments Pending {V E}.
Arguments Fulfilled {V E} value.
Arguments Rejected {V E} error.

(** [pool]: per worker, the wrapper whose task it awaits ([None]: not
    busy).  [queue]: the wrappers, each the promise [execute] returned
    and the task.  [promises]: the promises returned by [execute].
    [started]: the wrappers taken from the queue so far, in order. *)
Record State (V E : Type) := {
  pool : list (option nat);
  queue : list (nat * TaskFn E);
  promises : list (PromiseState V E);
  started : list nat }.
Arguments pool {V E} s.
Arguments queue {V E} s.
Arguments promises {V E} s.
Arguments started {V E} s.

(** [resolve(...)] or [reject(...)] of a promise: the first call settles,
    later ones do nothing. *)
Definition settle_promise {V E} (p : nat) (outcome : PromiseState V E)
    (promises : list (PromiseState V E)) : list (PromiseState V E) :=
  match promises !! p with
  | Some Pending => <[p := outcome]> promises
  | _ => promises
  end.

Definition createTaskPool {V E} (poolSize : Z) : State V E :=
  {| pool := replicate (Z.to_nat poolSize) None; queue := [];
     promises := []; started := [] |}.

(** [pool.find(worker => !worker.busy)], as an index. *)
Fixpoint find_available (pool : list (option nat)) : option nat :=
  match pool with
  | [] => None
  | None :: _ => Some 0%nat
  | Some _ :: pool => S <$> find_available pool
  end.

(** [processQueue] on the queue [q], up to its [await]: a task that
    throws when called is rejected at once, its worker is free again and
    [processQueue] is called again. *)
Fixpoint processQueue_on {V E} (q : list (nat * TaskFn E)) (s : State V E) : State V E :=
  match find_available (pool s) with
  | None => {| pool := pool s; queue := q; promises := promises s;
               started := started s |}
  | Some worker =>
    match q with
    | [] => {| pool := pool s; queue := []; promises := promises s;
               started := started s |}
    | (p, ReturnsPromise) :: rest =>
      {| pool := <[worker := Some p]> (pool s); queue := rest;
         promises := promises s; started := started s ++ [p] |}
    | (p, Throws error) :: rest =>
      processQueue_on rest
        {| pool := pool s; queue := rest;
           promises := settle_promise p (Rejected error) (promises s);
           started := started s ++ [p] |}
    end
  end.

Definition processQueue {V E} (s : State V E) : State V E :=
  processQueue_on (queue s) s.

(** [execute(task)]: the new promise and the state. *)
Definition execute {V E} (task : TaskFn E) (s : State V E) : nat * State V E :=
  let p := length (promises s) in
  (p, processQueue {| pool := pool s; queue := queue s ++ [(p, task)];
                      promises := promises s ++ [Pending];
                      started := started s |}).

Inductive Event (V E : Type) :=
| Execute (task : TaskFn E)
| Fulfil (worker : nat) (value : V)   (* the task awaited by the worker fulfils *)
| Reject (worker : nat) (error : E).  (* ... or rejects *)
Arguments Execute {V E} task.
Arguments Fulfil {V E} worker value.
Arguments Reject {V E} worker error.

(** Behind the [await]: resolve or reject, then the finally block. *)
Definition settle {V E} (worker : nat) (outcome : PromiseState V E) (s : State V E)
  : State V E :=
  match pool s !! worker with
  | Some (Some p) =>
    processQueue {| pool := <[worker := None]> (pool s); queue := queue s;
                    promises := settle_promise p outcome (promises s);
                    started := started s |}
  | _ => s
  end.

Definition step {V E} (ev : Event V E) (s : State V E) : State V E :=
  match ev with
  | Execute task => (execute task s).2
  | Fulfil worker value => settle worker (Fulfilled value) s
  | Reject worker error => settle worker (Rejected error) s
  end.

Definition run {V E} (h : list (Event V E)) (s : State V E) : State V E :=
  foldl (fun s ev => step ev s) s h.

End TaskPool.

(** ** Invariants of limitConcurrency and of the task pool *)

(** [executing] holds each promise once, all those that are pending and
    none that is fulfilled. *)
Record executing_wf {V E} (s : LimitConcurrency.State V E) : Prop := {
  lw_nodup : NoDup (LimitConcurrency.executing s);
  lw_pending : forall p,
    LimitConcurrency.is_pending (LimitConcurrency.results s !! p) = true ->
    p ∈ LimitConcurrency.executing s;
  lw_unfulfilled : forall p v,
    p ∈ LimitConcurrency.executing s ->
    LimitConcurrency.results s !! p <> Some (LimitConcurrency.Fulfilled v);
  lw_bound : forall p,
    p ∈ LimitConcurrency.executing s ->
    (p < length (LimitConcurrency.results s))%nat }.

(** The ceiling limitConcurrency keeps: [concurrency], but at least 1. *)
Definition room {V E} (s : LimitConcurrency.State V E) : Z :=
  Z.max (LimitConcurrency.concurrency s) 1.

(** [executing] is within the ceiling, and below it when the loop is
    about to continue. *)
Definition executing_bounded {V E} (s : LimitConcurrency.State V E) : Prop :=
  match LimitConcurrency.phase s with
  | LimitConcurrency.AwaitRace _ _ (Some None) =>
    Z.of_nat (length (LimitConcurrency.executing s)) < room s
  | _ => Z.of_nat (length (LimitConcurrency.executing s)) <= room s
  end.

(** How far the loop over [tasks] has come. *)
Definition called_so_far {V E} (tasks : list (LimitConcurrency.TaskFn E))
    (s : LimitConcurrency.State V E) : Prop :=
  let called :=
    replicate (length (LimitConcurrency.results s)) LimitConcurrency.ReturnsPromise in
  match LimitConcurrency.phase s with
  | LimitConcurrency.AwaitRace rest _ _ => tasks = called ++ rest
  | LimitConcurrency.AwaitAll => tasks = called
  | LimitConcurrency.Done (inl values) =>
    tasks = called
    /\ LimitConcurrency.results s = LimitConcurrency.Fulfilled <$> values
  | LimitConcurrency.Done (inr _) => True
  end.

(** No worker of the pool is free. *)
Definition all_busy (pool : list (option nat)) : Prop :=
  Forall (fun w => w <> None) pool.

(** At most one worker of the pool is free. *)
Definition at_most_one_free (pool : list (option nat)) : Prop :=
  forall i j, pool !! i = Some None -> pool !! j = Some None -> i = j.

(** The pool never leaves a task waiting while a worker is free, and it
    takes the tasks from the queue in the order of the calls of execute. *)
Record pool_wf {V E} (s : TaskPool.State V E) : Prop := {
  tw_conserving : TaskPool.queue s <> [] -> all_busy (TaskPool.pool s);
  tw_fifo : TaskPool.started s ++ (TaskPool.queue s).*1
            = seq 0 (length (TaskPool.promises s)) }.

(** * Properties *)

(** ** What each helper leaves alone *)

Lemma slots_inv s s' :
  slots s' = slots s -> config s' = config s /\ runningTasks s' = runningTasks s.
Proof. unfold slots. by intros [= -> ->]. Qed.

Lemma settle_slots p v s : slots (settle p v s) = slots s.
Proof. frame_by settle. Qed.

Lemma settle_timing p v s : timing (settle p v s) = timing s.
Proof. frame_by settle. Qed.

Lemma abort_timing a s : timing (abort a s) = timing s.
Proof. done. Qed.

Lemma catchAttempt_slots e k err s : slots (catchAttempt e k err s) = slots s.
Proof. frame_by catchAttempt. Qed.

Lemma catchAttempt_timing e k err s : timing (catchAttempt e k err s) = timing s.
Proof. frame_by catchAttempt. Qed.

Lemma retryIteration_slots e k err s : slots (retryIteration e k err s) = slots s.
Proof. frame_by retryIteration. apply catchAttempt_slots. Qed.

Lemma retryIteration_timing e k err s : timing (retryIteration e k err s) = timing s.
Proof. frame_by retryIteration. apply catchAttempt_timing. Qed.

Lemma executeTask_config now task s : config (executeTask now task s) = config s.
Proof.
  unfold executeTask, runTaskWithRetry.
  match goal with |- config (retryIteration ?e ?k ?l ?s') = _ =>
    destruct (slots_inv s' _ (retryIteration_slots e k l s')) as [-> _] end.
  done.
Qed.

Lemma executeTask_runningTasks now task s :
  exists task',
    runningTasks (executeTask now task s) = <[task_id task := task']> (runningTasks s).
Proof.
  unfold executeTask, runTaskWithRetry.
  match goal with |- exists _, runningTasks (retryIteration ?e ?k ?l ?s') = _ =>
    destruct (slots_inv s' _ (retryIteration_slots e k l s')) as [_ ->] end.
  simpl. eauto.
Qed.

Lemma executeTask_timing now task s : timing (executeTask now task s) = timing s.
Proof.
  unfold executeTask, runTaskWithRetry. rewrite retryIteration_timing. done.
Qed.

Lemma processNextTask_config now s : config (processNextTask now s) = config s.
Proof. frame_by processNextTask. by rewrite executeTask_config. Qed.

Lemma processNextTask_timing now s : timing (processNextTask now s) = timing s.
Proof.
  unfold processNextTask. repeat case_match; try done.
  by rewrite executeTask_timing.
Qed.

(** ** The concurrency ceiling *)

Lemma within_ceiling_slots s s' :
  slots s' = slots s -> within_ceiling s -> within_ceiling s'.
Proof. unfold within_ceiling, slots. intros [= -> ->]. done. Qed.

Lemma within_ceiling_delete k s :
  within_ceiling s ->
  within_ceiling (with_runningTasks (delete k (runningTasks s)) s).
Proof.
  unfold within_ceiling. simpl. intros H.
  pose proof (map_subseteq_size _ _ (delete_subseteq (runningTasks s) k)). lia.
Qed.

(** The scheduler dispatches only below the ceiling, and a dispatch adds
    at most one entry. *)
Lemma processNextTask_ceiling now s :
  within_ceiling s -> within_ceiling (processNextTask now s).
Proof.
  unfold processNextTask, within_ceiling. intros H.
  destruct (negb (isRunning s) || isPaused s) eqn:Hflags; simpl; [done |].
  destruct (maxConcurrency (config s) <=? Z.of_nat (size (runningTasks s))) eqn:Hfull;
    [done |].
  apply Z.leb_gt in Hfull.
  destruct (taskQueue s) as [| task rest]; [done |].
  rewrite executeTask_config. simpl.
  destruct (executeTask_runningTasks now task (with_taskQueue rest s)) as [task' ->].
  simpl. rewrite map_size_insert.
  destruct (runningTasks s !! task_id task); unfold id; lia.
Qed.

Lemma finallyExecuteTask_ceiling now task s :
  within_ceiling s -> within_ceiling (finallyExecuteTask now task s).
Proof.
  intros H. unfold finallyExecuteTask.
  by apply processNextTask_ceiling, within_ceiling_delete.
Qed.

Lemma update_activation_slots e f s : slots (update_activation e f s) = slots s.
Proof. done. Qed.

Lemma abortAll_slots tasks s : slots (abortAll tasks s) = slots s.
Proof.
  revert s. induction tasks as [| t tasks IH]; intros s; [done |].
  unfold abortAll in *. simpl. rewrite IH. by destruct (task_abortController t).
Qed.

Lemma clearQueue_slots s : slots (clearQueue s) = slots s.
Proof.
  unfold clearQueue.
  assert (forall q s0, slots (foldl (fun s task =>
            settle (task_promise task) (RejectedError QueueCleared) s) s0 q) = slots s0) as H.
  { induction q as [| t q IH]; intros s0; [done |]. simpl. by rewrite IH, settle_slots. }
  specialize (H (taskQueue s) s). unfold slots in *. simpl. done.
Qed.

Lemma addTask_ceiling now c s :
  within_ceiling s -> within_ceiling (addTask now c s).2.
Proof.
  intros H. unfold addTask.
  destruct (validTaskConfig c) as [[i b] |]; simpl;
    [| by eapply within_ceiling_slots; [apply settle_slots |]].
  case_match; simpl; [by eapply within_ceiling_slots; [apply settle_slots |] |].
  case_match; [apply processNextTask_ceiling |]; done.
Qed.

Lemma cancelTask_ceiling taskId s :
  within_ceiling s -> within_ceiling (cancelTask taskId s).2.
Proof.
  intros H. unfold cancelTask.
  destruct (runningTasks s !! taskId) as [task |]; simpl.
  - destruct (task_abortController task); by apply (within_ceiling_delete taskId) in H.
  - repeat case_match; simpl; try done.
    eapply within_ceiling_slots; [apply settle_slots |]. done.
Qed.

Lemma resumeActivation_ceiling now ev s :
  within_ceiling s -> within_ceiling (resumeActivation now ev s).
Proof.
  intros H. destruct ev; simpl; try done.
  - repeat case_match; try done.
  - repeat case_match; try done.
    eapply within_ceiling_slots; [apply catchAttempt_slots | done].
  - repeat case_match; try done.
    eapply within_ceiling_slots; [apply retryIteration_slots | done].
  - repeat case_match; try done.
  - destruct (activations s !! e) as [a |]; [| done].
    destruct (act_phase a) as [| | [| error] |]; try done.
    + unfold taskSucceeded. apply finallyExecuteTask_ceiling.
      eapply within_ceiling_slots; [apply settle_slots |]. done.
    + unfold taskFailed. apply finallyExecuteTask_ceiling.
      eapply within_ceiling_slots; [apply settle_slots |]. done.
Qed.

Lemma step_ceiling now ev s :
  within_ceiling s -> within_ceiling (step now ev s).
Proof.
  intros H.
  destruct ev; try (by apply (resumeActivation_ceiling now _ s)); simpl.
  - by apply addTask_ceiling.
  - unfold start. case_match; [done |]. by apply processNextTask_ceiling.
  - done.
  - unfold resume. by apply processNextTask_ceiling.
  - unfold stop. eapply within_ceiling_slots; [apply abortAll_slots | done].
  - by apply cancelTask_ceiling.
  - eapply within_ceiling_slots; [apply clearQueue_slots | done].
Qed.

Lemma run_ceiling h s :
  within_ceiling s -> within_ceiling (run h s).
Proof.
  revert s. induction h as [| [now ev] h IH]; intros s H; [done |].
  simpl. by apply IH, step_ceiling.
Qed.

Lemma settle_config p v s : config (settle p v s) = config s.
Proof. apply (slots_inv s), settle_slots. Qed.

Lemma catchAttempt_config e k err s : config (catchAttempt e k err s) = config s.
Proof. apply (slots_inv s), catchAttempt_slots. Qed.

Lemma retryIteration_config e k err s : config (retryIteration e k err s) = config s.
Proof. apply (slots_inv s), retryIteration_slots. Qed.

Lemma abortAll_config tasks s : config (abortAll tasks s) = config s.
Proof. apply (slots_inv s), abortAll_slots. Qed.

Lemma clearQueue_config s : config (clearQueue s) = config s.
Proof. apply (slots_inv s), clearQueue_slots. Qed.

Hint Rewrite processNextTask_config settle_config catchAttempt_config
  retryIteration_config abortAll_config clearQueue_config : controller_config.

Lemma step_config now ev s : config (step now ev s) = config s.
Proof.
  destruct ev; simpl.
  - unfold addTask. repeat case_match; by config_simpl.
  - unfold start. case_match; by config_simpl.
  - done.
  - unfold resume. by config_simpl.
  - unfold stop. by config_simpl.
  - unfold cancelTask. repeat case_match; by config_simpl.
  - apply clearQueue_config.
  - repeat case_match; done.
  - repeat case_match; by config_simpl.
  - repeat case_match; by config_simpl.
  - repeat case_match; done.
  - repeat case_match; try done;
      unfold taskSucceeded, taskFailed, finallyExecuteTask; by config_simpl.
Qed.

Lemma run_config h s : config (run h s) = config s.
Proof.
  revert s. induction h as [| [now ev] h IH]; intros s; [done |].
  simpl. by rewrite IH, step_config.
Qed.

(** C1.  With a ceiling that is not negative, no history of method calls
    and resumptions leads the controller to a state whose runningTasks
    map holds more than maxConcurrency entries; the ceiling itself never
    changes. *)
Theorem running_never_exceeds_maxConcurrency
    (o : ControllerOptions) (h : list (Z * Event)) :
  0 <= maxConcurrency (config (constructor o)) ->
  Z.of_nat (size (runningTasks (run h (constructor o))))
    <= maxConcurrency (config (constructor o)).
Proof.
  intros Hpos.
  rewrite <- (run_config h (constructor o)).
  apply run_ceiling. unfold within_ceiling. simpl.
  rewrite map_size_empty. exact Hpos.
Qed.

Lemma running_never_exceeds_maxConcurrency_witness :
  Z.of_nat (size (runningTasks (run Scenario.low_then_high (Scenario.controller 1))))
    <= maxConcurrency (config (Scenario.controller 1)).
Proof.
  apply (running_never_exceeds_maxConcurrency _ Scenario.low_then_high).
  simpl. lia.
Defined.

(** ** Priority insertion *)

(** If no queued task has a priority at or above the new one, the scan
    ends without a match and [insertIndex] keeps its initial value. *)
Lemma scanInsertIndex_no_match q priority i d :
  (forall t, t ∈ q -> js_ge (task_priority t) priority = false) ->
  scanInsertIndex q priority i d = d.
Proof.
  intros Hlow. induction i as [| j IH]; simpl; [done |].
  destruct (q !! j) as [t |] eqn:Hj; [| done].
  rewrite (Hlow t); [done |]. by eapply list_elem_of_lookup_2.
Qed.

(** ... and the initial value is the length of the queue: the new task
    goes to the back, behind every task of lower priority. *)
Lemma insertTaskByPriority_highest_goes_last task s :
  (forall t, t ∈ taskQueue s ->
     js_ge (task_priority t) (num_or (task_priority task) 0) = false) ->
  taskQueue (insertTaskByPriority task s) = taskQueue s ++ [task].
Proof.
  intros Hlow. unfold insertTaskByPriority. simpl.
  rewrite scanInsertIndex_no_match by done.
  unfold splice_insert. by rewrite take_ge, drop_ge by lia.
Qed.



(** C2, on the code.  With one slot taken by A, B (priority 0) and then C
    (priority 10) are submitted: C is queued behind B, and when A's slot
    frees it is B that is dispatched while C stays queued. *)
Theorem higher_priority_queued_behind_lower :
  let s := run Scenario.low_then_high (Scenario.controller 1) in
  let s' := run [(5, BodyResolved 0%nat); (6, RunSettled 0%nat)] s in
  task_id <$> taskQueue s = ["B"; "C"]%string /\
  (map_to_list (runningTasks s)).*1 = ["A"%string] /\
  (map_to_list (runningTasks s')).*1 = ["B"%string] /\
  task_id <$> taskQueue s' = ["C"%string] /\
  call_task <$> bodyCalls s' = ["A"; "B"]%string.
Proof. vm_compute. done. Qed.

(** ** Retries *)

(** C3, on the code.  A task with [retries: 2] whose body rejects every
    time: the body is called three times and two retries are counted, but
    the result the promise rejects with has retryCount 0, because
    [task.attempts] was incremented once, in executeTask. *)
Theorem always_failing_task_reports_zero_retries :
  let s := run Scenario.always_failing (Scenario.controller 1) in
  call_attempt <$> bodyCalls s = [0; 1; 2] /\
  Stats.retriedTasks (stats s) = 2 /\
  (task_attempts ∘ act_task <$> activations s) = [1] /\
  promises s !! 0%nat =
    Some (Some (RejectedResult
                  {| res_id := "A"; res_success := false;
                     res_error := Some BodyError; res_duration := 6;
                     res_retryCount := 0 |})).
Proof. vm_compute. done. Qed.

(** ** Cancellation *)

Lemma findIndex_Some taskId q i :
  findIndex taskId q = Some i ->
  exists task, q !! i = Some task /\ task_id task = taskId.
Proof.
  revert i. induction q as [| t q IH]; intros i; simpl; [done |].
  destruct (String.eqb_spec (task_id t) taskId) as [Heq | Hne].
  - intros [= <-]. by exists t.
  - destruct (findIndex taskId q) as [j |]; simpl; [| done].
    intros [= <-]. by apply IH.
Qed.

Lemma findIndex_None taskId q :
  findIndex taskId q = None -> forall t, t ∈ q -> task_id t <> taskId.
Proof.
  induction q as [| t q IH]; simpl; [by intros _ t' ?%elem_of_nil |].
  destruct (String.eqb_spec (task_id t) taskId) as [Heq | Hne]; [done |].
  destruct (findIndex taskId q) as [j |]; simpl; [done |].
  intros _ t' [-> | Hin]%elem_of_cons; [done | by apply IH].
Qed.

(** The branches of cancelTask, for any state.  A queued task is taken
    out of the queue and its promise rejected with the cancellation
    error; an id that is neither running nor queued changes nothing; a
    running task loses its map entry and has its signal aborted, while
    the promises, the queue and the activations stay as they were. *)
Lemma cancelTask_queued taskId s i :
  runningTasks s !! taskId = None ->
  findIndex taskId (taskQueue s) = Some i ->
  exists task,
    taskQueue s !! i = Some task /\ task_id task = taskId
    /\ cancelTask taskId s =
        (true, settle (task_promise task) (RejectedError TaskCancelled)
                 (with_taskQueue (delete i (taskQueue s)) s)).
Proof.
  intros Hrun Hidx. destruct (findIndex_Some _ _ _ Hidx) as (task & Hq & Hid).
  exists task. unfold cancelTask. by rewrite Hrun, Hidx, Hq.
Qed.

Lemma cancelTask_unknown taskId s :
  runningTasks s !! taskId = None ->
  findIndex taskId (taskQueue s) = None ->
  cancelTask taskId s = (false, s).
Proof. intros Hrun Hidx. unfold cancelTask. by rewrite Hrun, Hidx. Qed.

Lemma cancelTask_running taskId s task :
  runningTasks s !! taskId = Some task ->
  let r := cancelTask taskId s in
  r.1 = true
  /\ runningTasks r.2 = delete taskId (runningTasks s)
  /\ promises r.2 = promises s
  /\ taskQueue r.2 = taskQueue s
  /\ activations r.2 = activations s.
Proof.
  intros Hrun. unfold cancelTask. rewrite Hrun.
  by destruct (task_abortController task).
Qed.

(** C6, on the code.  [cancelTask] on the running task A returns true,
    aborts A's signal and removes A from runningTasks, but A's promise
    stays pending and the scheduler is not called: B remains queued
    although the slot is free. *)
Theorem cancel_running_neither_rejects_nor_schedules :
  let s := run Scenario.one_running_one_queued (Scenario.controller 1) in
  let r := cancelTask "A" s in
  (map_to_list (runningTasks s)).*1 = ["A"%string] /\
  r.1 = true /\
  aborted 0 r.2 = true /\
  runningTasks r.2 = ∅ /\
  promises r.2 !! 0%nat = Some None /\
  task_id <$> taskQueue r.2 = ["B"%string] /\
  length (activations r.2) = 1%nat.
Proof. vm_compute. done. Qed.

(** ** Submission errors *)

Lemma settle_fresh v s :
  settle (length (promises s)) v (with_promises (promises s ++ [None]) s)
  = with_promises (promises s ++ [Some v]) s.
Proof.
  unfold settle. simpl.
  rewrite lookup_app_r, Nat.sub_diag by lia. simpl.
  replace (length (promises s)) with (length (promises s) + 0)%nat at 1 by lia.
  by rewrite insert_app_r.
Qed.

Lemma validTaskConfig_missing c :
  cfg_id c = None \/ cfg_id c = Some ""%string \/ cfg_task c = None ->
  validTaskConfig c = None.
Proof.
  unfold validTaskConfig. intros [-> | [-> | ->]]; [done | | by destruct (cfg_id c)].
  by destruct (cfg_task c).
Qed.

(** C7.  A config without id (absent or empty) or without task is
    rejected with the invalid-config error; a valid one arriving when the
    queue length has reached maxQueueSize is rejected with the queue-full
    error.  In both cases the promise addTask returns is already rejected
    when addTask returns, and nothing else in the state has changed: the
    queue and the totalTasks counter in particular. *)
Theorem addTask_rejects_without_queueing
    (now : Z) (c : TaskConfig) (s : State) (err : JsError) :
  ((cfg_id c = None \/ cfg_id c = Some ""%string \/ cfg_task c = None)
     /\ err = InvalidTaskConfig)
  \/ ((exists i b, validTaskConfig c = Some (i, b))
     /\ maxQueueSize (config s) <= Z.of_nat (length (taskQueue s))
     /\ err = QueueFull (maxQueueSize (config s))) ->
  let p := (addTask now c s).1 in
  let s' := (addTask now c s).2 in
  promises s' !! p = Some (Some (RejectedError err)) /\
  taskQueue s' = taskQueue s /\
  Stats.totalTasks (stats s') = Stats.totalTasks (stats s) /\
  s' = with_promises (promises s ++ [Some (RejectedError err)]) s.
Proof.
  intros Hcase. unfold addTask.
  assert (forall v, (promises s ++ [v]) !! length (promises s) = Some v) as Hlast.
  { intros v. by rewrite lookup_app_r, Nat.sub_diag by lia. }
  destruct Hcase as [[Hmissing ->] | [[i [b Hvalid]] [Hfull ->]]].
  - rewrite (validTaskConfig_missing c Hmissing). simpl.
    rewrite settle_fresh. simpl. by rewrite Hlast.
  - rewrite Hvalid. simpl.
    apply Z.leb_le in Hfull. rewrite Hfull. simpl.
    rewrite settle_fresh. simpl. by rewrite Hlast.
Qed.

Lemma addTask_rejects_without_queueing_witness :
  let s := run Scenario.one_running_one_queued
             (constructor {| opt_maxConcurrency := Some 1; opt_maxQueueSize := Some 1;
                             opt_retryDelay := None; opt_defaultTimeout := None |}) in
  let full := addTask 4 (Scenario.taskConfig "C" None None) s in
  let invalid := addTask 4 {| cfg_id := None; cfg_task := Some (AsyncFunction 0);
                              cfg_priority := None; cfg_retries := None;
                              cfg_retryDelay := None; cfg_timeout := None |} s in
  (promises full.2 !! full.1 = Some (Some (RejectedError (QueueFull 1)))
   /\ taskQueue full.2 = taskQueue s)
  /\ (promises invalid.2 !! invalid.1 = Some (Some (RejectedError InvalidTaskConfig))
      /\ taskQueue invalid.2 = taskQueue s).
Proof.
  intros s full invalid. split.
  - destruct (addTask_rejects_without_queueing 4 (Scenario.taskConfig "C" None None) s
                (QueueFull 1)) as (Hp & Hq & _).
    + right. split; [by exists "C"%string, (AsyncFunction 0) |].
      split; [vm_compute; discriminate | reflexivity].
    + exact (conj Hp Hq).
  - destruct (addTask_rejects_without_queueing 4
                {| cfg_id := None; cfg_task := Some (AsyncFunction 0);
                   cfg_priority := None; cfg_retries := None;
                   cfg_retryDelay := None; cfg_timeout := None |} s
                InvalidTaskConfig) as (Hp & Hq & _).
    + left. split; [by left | reflexivity].
    + exact (conj Hp Hq).
Defined.

(** ** Start and stop timestamps *)

Lemma abortAll_timing tasks s : timing (abortAll tasks s) = timing s.
Proof.
  revert s. induction tasks as [| t tasks IH]; intros s; [done |].
  unfold abortAll in *. simpl. rewrite IH. by destruct (task_abortController t).
Qed.

Lemma clearQueue_timing s : timing (clearQueue s) = timing s.
Proof.
  unfold clearQueue.
  assert (forall q s0, timing (foldl (fun s task =>
            settle (task_promise task) (RejectedError QueueCleared) s) s0 q) = timing s0) as H.
  { induction q as [| t q IH]; intros s0; [done |]. simpl. by rewrite IH, settle_timing. }
  specialize (H (taskQueue s) s). unfold timing in *. simpl. done.
Qed.

Lemma addTask_timing now c s : timing (addTask now c s).2 = timing s.
Proof.
  unfold addTask. repeat case_match; simpl;
    rewrite ?processNextTask_timing, ?settle_timing; done.
Qed.

Lemma cancelTask_timing taskId s : timing (cancelTask taskId s).2 = timing s.
Proof.
  unfold cancelTask. repeat case_match; simpl; rewrite ?settle_timing; done.
Qed.

Lemma resumeActivation_timing now ev s : timing (resumeActivation now ev s) = timing s.
Proof.
  destruct ev; simpl; try done; repeat case_match; try done;
    rewrite ?catchAttempt_timing, ?retryIteration_timing; try done;
    unfold taskSucceeded, taskFailed, finallyExecuteTask;
    rewrite processNextTask_timing; unfold timing; simpl;
    match goal with |- context [settle ?p ?v ?s0] =>
      pose proof (settle_timing p v s0) as Hs; unfold timing in Hs;
      by rewrite Hs end.
Qed.

(** Only start and stop touch isRunning, startTime and endTime. *)
Lemma step_timing now ev s :
  ev <> Start -> ev <> Stop -> timing (step now ev s) = timing s.
Proof.
  intros Hstart Hstop.
  destruct ev; try done; try apply resumeActivation_timing; simpl.
  - apply addTask_timing.
  - unfold resume. by rewrite processNextTask_timing.
  - apply cancelTask_timing.
  - apply clearQueue_timing.
Qed.

Lemma start_timing now s :
  timing (start now s) =
    if isRunning s then timing s
    else (true, Some now, Stats.endTime (stats s)).
Proof.
  unfold start. destruct (isRunning s) eqn:Hr; [by unfold timing; rewrite Hr |].
  by rewrite processNextTask_timing.
Qed.

Lemma stop_timing now s :
  timing (stop now s) = (false, Stats.startTime (stats s), Some now).
Proof. unfold stop. by rewrite abortAll_timing. Qed.

(** While the controller runs and [stop] is not called, the three fields
    stay as they are: a further [start] returns at its guard. *)
Lemma run_timing_while_running h s t0 e0 :
  no_stop h -> timing s = (true, t0, e0) -> timing (run h s) = (true, t0, e0).
Proof.
  revert s. induction h as [| [now ev] h IH]; intros s Hns Ht; [done |].
  apply Forall_cons in Hns as [Hev Hns]. simpl in *.
  apply IH; [done |].
  destruct ev; try discriminate Hev;
    try (rewrite step_timing; done).
  simpl. rewrite start_timing.
  assert (isRunning s = true) as -> by (unfold timing in Ht; congruence).
  done.
Qed.

(** Before the first [start], startTime stays null. *)
Lemma run_timing_never_started h s r e0 :
  no_start h -> timing s = (r, None, e0) ->
  Stats.startTime (stats (run h s)) = None.
Proof.
  revert s r e0. induction h as [| [now ev] h IH]; intros s r e0 Hns Ht.
  { unfold timing in Ht. simpl. congruence. }
  apply Forall_cons in Hns as [Hev Hns]. simpl in *.
  destruct ev; try discriminate Hev;
    try (eapply IH; [done |]; rewrite step_timing; done).
  eapply IH; [done |]. simpl. rewrite stop_timing.
  unfold timing in Ht. injection Ht as _ -> _. done.
Qed.

(** C10.  After [stop] at [t_stop] and a later [start] at [t_start], and
    for as long as [stop] is not called again, getStats computes the
    duration from the old endTime: it is [t_stop - t_start], a negative
    number, whatever the current time.  Between the two calls anything
    but start and stop may happen; after the restart anything but stop. *)
Theorem restart_keeps_stale_endTime
    (s : State) (t_stop t_start now : Z) (between after : list (Z * Event)) :
  0 < t_stop -> t_stop < t_start ->
  no_start between -> no_stop between -> no_stop after ->
  let s' := run after (start t_start (run between (stop t_stop s))) in
  Stats.endTime (stats s') = Some t_stop /\
  Snapshot.duration (getStats now s') = t_stop - t_start /\
  Snapshot.duration (getStats now s') < 0.
Proof.
  intros Hpos Hlt Hb1 Hb2 Ha s'.
  assert (timing (run between (stop t_stop s))
          = (false, Stats.startTime (stats s), Some t_stop)) as Hbetween.
  { generalize (stop_timing t_stop s). generalize (stop t_stop s).
    induction between as [| [t ev] between IH]; intros s0 Hs0; [done |].
    apply Forall_cons in Hb1 as [Hev1 Hb1]. apply Forall_cons in Hb2 as [Hev2 Hb2].
    simpl. apply IH; [done | done |].
    rewrite step_timing; [done | |]; by destruct ev. }
  assert (timing s' = (true, Some t_start, Some t_stop)) as Hs'.
  { apply run_timing_while_running; [done |].
    rewrite start_timing.
    unfold timing in Hbetween. injection Hbetween as -> _ ->. done. }
  unfold timing in Hs'. injection Hs' as _ Hst Hen.
  split; [exact Hen |].
  unfold getStats. simpl. rewrite Hst, Hen. simpl.
  assert ((t_start =? 0) = false) as -> by lia.
  assert ((t_stop =? 0) = false) as -> by lia.
  simpl. split; [done | lia].
Qed.

Lemma restart_keeps_stale_endTime_witness :
  Snapshot.duration
    (getStats 900
       (run [(700, AddTask (Scenario.taskConfig "B" None None))]
          (start 500
             (run [(300, ClearQueue)]
                (stop 200 (run Scenario.one_running_one_queued (Scenario.controller 1)))))))
  = 200 - 500.
Proof.
  apply (restart_keeps_stale_endTime
           (run Scenario.one_running_one_queued (Scenario.controller 1))
           200 500 900 [(300, ClearQueue)]
           [(700, AddTask (Scenario.taskConfig "B" None None))]).
  - lia.
  - lia.
  - by repeat constructor.
  - by repeat constructor.
  - by repeat constructor.
Defined.

(** ** getStats *)

Lemma settle_submitted p v s : submitted (settle p v s) = submitted s.
Proof. frame_by settle. Qed.

Lemma catchAttempt_submitted e k err s : submitted (catchAttempt e k err s) = submitted s.
Proof. frame_by catchAttempt. Qed.

Lemma retryIteration_submitted e k err s :
  submitted (retryIteration e k err s) = submitted s.
Proof.
  unfold retryIteration. repeat case_match; try done. apply catchAttempt_submitted.
Qed.

Lemma processNextTask_submitted now s : submitted (processNextTask now s) = submitted s.
Proof.
  unfold processNextTask. repeat case_match; try done.
  unfold executeTask, runTaskWithRetry. by rewrite retryIteration_submitted.
Qed.

Lemma abortAll_submitted tasks s : submitted (abortAll tasks s) = submitted s.
Proof.
  revert s. induction tasks as [| t tasks IH]; intros s; [done |].
  unfold abortAll in *. simpl. rewrite IH. by destruct (task_abortController t).
Qed.

Lemma clearQueue_submitted s : submitted (clearQueue s) = submitted s.
Proof.
  unfold clearQueue.
  assert (forall q s0, submitted (foldl (fun s task =>
            settle (task_promise task) (RejectedError QueueCleared) s) s0 q)
          = submitted s0) as H.
  { induction q as [| t q IH]; intros s0; [done |]. simpl. by rewrite IH, settle_submitted. }
  specialize (H (taskQueue s) s). unfold submitted in *. simpl. done.
Qed.

Lemma step_submitted now ev s : submitted s <= submitted (step now ev s).
Proof.
  destruct ev; simpl.
  - unfold addTask. repeat case_match; simpl;
      rewrite ?processNextTask_submitted, ?settle_submitted;
      unfold submitted; simpl; lia.
  - unfold start. case_match; rewrite ?processNextTask_submitted; done.
  - done.
  - unfold resume. by rewrite processNextTask_submitted.
  - unfold stop. by rewrite abortAll_submitted.
  - unfold cancelTask. repeat case_match; simpl; rewrite ?settle_submitted; done.
  - by rewrite clearQueue_submitted.
  - repeat case_match; done.
  - repeat case_match; rewrite ?catchAttempt_submitted; done.
  - repeat case_match; rewrite ?retryIteration_submitted; done.
  - repeat case_match; done.
  - repeat case_match; try done;
      unfold taskSucceeded, taskFailed, finallyExecuteTask;
      rewrite processNextTask_submitted; unfold submitted; simpl;
      match goal with |- context [settle ?p ?v ?s0] =>
        pose proof (settle_submitted p v s0) as Hs; unfold submitted in Hs;
        rewrite Hs end; done.
Qed.

Lemma run_submitted h s : submitted s <= submitted (run h s).
Proof.
  revert s. induction h as [| [now ev] h IH]; intros s; [done |].
  simpl. etrans; [apply (step_submitted now ev) | apply IH].
Qed.

(** C8 as worded fails on a controller that was never started (duration
    is the number 0, not undefined; successRate is the string '0%', not
    the number 0), and on one with one of two tasks completed (successRate
    is the string '50.00%', not the ratio 1/2). *)
Lemma getStats_is_not_the_specified_snapshot :
  let fresh := Scenario.controller 1 in
  let half := run ScenarioStats.one_of_two_done (Scenario.controller 1) in
  (js_duration (getStats 5 fresh) = JsNumber 0
   /\ spec_duration 5 fresh = JsUndefined
   /\ js_duration (getStats 5 fresh) <> spec_duration 5 fresh)
  /\ (js_successRate (getStats 5 fresh) = JsString "0%"
      /\ spec_successRate fresh = JsNumber 0
      /\ js_successRate (getStats 5 fresh) <> spec_successRate fresh)
  /\ (js_successRate (getStats 9 half) = JsString "50.00%"
      /\ spec_successRate half = JsNumber (1 # 2)
      /\ js_successRate (getStats 9 half) <> spec_successRate half).
Proof. vm_compute. repeat split; discriminate. Qed.

(** C8, amended.  In the snapshot of any state the controller can reach:
    successRate is the string '0%' when nothing was submitted and
    otherwise [(completedTasks / totalTasks * 100).toFixed(2)] followed by
    '%'; duration is the number 0 as long as [start] was never called;
    once started at a non-zero time it is the end time ([endTime] when set
    and non-zero, the current time otherwise) minus [startTime]. *)
Theorem getStats_successRate_and_duration
    (o : ControllerOptions) (h : list (Z * Event)) (now : Z) :
  let s := run h (constructor o) in
  let snap := getStats now s in
  Snapshot.successRate snap =
    (if Stats.totalTasks (stats s) =? 0 then "0%"%string
     else JsNumber.percent (Stats.completedTasks (stats s)) (Stats.totalTasks (stats s)))
  /\ (no_start h -> Snapshot.duration snap = 0)
  /\ (forall t0, Stats.startTime (stats s) = Some t0 -> t0 <> 0 ->
      Snapshot.duration snap =
        match Stats.endTime (stats s) with
        | Some t1 => if t1 =? 0 then now else t1
        | None => now
        end - t0).
Proof.
  intros s snap. split; [| split].
  - pose proof (run_submitted h (constructor o)) as Hge.
    fold s in Hge. unfold submitted in Hge. simpl in Hge.
    unfold snap, getStats. simpl.
    destruct (Z.eqb_spec (Stats.totalTasks (stats s)) 0) as [-> | Hne]; [done |].
    assert ((0 <? Stats.totalTasks (stats s)) = true) as -> by lia. done.
  - intros Hns. unfold snap, s, getStats. simpl.
    by rewrite (run_timing_never_started h (constructor o) false None Hns).
  - intros t0 Ht0 Hnz. unfold snap, getStats. simpl.
    rewrite Ht0. simpl.
    assert ((t0 =? 0) = false) as -> by lia. simpl.
    by destruct (Stats.endTime (stats s)).
Qed.

Lemma getStats_successRate_and_duration_witness :
  Snapshot.duration
    (getStats 5 (run [(2, AddTask (Scenario.taskConfig "A" None None))]
                   (Scenario.controller 1))) = 0
  /\ Snapshot.duration
       (getStats 9 (run ScenarioStats.one_of_two_done (Scenario.controller 1)))
     = 9 - 1.
Proof.
  split.
  - apply (getStats_successRate_and_duration
             {| opt_maxConcurrency := Some 1; opt_maxQueueSize := None;
                opt_retryDelay := None; opt_defaultTimeout := None |}
             [(2, AddTask (Scenario.taskConfig "A" None None))] 5).
    by repeat constructor.
  - apply (getStats_successRate_and_duration
             {| opt_maxConcurrency := Some 1; opt_maxQueueSize := None;
                opt_retryDelay := None; opt_defaultTimeout := None |}
             ScenarioStats.one_of_two_done 9).
    + vm_compute. reflexivity.
    + lia.
Defined.

(** ** Abort signals *)

Lemma signals_wf_view s s' :
  signal_view s' = signal_view s -> signals_wf s -> signals_wf s'.
Proof.
  unfold signal_view. intros [= Hn Ha Hc] [H1 H2 H3].
  split; rewrite ?Hn, ?Ha, ?Hc; done.
Qed.

Lemma settle_signal_view p v s : signal_view (settle p v s) = signal_view s.
Proof. frame_by settle. Qed.

Lemma abort_signal_view a s : signal_view (abort a s) = signal_view s.
Proof. unfold signal_view, abort. simpl. by rewrite length_insert. Qed.

Lemma update_activation_wf e f s :
  (forall a, act_signal (f a) = act_signal a) ->
  signals_wf s -> signals_wf (update_activation e f s).
Proof.
  intros Hf [H1 H2 H3]. unfold update_activation. split; simpl.
  - by rewrite length_alter.
  - intros e' a'. rewrite list_lookup_alter. case_decide as Heq.
    + subst e'. destruct (activations s !! e) as [a |] eqn:Ha; [| done].
      simpl. intros [= <-]. rewrite Hf. by apply H2.
    + apply H2.
  - intros c Hc. destruct (H3 c Hc) as [Hs Hsome]. split; [done |].
    rewrite list_lookup_alter. case_decide as Heq; [| done].
    rewrite <- Heq in Hsome. by apply fmap_is_Some.
Qed.

Lemma catchAttempt_wf e k err s : signals_wf s -> signals_wf (catchAttempt e k err s).
Proof.
  intros H. unfold catchAttempt. repeat case_match; try done;
    apply update_activation_wf; try done.
  eapply signals_wf_view; [| exact H]. done.
Qed.

Lemma retryIteration_wf e k err s :
  signals_wf s -> signals_wf (retryIteration e k err s).
Proof.
  intros H. unfold retryIteration.
  destruct (activations s !! e) as [a |] eqn:Ha; [| done].
  repeat case_match; try by apply update_activation_wf.
  - by apply catchAttempt_wf.
  - apply update_activation_wf; [done |].
    destruct H as [Hn Hsig Hcalls]. split; simpl; [done | done |].
    intros c [Hc | ->%list_elem_of_singleton]%elem_of_app; [by apply Hcalls |].
    simpl. split; [by apply Hsig | by rewrite Ha].
Qed.

(** executeTask allocates the controller and the activation together. *)
Lemma executeTask_wf now task s :
  signals_wf s -> signals_wf (executeTask now task s).
Proof.
  intros [H1 H2 H3]. unfold executeTask, runTaskWithRetry.
  apply retryIteration_wf. split; simpl.
  - rewrite !length_app. simpl. lia.
  - intros e a [Hold | [Hlen Hlast]]%lookup_app_Some; [by apply H2 |].
    destruct (e - length (activations s))%nat eqn:Hd; [| done].
    simpl in Hlast. injection Hlast as <-. simpl. lia.
  - intros c Hc. destruct (H3 c Hc) as [Hs [a Ha]]. split; [done |].
    exists a. by apply lookup_app_l_Some.
Qed.

Lemma processNextTask_wf now s : signals_wf s -> signals_wf (processNextTask now s).
Proof.
  intros H. unfold processNextTask. repeat case_match; try done.
  apply executeTask_wf. eapply signals_wf_view; [| exact H]. done.
Qed.

Lemma abortAll_signal_view tasks s : signal_view (abortAll tasks s) = signal_view s.
Proof.
  revert s. induction tasks as [| t tasks IH]; intros s; [done |].
  unfold abortAll in *. simpl. rewrite IH.
  destruct (task_abortController t); [apply abort_signal_view | done].
Qed.

Lemma clearQueue_signal_view s : signal_view (clearQueue s) = signal_view s.
Proof.
  unfold clearQueue.
  assert (forall q s0, signal_view (foldl (fun s task =>
            settle (task_promise task) (RejectedError QueueCleared) s) s0 q)
          = signal_view s0) as H.
  { induction q as [| t q IH]; intros s0; [done |]. simpl. by rewrite IH, settle_signal_view. }
  specialize (H (taskQueue s) s). unfold signal_view in *. simpl. done.
Qed.

Lemma step_wf now ev s : signals_wf s -> signals_wf (step now ev s).
Proof.
  intros H. destruct ev; simpl.
  - unfold addTask. repeat case_match; simpl;
      try apply processNextTask_wf;
      (eapply signals_wf_view; [| exact H]); by rewrite ?settle_signal_view.
  - unfold start. case_match; [done |]. apply processNextTask_wf.
    eapply signals_wf_view; [| exact H]. done.
  - eapply signals_wf_view; [| exact H]. done.
  - unfold resume. apply processNextTask_wf.
    eapply signals_wf_view; [| exact H]. done.
  - unfold stop. eapply signals_wf_view; [| exact H]. by rewrite abortAll_signal_view.
  - unfold cancelTask. repeat case_match; simpl; try done;
      (eapply signals_wf_view; [| exact H]);
      rewrite ?settle_signal_view; try done.
    unfold signal_view, abort. simpl. by rewrite length_insert.
  - eapply signals_wf_view; [| exact H]. apply clearQueue_signal_view.
  - repeat case_match; try done. by apply update_activation_wf.
  - repeat case_match; try done. by apply catchAttempt_wf.
  - repeat case_match; try done. by apply retryIteration_wf.
  - repeat case_match; try done.
    eapply signals_wf_view; [apply abort_signal_view |].
    by apply update_activation_wf.
  - repeat case_match; try done;
      unfold taskSucceeded, taskFailed, finallyExecuteTask;
      apply processNextTask_wf;
      match goal with |- signals_wf (with_runningTasks _ (settle ?p ?v ?s0)) =>
        apply (signals_wf_view (settle p v s0)); [done |];
        apply (signals_wf_view s0); [apply settle_signal_view |] end;
      match goal with |- signals_wf (with_stats _ (with_completedTasks _ ?s0)) =>
        apply (signals_wf_view s0); [done |] end;
      by apply update_activation_wf.
Qed.

Lemma run_wf h s : signals_wf s -> signals_wf (run h s).
Proof.
  revert s. induction h as [| [now ev] h IH]; intros s H; [done |].
  simpl. by apply IH, step_wf.
Qed.

Lemma constructor_wf o : signals_wf (constructor o).
Proof. split; simpl; [done | done |]. by intros c ?%elem_of_nil. Qed.

(** C5 as worded fails: the first and the second attempt of a task are
    passed the same signal, a single AbortController and a single timer
    exist for both; and when the timer fires during the first attempt the
    later attempts find the signal aborted and fail without a call of the
    body. *)
Lemma attempts_share_one_signal_and_timer :
  let s := run ScenarioRetry.second_attempt (Scenario.controller 1) in
  let s' := run ScenarioRetry.timeout_in_first_attempt (Scenario.controller 1) in
  (call_attempt <$> bodyCalls s = [0; 1]
   /\ call_signal <$> bodyCalls s = [0; 0]%nat
   /\ length (abortControllers s) = 1%nat
   /\ act_timer <$> activations s = [Armed 30000])
  /\ (call_attempt <$> bodyCalls s' = [0]
      /\ Stats.retriedTasks (stats s') = 2
      /\ promises s' !! 0%nat =
           Some (Some (RejectedResult
                         {| res_id := "A"; res_success := false;
                            res_error := Some TaskAborted; res_duration := 32002;
                            res_retryCount := 0 |}))).
Proof. vm_compute. done. Qed.

(** Once the signal is aborted, an iteration of the retry loop makes no
    call of the body. *)
Lemma aborted_attempt_skips_body e k err s a :
  activations s !! e = Some a -> aborted (act_signal a) s = true ->
  bodyCalls (retryIteration e k err s) = bodyCalls s.
Proof.
  intros Ha Hab. unfold retryIteration. rewrite Ha, Hab.
  case_match; [| done]. unfold catchAttempt. rewrite Ha. by case_match.
Qed.

(** The retry loop creates no AbortController and leaves every timer as
    it is. *)
Lemma update_phase_keeps_timers e p s :
  act_timer <$> activations (update_activation e (set_phase p) s)
  = act_timer <$> activations s.
Proof.
  unfold update_activation. simpl.
  rewrite (list_fmap_alter act_timer (set_phase p) id)
    by (by apply Forall_forall).
  by apply list_alter_id.
Qed.

Lemma catchAttempt_keeps_timers e k err s :
  act_timer <$> activations (catchAttempt e k err s) = act_timer <$> activations s
  /\ abortControllers (catchAttempt e k err s) = abortControllers s.
Proof.
  unfold catchAttempt. repeat case_match; try done;
    by rewrite update_phase_keeps_timers.
Qed.

Lemma retryIteration_keeps_timers e k err s :
  act_timer <$> activations (retryIteration e k err s) = act_timer <$> activations s
  /\ abortControllers (retryIteration e k err s) = abortControllers s.
Proof.
  unfold retryIteration. repeat case_match; try done;
    try by rewrite update_phase_keeps_timers.
  apply catchAttempt_keeps_timers.
Qed.

(** C5, amended.  In every state the controller can reach, one
    AbortController exists per activation of executeTask, that is per
    dispatched task; different activations hold different signals; every
    call of a task body, first attempt or retry, was passed the signal of
    the activation that made it; and going on to a retry (the body
    rejects, the delay elapses) creates no AbortController and leaves
    every timeout timer as it is. *)
Theorem one_signal_per_dispatched_task
    (o : ControllerOptions) (h : list (Z * Event)) :
  let s := run h (constructor o) in
  length (abortControllers s) = length (activations s)
  /\ (forall e1 e2 a1 a2,
        activations s !! e1 = Some a1 -> activations s !! e2 = Some a2 ->
        act_signal a1 = act_signal a2 -> e1 = e2)
  /\ (forall c, c ∈ bodyCalls s ->
        exists a, activations s !! call_activation c = Some a
                  /\ call_signal c = act_signal a)
  /\ (forall now e ev, ev = BodyRejected e \/ ev = DelayElapsed e ->
        abortControllers (step now ev s) = abortControllers s
        /\ act_timer <$> activations (step now ev s) = act_timer <$> activations s).
Proof.
  intros s. destruct (run_wf h _ (constructor_wf o)) as [Hn Hsig Hcalls].
  fold s in Hn, Hsig, Hcalls. split; [done |]. split; [| split].
  - intros e1 e2 a1 a2 H1 H2 Heq.
    by rewrite <- (Hsig e1 a1 H1), <- (Hsig e2 a2 H2).
  - intros c Hc. destruct (Hcalls c Hc) as [Hs [a Ha]].
    exists a. split; [done |]. by rewrite (Hsig _ _ Ha).
  - intros now e ev [-> | ->]; simpl; repeat case_match; try done.
    + split; apply catchAttempt_keeps_timers.
    + split; apply retryIteration_keeps_timers.
Qed.

Lemma one_signal_per_dispatched_task_witness :
  let s := run ScenarioRetry.second_attempt (Scenario.controller 1) in
  exists a, activations s !! 0%nat = Some a /\ 0%nat = act_signal a.
Proof.
  intros s.
  destruct (one_signal_per_dispatched_task
              {| opt_maxConcurrency := Some 1; opt_maxQueueSize := None;
                 opt_retryDelay := None; opt_defaultTimeout := None |}
              ScenarioRetry.second_attempt) as (_ & _ & Hcalls & _).
  apply (Hcalls {| call_activation := 0; call_task := "A";
                   call_signal := 0; call_attempt := 1 |}).
  apply (list_elem_of_lookup_2 _ 1%nat). vm_compute. reflexivity.
Defined.

(** ** Timeout *)

(** C4 as worded fails: after the timer of the running task A has fired,
    its activation is still suspended on the body, its promise is
    pending, A still occupies the slot and B is still queued; and when
    the body fulfils later, the task succeeds. *)
Lemma controller_waits_past_timeout :
  let s := run ScenarioRetry.body_outlives_timeout (Scenario.controller 1) in
  let s' := run ScenarioRetry.late_success s in
  (aborted 0 s = true
   /\ act_phase <$> activations s !! 0%nat = Some (AwaitBody 0)
   /\ promises s !! 0%nat = Some None
   /\ (map_to_list (runningTasks s)).*1 = ["A"%string]
   /\ task_id <$> taskQueue s = ["B"%string]
   /\ Stats.failedTasks (stats s) = 0 /\ Stats.retriedTasks (stats s) = 0)
  /\ promises s' !! 0%nat =
       Some (Some (Fulfilled
                     {| res_id := "A"; res_success := true; res_error := None;
                        res_duration := 89999; res_retryCount := 0 |})).
Proof. vm_compute. done. Qed.

(** An activation suspended on its task body stays so under every step
    that is not the settlement of that body. *)
Lemma waiting_view e k s s' :
  signal_view s' = signal_view s -> waiting_on_body e k s -> waiting_on_body e k s'.
Proof. unfold signal_view, waiting_on_body. by intros [= _ -> _]. Qed.

Lemma waiting_update_other e e' f k s :
  e' <> e -> waiting_on_body e k s -> waiting_on_body e k (update_activation e' f s).
Proof.
  unfold waiting_on_body, update_activation. simpl. intros Hne H.
  by rewrite list_lookup_alter_ne.
Qed.

Lemma waiting_update_same e f k s :
  (forall a, act_phase (f a) = act_phase a) ->
  waiting_on_body e k s -> waiting_on_body e k (update_activation e f s).
Proof.
  unfold waiting_on_body, update_activation. simpl. intros Hf H.
  rewrite list_lookup_alter_eq.
  destruct (activations s !! e) as [a |]; [| done]. simpl in *. by rewrite Hf.
Qed.

Lemma waiting_catchAttempt e e' k k' err s :
  e' <> e -> waiting_on_body e k s -> waiting_on_body e k (catchAttempt e' k' err s).
Proof.
  intros Hne H. unfold catchAttempt. repeat case_match; try done;
    apply waiting_update_other; try done.
Qed.

Lemma waiting_retryIteration e e' k k' err s :
  e' <> e -> waiting_on_body e k s -> waiting_on_body e k (retryIteration e' k' err s).
Proof.
  intros Hne H. unfold retryIteration. repeat case_match; try done;
    try (apply waiting_update_other; done).
  by apply waiting_catchAttempt.
Qed.

Lemma waiting_processNextTask e k now s :
  waiting_on_body e k s -> waiting_on_body e k (processNextTask now s).
Proof.
  intros H. unfold processNextTask. repeat case_match; try done.
  unfold executeTask, runTaskWithRetry.
  assert (e < length (activations s))%nat as Hlt.
  { unfold waiting_on_body in H. apply fmap_Some in H as (a & Ha & _).
    by apply lookup_lt_Some in Ha. }
  apply waiting_retryIteration; [simpl; lia |].
  unfold waiting_on_body in *. simpl. by rewrite lookup_app_l.
Qed.

Lemma step_keeps_waiting e k now ev s :
  body_settles e ev = false ->
  waiting_on_body e k s -> waiting_on_body e k (step now ev s).
Proof.
  intros Hev H. destruct ev; simpl.
  - unfold addTask. repeat case_match; simpl;
      try apply waiting_processNextTask;
      (eapply waiting_view; [| exact H]); by rewrite ?settle_signal_view.
  - unfold start. case_match; [done |]. apply waiting_processNextTask.
    eapply waiting_view; [| exact H]. done.
  - eapply waiting_view; [| exact H]. done.
  - unfold resume. apply waiting_processNextTask.
    eapply waiting_view; [| exact H]. done.
  - unfold stop. eapply waiting_view; [| exact H]. by rewrite abortAll_signal_view.
  - unfold cancelTask. repeat case_match; simpl; try done;
      (eapply waiting_view; [| exact H]);
      rewrite ?settle_signal_view; try done;
      unfold signal_view, abort; simpl; by rewrite length_insert.
  - eapply waiting_view; [| exact H]. apply clearQueue_signal_view.
  - simpl in Hev. apply bool_decide_eq_false in Hev.
    repeat case_match; try done. by apply waiting_update_other.
  - simpl in Hev. apply bool_decide_eq_false in Hev.
    repeat case_match; try done. by apply waiting_catchAttempt.
  - destruct (decide (e0 = e)) as [-> | Hne].
    + unfold waiting_on_body in H. by rewrite H.
    + repeat case_match; try done. by apply waiting_retryIteration.
  - repeat case_match; try done.
    eapply waiting_view; [apply abort_signal_view |].
    destruct (decide (e0 = e)) as [-> | Hne];
      [by apply waiting_update_same | by apply waiting_update_other].
  - destruct (decide (e0 = e)) as [-> | Hne].
    + pose proof H as H'. unfold waiting_on_body in H'.
      destruct (activations s !! e) as [a |]; [| done].
      simpl in H'. injection H' as ->. done.
    + repeat case_match; try done;
        unfold taskSucceeded, taskFailed, finallyExecuteTask;
        apply waiting_processNextTask;
        match goal with |- waiting_on_body _ _ (with_runningTasks _ (settle ?p ?v ?s0)) =>
          apply (waiting_view _ _ (settle p v s0)); [done |];
          apply (waiting_view _ _ s0); [apply settle_signal_view |] end;
        match goal with |- waiting_on_body _ _ (with_stats _ (with_completedTasks _ ?s0)) =>
          apply (waiting_view _ _ s0); [done |] end;
        by apply waiting_update_other.
Qed.

Lemma run_keeps_waiting e k h s :
  Forall (fun te => body_settles e te.2 = false) h ->
  waiting_on_body e k s -> waiting_on_body e k (run h s).
Proof.
  revert s. induction h as [| [now ev] h IH]; intros s Hh H; [done |].
  apply Forall_cons in Hh as [Hev Hh]. simpl.
  apply IH; [done |]. by apply step_keeps_waiting.
Qed.

(** C4, amended.  When the timeout timer of an activation fires while
    the activation is suspended on the task body, the signal becomes
    aborted and nothing else happens: the activation stays suspended on
    the body, and the running map, the queue, the results, the promises,
    the counters and the list of body calls are as before.  From then on
    the activation stays suspended, whatever happens, until the body
    itself settles. *)
Theorem timeout_only_aborts_signal
    (now : Z) (e : nat) (s : State) (a : Activation) (attempt ms : Z) :
  activations s !! e = Some a ->
  act_phase a = AwaitBody attempt ->
  act_timer a = Armed ms ->
  (act_signal a < length (abortControllers s))%nat ->
  let s' := step now (TimeoutElapsed e) s in
  aborted (act_signal a) s' = true
  /\ act_phase <$> activations s' !! e = Some (AwaitBody attempt)
  /\ runningTasks s' = runningTasks s
  /\ taskQueue s' = taskQueue s
  /\ completedTasks s' = completedTasks s
  /\ promises s' = promises s
  /\ stats s' = stats s
  /\ bodyCalls s' = bodyCalls s
  /\ (forall h, Forall (fun te => body_settles e te.2 = false) h ->
        waiting_on_body e attempt (run h s')).
Proof.
  intros Ha Hphase Htimer Hlt s'.
  assert (waiting_on_body e attempt s) as Hwait
    by (unfold waiting_on_body; by rewrite Ha; simpl; rewrite Hphase).
  assert (waiting_on_body e attempt s') as Hwait'
    by (by apply step_keeps_waiting).
  repeat split; try done;
    try (unfold s'; simpl; rewrite Ha, Htimer; done).
  - unfold s'. simpl. rewrite Ha, Htimer.
    unfold aborted, abort. simpl. by rewrite list_lookup_insert_eq.
  - intros h Hh. by apply run_keeps_waiting.
Qed.

Lemma timeout_only_aborts_signal_witness :
  let s := run Scenario.one_running_one_queued (Scenario.controller 1) in
  let s' := step 30002 (TimeoutElapsed 0) s in
  aborted 0 s' = true
  /\ act_phase <$> activations s' !! 0%nat = Some (AwaitBody 0)
  /\ runningTasks s' = runningTasks s
  /\ promises s' = promises s.
Proof.
  intros s s'.
  edestruct (timeout_only_aborts_signal 30002 0%nat s) as (H1 & H2 & H3 & _ & _ & H6 & _).
  - vm_compute. reflexivity.
  - reflexivity.
  - reflexivity.
  - vm_compute. lia.
  - exact (conj H1 (conj H2 (conj H3 H6))).
Defined.

(** ** A task that exhausts its retries *)

Lemma run_app h1 h2 s : run (h1 ++ h2) s = run h2 (run h1 s).
Proof. unfold run. apply foldl_app. Qed.

Lemma maxRetries_of_nat t (r : nat) :
  task_retries t = Some (Z.of_nat r) -> maxRetries_of t = Z.of_nat r.
Proof. intros H. unfold maxRetries_of, num_or. rewrite H. case_match; lia. Qed.

Lemma processNextTask_empty_queue now s :
  taskQueue s = [] -> processNextTask now s = s.
Proof. intros Hq. unfold processNextTask. rewrite Hq. by case_match. Qed.

Lemma submit_in_attempt r :
  ScenarioFailure.in_attempt r 0 (run (ScenarioFailure.submit r) (Scenario.controller 1)).
Proof.
  unfold ScenarioFailure.submit, run. cbn [foldl].
  assert (step 1 Start (Scenario.controller 1)
          = with_stats (Stats.set_startTime 1 Stats.initial)
              (with_flags true false (Scenario.controller 1))) as ->.
  { unfold step, start. simpl. by apply processNextTask_empty_queue. }
  unfold step, addTask. simpl.
  unfold processNextTask. simpl. rewrite map_size_empty. simpl.
  unfold executeTask, runTaskWithRetry, retryIteration. simpl.
  rewrite (maxRetries_of_nat _ r) by done.
  assert ((0 <=? Z.of_nat r) = true) as -> by (apply Z.leb_le; lia).
  by split.
Qed.

Lemma failed_attempt_in_attempt r k s :
  (k < r)%nat ->
  ScenarioFailure.in_attempt r k s ->
  ScenarioFailure.in_attempt r (S k) (run ScenarioFailure.failed_attempt s).
Proof.
  intros Hlt [Hcfg Hact Hsig Hpr Hq Hres Htot Hcomp Hfail Hretr Hcalls].
  unfold ScenarioFailure.failed_attempt, run. cbn [foldl].
  assert (step 3 (BodyRejected 0) s
          = update_activation 0 (set_phase (AwaitDelay (Z.of_nat k) BodyError 1000))
              (with_stats (Stats.incr_retriedTasks (stats s)) s)) as ->.
  { unfold step, resumeActivation. rewrite Hact. simpl.
    unfold catchAttempt. rewrite Hact. simpl.
    rewrite (maxRetries_of_nat _ r), Hcfg by done.
    by assert ((Z.of_nat k <? Z.of_nat r) = true) as -> by (apply Z.ltb_lt; lia). }
  unfold step, resumeActivation, update_activation. simpl. rewrite Hact. simpl.
  unfold retryIteration, update_activation, aborted. simpl.
  rewrite Hsig. simpl.
  rewrite (maxRetries_of_nat _ r) by done.
  assert ((Z.of_nat k + 1 <=? Z.of_nat r) = true) as -> by (apply Z.leb_le; lia).
  split; simpl; try done.
  - unfold ScenarioFailure.activation, set_phase. simpl.
    by replace (Z.of_nat k + 1) with (Z.of_nat (S k)) by lia.
  - lia.
  - rewrite length_app. simpl. lia.
Qed.

Lemma failed_attempts_in_attempt r n k s :
  (k + n <= r)%nat ->
  ScenarioFailure.in_attempt r k s ->
  ScenarioFailure.in_attempt r (k + n)
    (run (concat (replicate n ScenarioFailure.failed_attempt)) s).
Proof.
  revert k s. induction n as [| n IH]; intros k s Hle Hin.
  { by rewrite Nat.add_0_r. }
  change (concat (replicate (S n) ScenarioFailure.failed_attempt))
    with (ScenarioFailure.failed_attempt
            ++ concat (replicate n ScenarioFailure.failed_attempt)).
  rewrite run_app.
  replace (k + S n)%nat with (S k + n)%nat by lia.
  apply IH; [lia |]. apply failed_attempt_in_attempt; [lia | done].
Qed.

Lemma last_attempt_failed_for_good r s :
  ScenarioFailure.in_attempt r r s ->
  ScenarioFailure.failed_for_good r (run ScenarioFailure.last_attempt s).
Proof.
  intros [Hcfg Hact Hsig Hpr Hq Hres Htot Hcomp Hfail Hretr Hcalls].
  unfold ScenarioFailure.last_attempt, run. cbn [foldl].
  assert (step 5 (BodyRejected 0) s
          = update_activation 0 (set_phase (AwaitRun (Threw (Some BodyError)))) s) as ->.
  { unfold step, resumeActivation. rewrite Hact. simpl.
    unfold catchAttempt. rewrite Hact. simpl.
    by rewrite (maxRetries_of_nat _ r), Z.ltb_irrefl by done. }
  unfold step, resumeActivation, update_activation. simpl. rewrite Hact. simpl.
  unfold taskFailed, finallyExecuteTask, settle. simpl. rewrite Hpr. simpl.
  rewrite processNextTask_empty_queue by done.
  change (6 - 2) with 4. change (1 - 1) with 0.
  split; simpl; rewrite ?Hres, ?Htot, ?Hcomp, ?Hfail, ?Hretr, ?Hpr; done.
Qed.

Lemma exhausts_retries_failed_for_good r :
  ScenarioFailure.failed_for_good r
    (run (ScenarioFailure.exhausts_retries r) (Scenario.controller 1)).
Proof.
  unfold ScenarioFailure.exhausts_retries. rewrite !run_app.
  apply last_attempt_failed_for_good.
  apply (failed_attempts_in_attempt r r 0); [lia |].
  apply submit_in_attempt.
Qed.

(** Whatever the number [r] of retries, the body of a task that always
    rejects is called [r + 1] times and [r] retries are counted, and the
    result its promise rejects with carries retryCount 0. *)
Lemma exhausted_retries_calls_and_retryCount r :
  let s := run (ScenarioFailure.exhausts_retries r) (Scenario.controller 1) in
  length (bodyCalls s) = S r
  /\ Stats.retriedTasks (stats s) = Z.of_nat r
  /\ exists result, promises s = [Some (RejectedResult result)]
                    /\ res_success result = false
                    /\ res_retryCount result = 0.
Proof.
  intros s.
  destruct (exhausts_retries_failed_for_good r)
    as [Hres Hpr Htot Hcomp Hfail Hretr Hcalls].
  fold s in Hpr, Hretr, Hcalls. rewrite Hpr. eauto 10.
Qed.

(** The scheduler and the retry loop do not write to the results map. *)
Lemma retryIteration_completedTasks e k err s :
  completedTasks (retryIteration e k err s) = completedTasks s.
Proof.
  unfold retryIteration, catchAttempt. repeat case_match; done.
Qed.

Lemma processNextTask_completedTasks now s :
  completedTasks (processNextTask now s) = completedTasks s.
Proof.
  unfold processNextTask. repeat case_match; try done.
  unfold executeTask, runTaskWithRetry. by rewrite retryIteration_completedTasks.
Qed.

Lemma settle_completedTasks p v s : completedTasks (settle p v s) = completedTasks s.
Proof. unfold settle. by repeat case_match. Qed.

(** When executeTask continues after runTaskWithRetry, it stores a result
    under the task's id, a successful one if runTaskWithRetry returned
    and an unsuccessful one if it threw. *)
Lemma run_settled_records_result now e a o s :
  activations s !! e = Some a -> act_phase a = AwaitRun o ->
  exists result,
    completedTasks (step now (RunSettled e) s) !! task_id (act_task a) = Some result
    /\ res_success result = match o with Returned => true | Threw _ => false end.
Proof.
  intros Ha Hphase. simpl. rewrite Ha, Hphase.
  destruct o as [| error]; unfold taskSucceeded, taskFailed, finallyExecuteTask;
    rewrite processNextTask_completedTasks; simpl;
    rewrite settle_completedTasks; simpl;
    rewrite lookup_insert_eq; eauto.
Qed.

(** C9.  The completedTasks field of the snapshot is the size of the
    results map, in any state; that map gets an entry whenever executeTask
    finishes, with success or with failure.  So for a single task that
    fails after any number [r] of retries: the map has an entry for it,
    marked unsuccessful; the snapshot reports completedTasks = 1; the
    counter of successful completions, from which successRate is
    computed, is 0, and successRate reads '0.00%'. *)
Theorem failed_task_counts_as_completed (r : nat) (now : Z) :
  (forall s, Snapshot.completedTasks (getStats now s)
             = Z.of_nat (size (completedTasks s)))
  /\ (forall s e a o,
        activations s !! e = Some a -> act_phase a = AwaitRun o ->
        exists result,
          completedTasks (step now (RunSettled e) s) !! task_id (act_task a)
            = Some result
          /\ res_success result = match o with Returned => true | Threw _ => false end)
  /\ let s := run (ScenarioFailure.exhausts_retries r) (Scenario.controller 1) in
     let snap := getStats now s in
     res_success <$> completedTasks s !! "A"%string = Some false
     /\ Snapshot.completedTasks snap = 1
     /\ Stats.completedTasks (stats s) = 0
     /\ Snapshot.failedTasks snap = 1
     /\ Snapshot.successRate snap = "0.00%"%string.
Proof.
  split; [done |]. split; [intros s e a o; apply run_settled_records_result |].
  intros s snap.
  destruct (exhausts_retries_failed_for_good r)
    as [Hres Hpr Htot Hcomp Hfail Hretr Hcalls].
  fold s in Hres, Hpr, Htot, Hcomp, Hfail, Hretr, Hcalls.
  unfold snap, getStats. simpl.
  rewrite Hres, Htot, Hcomp, Hfail. simpl.
  rewrite lookup_singleton_eq, map_size_singleton. simpl.
  repeat split; try done.
Qed.


Lemma failed_task_counts_as_completed_witness :
  let s := run (take 7 Scenario.always_failing) (Scenario.controller 1) in
  exists result,
    completedTasks (step 8 (RunSettled 0) s) !! "A"%string = Some result
    /\ res_success result = false.
Proof.
  intros s.
  destruct (failed_task_counts_as_completed 2 8) as (_ & Hrecorded & _).
  apply (Hrecorded s 0%nat
           (set_phase (AwaitRun (Threw (Some BodyError))) (ScenarioFailure.activation 2 Finished))
           (Threw (Some BodyError))).
  - vm_compute. reflexivity.
  - reflexivity.
Defined.

(** * Further properties of the controller *)

(** ** Dispatching *)

Lemma settle_flags p v s : flags (settle p v s) = flags s.
Proof. unfold flags. frame_by settle. Qed.

Lemma catchAttempt_flags e k err s : flags (catchAttempt e k err s) = flags s.
Proof. unfold flags. frame_by catchAttempt. Qed.

Lemma retryIteration_flags e k err s : flags (retryIteration e k err s) = flags s.
Proof.
  unfold retryIteration. repeat case_match; try done. apply catchAttempt_flags.
Qed.

Lemma processNextTask_flags now s : flags (processNextTask now s) = flags s.
Proof.
  unfold processNextTask. repeat case_match; try done.
  unfold executeTask, runTaskWithRetry. by rewrite retryIteration_flags.
Qed.

Lemma abortAll_flags tasks s : flags (abortAll tasks s) = flags s.
Proof.
  revert s. induction tasks as [| t tasks IH]; intros s; [done |].
  unfold abortAll in *. simpl. rewrite IH. by destruct (task_abortController t).
Qed.

Lemma clearQueue_flags s : flags (clearQueue s) = flags s.
Proof.
  unfold clearQueue.
  assert (forall q s0, flags (foldl (fun s task =>
            settle (task_promise task) (RejectedError QueueCleared) s) s0 q)
          = flags s0) as H.
  { induction q as [| t q IH]; intros s0; [done |]. simpl. by rewrite IH, settle_flags. }
  specialize (H (taskQueue s) s). unfold flags in *. simpl. done.
Qed.

Lemma blocked_flags s s' : flags s' = flags s -> blocked s -> blocked s'.
Proof. unfold flags, blocked. by intros [= -> ->]. Qed.

(** A stopped or paused controller dispatches nothing. *)
Lemma processNextTask_blocked now s : blocked s -> processNextTask now s = s.
Proof.
  unfold blocked, processNextTask. intros [-> | ->]; [done |].
  by rewrite orb_true_r.
Qed.

Lemma catchAttempt_dispatched e k err s :
  dispatched (catchAttempt e k err s) = dispatched s.
Proof.
  unfold dispatched, catchAttempt, update_activation.
  repeat case_match; simpl; rewrite ?length_alter; done.
Qed.

Lemma retryIteration_dispatched e k err s :
  dispatched (retryIteration e k err s) = dispatched s.
Proof.
  unfold retryIteration. repeat case_match; try done;
    try apply catchAttempt_dispatched;
    unfold dispatched, update_activation; simpl; by rewrite length_alter.
Qed.

Lemma settle_dispatched p v s : dispatched (settle p v s) = dispatched s.
Proof. unfold dispatched. frame_by settle. Qed.

Lemma executeTask_dispatched now task s :
  dispatched (executeTask now task s) = S (dispatched s).
Proof.
  unfold executeTask, runTaskWithRetry. rewrite retryIteration_dispatched.
  unfold dispatched. simpl. rewrite length_app. simpl. lia.
Qed.

(** One call of the scheduler dispatches one task or none. *)
Lemma processNextTask_dispatched now s :
  dispatched (processNextTask now s) = dispatched s
  \/ dispatched (processNextTask now s) = S (dispatched s).
Proof.
  unfold processNextTask. repeat case_match; try (by left).
  right. by rewrite executeTask_dispatched.
Qed.

Lemma abortAll_dispatched tasks s : dispatched (abortAll tasks s) = dispatched s.
Proof.
  change (dispatched (abortAll tasks s))
    with (length (signal_view (abortAll tasks s)).1.2).
  by rewrite abortAll_signal_view.
Qed.

Lemma clearQueue_dispatched s : dispatched (clearQueue s) = dispatched s.
Proof.
  change (dispatched (clearQueue s))
    with (length (signal_view (clearQueue s)).1.2).
  by rewrite clearQueue_signal_view.
Qed.

Lemma step_dispatched now ev s :
  (dispatched s <= dispatched (step now ev s) <= S (dispatched s))%nat.
Proof.
  assert (forall s', (dispatched s' = dispatched s) ->
            (dispatched s <= dispatched (processNextTask now s') <= S (dispatched s))%nat)
    as Hnext.
  { intros s' Hs'. destruct (processNextTask_dispatched now s') as [-> | ->]; lia. }
  destruct ev; simpl.
  - unfold addTask. repeat case_match; simpl;
      try (apply Hnext; done);
      rewrite ?settle_dispatched; unfold dispatched; simpl; lia.
  - unfold start. case_match; [lia |]. by apply Hnext.
  - unfold dispatched. simpl. lia.
  - unfold resume. by apply Hnext.
  - unfold stop. rewrite abortAll_dispatched. unfold dispatched. simpl. lia.
  - unfold cancelTask. repeat case_match; simpl;
      rewrite ?settle_dispatched; unfold dispatched, abort; simpl; lia.
  - rewrite clearQueue_dispatched. lia.
  - repeat case_match; try lia.
    unfold dispatched, update_activation. simpl. rewrite length_alter. lia.
  - repeat case_match; rewrite ?catchAttempt_dispatched; lia.
  - repeat case_match; rewrite ?retryIteration_dispatched; lia.
  - repeat case_match; try lia.
    unfold dispatched, abort, update_activation. simpl. rewrite length_alter. lia.
  - repeat case_match; try lia;
      unfold taskSucceeded, taskFailed, finallyExecuteTask;
      apply Hnext;
      unfold dispatched; simpl;
      match goal with |- context [settle ?p ?v ?s0] =>
        pose proof (settle_dispatched p v s0) as Hs; unfold dispatched in Hs;
        rewrite Hs end;
      unfold update_activation; simpl; by rewrite length_alter.
Qed.

Lemma step_blocked now ev s :
  is_start ev = false -> is_resume ev = false ->
  blocked s -> blocked (step now ev s) /\ dispatched (step now ev s) = dispatched s.
Proof.
  intros Hstart Hresume Hb.
  assert (isRunning s && negb (isPaused s) = false) as Hoff.
  { destruct Hb as [-> | ->]; [done | by rewrite andb_false_r]. }
  destruct ev; try done; simpl.
  - unfold addTask. repeat case_match; simpl in *; try congruence.
    all: split; [eapply blocked_flags; [| exact Hb] |].
    all: by rewrite ?settle_flags, ?settle_dispatched.
  - split; [by right | done].
  - unfold stop. split; [| by rewrite abortAll_dispatched].
    eapply blocked_flags; [apply abortAll_flags | by left].
  - unfold cancelTask. repeat case_match; simpl.
    all: split; [eapply blocked_flags; [| exact Hb] |].
    all: by rewrite ?settle_flags, ?settle_dispatched.
  - split; [eapply blocked_flags; [apply clearQueue_flags | done] |].
    apply clearQueue_dispatched.
  - repeat case_match; try done. split; [done |].
    unfold dispatched, update_activation. simpl. by rewrite length_alter.
  - repeat case_match; try done.
    split; [eapply blocked_flags; [apply catchAttempt_flags | done] |].
    apply catchAttempt_dispatched.
  - repeat case_match; try done.
    split; [eapply blocked_flags; [apply retryIteration_flags | done] |].
    apply retryIteration_dispatched.
  - repeat case_match; try done. split; [done |].
    unfold dispatched, abort, update_activation. simpl. by rewrite length_alter.
  - repeat case_match; try done;
      unfold taskSucceeded, taskFailed, finallyExecuteTask;
      match goal with |- context [processNextTask ?n ?s0] =>
        assert (blocked s0) as Hb0
          by (eapply blocked_flags; [| exact Hb]; unfold flags; simpl;
              match goal with |- context [settle ?p ?v ?s1] =>
                pose proof (settle_flags p v s1) as Hf; unfold flags in Hf;
                by rewrite Hf end);
        rewrite (processNextTask_blocked n s0 Hb0)
      end;
      (split; [done |]); unfold dispatched; simpl;
      match goal with |- context [settle ?p ?v ?s1] =>
        pose proof (settle_dispatched p v s1) as Hs; unfold dispatched in Hs;
        rewrite Hs end;
      unfold update_activation; simpl; by rewrite length_alter.
Qed.

(** X1.  While the controller is stopped or paused, and until [start] or
    [resume] is called, no task is dispatched, whatever else happens:
    submissions, cancellations, completions of running tasks, timers. *)
Theorem blocked_controller_dispatches_nothing (s : State) (h : list (Z * Event)) :
  blocked s -> no_start_resume h ->
  dispatched (run h s) = dispatched s /\ blocked (run h s).
Proof.
  revert s. induction h as [| [now ev] h IH]; intros s Hb Hh; [done |].
  apply Forall_cons in Hh as [[Hstart Hresume] Hh]. simpl in *.
  destruct (step_blocked now ev s Hstart Hresume Hb) as [Hb' Hd].
  destruct (IH _ Hb' Hh) as [IHd IHb]. split; [congruence | done].
Qed.

Lemma blocked_controller_dispatches_nothing_witness :
  let s := pause (run Scenario.one_running_one_queued (Scenario.controller 1)) in
  dispatched (run [(4, BodyResolved 0%nat); (5, RunSettled 0%nat);
                   (6, AddTask (Scenario.taskConfig "C" None None))] s)
  = dispatched s.
Proof.
  intros s.
  apply (blocked_controller_dispatches_nothing s).
  - by right.
  - by repeat constructor.
Defined.

Lemma retryIteration_taskQueue e k err s :
  taskQueue (retryIteration e k err s) = taskQueue s.
Proof. unfold retryIteration, catchAttempt. repeat case_match; done. Qed.

(** X2.  [start] on a stopped controller calls the scheduler once: with a
    free slot the head of the queue is dispatched and the rest of the
    queue stays queued, however many slots are free. *)
Theorem start_dispatches_only_the_head
    (now : Z) (s : State) (task : Task) (rest : list Task) :
  isRunning s = false ->
  taskQueue s = task :: rest ->
  Z.of_nat (size (runningTasks s)) < maxConcurrency (config s) ->
  taskQueue (start now s) = rest
  /\ dispatched (start now s) = S (dispatched s)
  /\ exists task', runningTasks (start now s)
                   = <[task_id task := task']> (runningTasks s).
Proof.
  intros Hr Hq Hfree. unfold start, processNextTask. rewrite Hr. simpl.
  rewrite Hq.
  assert ((maxConcurrency (config s) <=? Z.of_nat (size (runningTasks s))) = false)
    as -> by (apply Z.leb_gt; lia).
  split; [| split].
  - unfold executeTask, runTaskWithRetry. by rewrite retryIteration_taskQueue.
  - by rewrite executeTask_dispatched.
  - match goal with |- context [executeTask ?n ?t ?s0] =>
      destruct (executeTask_runningTasks n t s0) as [task' ->] end.
    by exists task'.
Qed.

Lemma start_dispatches_only_the_head_witness :
  let s := run [(1, AddTask (Scenario.taskConfig "A" None None));
                (2, AddTask (Scenario.taskConfig "B" None None));
                (3, AddTask (Scenario.taskConfig "C" None None))]
             (Scenario.controller 5) in
  task_id <$> taskQueue (start 4 s) = ["B"; "C"]%string
  /\ dispatched (start 4 s) = 1%nat.
Proof.
  intros s.
  edestruct (start_dispatches_only_the_head 4 s) as (Hq & Hd & _).
  - reflexivity.
  - vm_compute. reflexivity.
  - vm_compute. reflexivity.
  - split; [by rewrite Hq | exact Hd].
Defined.

(** X3.  Whatever the step, at most one queued task is dispatched by it. *)
Theorem at_most_one_dispatch_per_step (o : ControllerOptions)
    (h : list (Z * Event)) (now : Z) (ev : Event) :
  let s := run h (constructor o) in
  (dispatched s <= dispatched (step now ev s) <= S (dispatched s))%nat.
Proof. apply step_dispatched. Qed.

(** A fresh AbortController is not aborted. *)
Lemma aborted_fresh s s' :
  abortControllers s' = abortControllers s ++ [false] ->
  aborted (length (abortControllers s)) s' = false.
Proof.
  intros H. unfold aborted. rewrite H.
  by rewrite lookup_app_r, Nat.sub_diag by lia.
Qed.

(** What executeTask does when the retry budget is not negative: the
    body is called at once, for attempt 0, with the new signal. *)
Lemma executeTask_calls_body now task s :
  0 <= maxRetries_of task ->
  let s' := executeTask now task s in
  bodyCalls s' = bodyCalls s ++
    [{| call_activation := length (activations s); call_task := task_id task;
        call_signal := length (abortControllers s); call_attempt := 0 |}]
  /\ act_phase <$> activations s' !! length (activations s) = Some (AwaitBody 0)
  /\ taskQueue s' = taskQueue s
  /\ promises s' = promises s.
Proof.
  intros Hr. unfold executeTask, runTaskWithRetry, retryIteration. simpl.
  rewrite lookup_app_r, Nat.sub_diag by lia. simpl.
  change (maxRetries_of _) with (maxRetries_of task).
  assert ((0 <=? maxRetries_of task) = true) as -> by (apply Z.leb_le; lia).
  unfold aborted. simpl.
  rewrite lookup_app_r, Nat.sub_diag by lia. simpl.
  unfold update_activation. simpl.
  rewrite list_lookup_alter_eq, lookup_app_r, Nat.sub_diag by lia. done.
Qed.

(** X4.  On a running controller with an empty queue and a free slot, addTask
    dispatches the task before it returns: the task is in runningTasks,
    its body has been called once, and its promise is pending. *)
Theorem addTask_dispatches_at_once
    (now : Z) (c : TaskConfig) (s : State) (i : string) (b : Body) :
  validTaskConfig c = Some (i, b) ->
  isRunning s = true -> isPaused s = false ->
  taskQueue s = [] ->
  0 < maxQueueSize (config s) ->
  Z.of_nat (size (runningTasks s)) < maxConcurrency (config s) ->
  0 <= num_or (cfg_retries c) 0 ->
  let r := addTask now c s in
  taskQueue r.2 = []
  /\ (exists task, runningTasks r.2 !! i = Some task /\ task_promise task = r.1)
  /\ bodyCalls r.2 = bodyCalls s ++
       [{| call_activation := length (activations s); call_task := i;
           call_signal := length (abortControllers s); call_attempt := 0 |}]
  /\ promises r.2 !! r.1 = Some None.
Proof.
  intros Hvalid Hrun Hpause Hq Hcap Hfree Hretries.
  unfold addTask. rewrite Hvalid. simpl. rewrite Hq. simpl.
  assert ((maxQueueSize (config s) <=? Z.of_nat 0) = false) as ->
    by (apply Z.leb_gt; lia).
  rewrite Hrun, Hpause. simpl.
  unfold insertTaskByPriority, splice_insert. simpl. rewrite Hq. simpl.
  unfold processNextTask. simpl. rewrite Hrun, Hpause. simpl.
  assert ((maxConcurrency (config s) <=? Z.of_nat (size (runningTasks s))) = false)
    as -> by (apply Z.leb_gt; lia).
  match goal with |- context [executeTask ?n ?t ?s0] =>
    destruct (executeTask_calls_body n t s0 Hretries) as (Hcalls & _ & Hq' & Hp);
    pose proof (executeTask_runningTasks n t s0) as [task' Hrunning];
    set (s1 := executeTask n t s0) in *
  end.
  simpl in *. rewrite Hq', Hp, Hcalls. repeat split; try done.
  - unfold s1, executeTask, runTaskWithRetry.
    match goal with |- context [retryIteration ?e ?k ?l ?s0] =>
      destruct (slots_inv s0 _ (retryIteration_slots e k l s0)) as [_ ->] end.
    simpl. rewrite lookup_insert_eq. eauto.
  - by rewrite lookup_app_r, Nat.sub_diag by lia.
Qed.

Lemma addTask_dispatches_at_once_witness :
  let s := run [(1, Start)] (Scenario.controller 2) in
  let r := addTask 2 (Scenario.taskConfig "A" None (Some 3)) s in
  call_task <$> bodyCalls r.2 = ["A"%string] /\ promises r.2 !! r.1 = Some None.
Proof.
  intros s r.
  edestruct (addTask_dispatches_at_once 2 (Scenario.taskConfig "A" None (Some 3)) s)
    as (_ & _ & Hcalls & Hp).
  - reflexivity.
  - reflexivity.
  - reflexivity.
  - reflexivity.
  - vm_compute. reflexivity.
  - vm_compute. reflexivity.
  - vm_compute. discriminate.
  - split; [| exact Hp]. fold r in Hcalls. by rewrite Hcalls.
Defined.

(** X5.  A task submitted with a negative [retries] is dispatched like any
    other, but the loop of runTaskWithRetry is not entered: the body is
    never called, and the task fails with an undefined error. *)
Theorem negative_retries_fail_without_a_call
    (now now' : Z) (task : Task) (s : State) :
  maxRetries_of task < 0 ->
  let e := length (activations s) in
  let s1 := executeTask now task s in
  let s2 := step now' (RunSettled e) s1 in
  bodyCalls s1 = bodyCalls s
  /\ act_phase <$> activations s1 !! e = Some (AwaitRun (Threw None))
  /\ exists result,
       completedTasks s2 !! task_id task = Some result
       /\ res_success result = false /\ res_error result = None.
Proof.
  intros Hneg e s1 s2.
  assert (exists a, activations s1 !! e = Some a
                    /\ act_phase a = AwaitRun (Threw None)
                    /\ task_id (act_task a) = task_id task
                    /\ bodyCalls s1 = bodyCalls s) as (a & Ha & Hphase & Hid & Hcalls).
  { unfold s1, e, executeTask, runTaskWithRetry, retryIteration. simpl.
    rewrite lookup_app_r, Nat.sub_diag by lia. simpl.
    change (maxRetries_of _) with (maxRetries_of task).
    assert ((0 <=? maxRetries_of task) = false) as -> by (apply Z.leb_gt; lia).
    unfold update_activation. simpl.
    rewrite list_lookup_alter_eq, lookup_app_r, Nat.sub_diag by lia.
    simpl. eauto 10. }
  split; [done |]. split; [by rewrite Ha; simpl; rewrite Hphase |].
  unfold s2. simpl. rewrite Ha, Hphase.
  unfold taskFailed, finallyExecuteTask.
  rewrite processNextTask_completedTasks. simpl.
  rewrite settle_completedTasks. simpl.
  rewrite Hid, lookup_insert_eq. eauto.
Qed.

Lemma negative_retries_fail_without_a_call_witness :
  let task := {| task_id := "A"; task_body := AsyncFunction 0; task_priority := None;
                 task_retries := Some (-1); task_retryDelay := None;
                 task_timeout := None; task_promise := 0; task_createdAt := 2;
                 task_attempts := 0; task_abortController := None |} in
  let s := run [(1, Start)] (Scenario.controller 1) in
  let s1 := executeTask 2 task s in
  bodyCalls s1 = bodyCalls s
  /\ exists result,
       completedTasks (step 3 (RunSettled 0) s1) !! "A"%string = Some result
       /\ res_success result = false /\ res_error result = None.
Proof.
  intros task s s1.
  destruct (negative_retries_fail_without_a_call 2 3 task s) as (Hcalls & _ & Hres).
  - vm_compute. reflexivity.
  - exact (conj Hcalls Hres).
Defined.

(** ** Tasks and their promises *)

Lemma promises_wf_view s s' :
  own_view s' = own_view s -> promises_wf s -> promises_wf s'.
Proof.
  unfold own_view. intros [= Hq Hp Ha] [H1 H2 H3].
  split; unfold owned_promises, queued_promises, dispatched_promises in *;
    rewrite ?Hq, ?Hp, ?Ha; done.
Qed.

Lemma update_activation_own_view e f s :
  (forall a, act_task (f a) = act_task a) ->
  own_view (update_activation e f s) = own_view s.
Proof.
  intros Hf. unfold own_view, update_activation. simpl.
  rewrite (list_fmap_alter act_task f id) by (by apply Forall_forall).
  by rewrite list_alter_id.
Qed.

Lemma catchAttempt_own_view e k err s : own_view (catchAttempt e k err s) = own_view s.
Proof.
  unfold catchAttempt. repeat case_match; try done;
    by rewrite update_activation_own_view.
Qed.

Lemma retryIteration_own_view e k err s :
  own_view (retryIteration e k err s) = own_view s.
Proof.
  unfold retryIteration. repeat case_match; try done;
    try (by rewrite update_activation_own_view).
  apply catchAttempt_own_view.
Qed.

Lemma abortAll_own_view tasks s : own_view (abortAll tasks s) = own_view s.
Proof.
  revert s. induction tasks as [| t tasks IH]; intros s; [done |].
  unfold abortAll in *. simpl. rewrite IH. by destruct (task_abortController t).
Qed.

(** Settling the promise of a task that is not queued. *)
Lemma settle_promises_wf p v s :
  p ∉ queued_promises s -> promises_wf s -> promises_wf (settle p v s).
Proof.
  intros Hp [H1 H2 H3]. unfold settle. repeat case_match; try done.
  split; unfold owned_promises, queued_promises, dispatched_promises in *; simpl.
  - done.
  - by rewrite length_insert.
  - apply Forall_forall. intros q Hq.
    rewrite list_lookup_insert_ne by (intros ->; done).
    by apply (proj1 (Forall_forall _ _) H3).
Qed.

(** executeTask appends the task, with its promise, to the activations. *)
Lemma executeTask_own_view now task s :
  exists task', task_promise task' = task_promise task
    /\ own_view (executeTask now task s)
       = (taskQueue s, promises s, (act_task <$> activations s) ++ [task']).
Proof.
  unfold executeTask, runTaskWithRetry. eexists. split; [| rewrite retryIteration_own_view].
  2: { unfold own_view. simpl. by rewrite fmap_app. }
  done.
Qed.

Lemma processNextTask_promises_wf now s :
  promises_wf s -> promises_wf (processNextTask now s).
Proof.
  intros [H1 H2 H3]. unfold processNextTask. repeat case_match; try done.
  match goal with |- context [executeTask ?n ?t ?s0] =>
    destruct (executeTask_own_view n t s0) as (task' & Hp & Hview) end.
  unfold own_view in Hview. injection Hview as Hq Hpr Ha.
  unfold owned_promises, queued_promises, dispatched_promises in *.
  match goal with H : taskQueue s = _ |- _ => rewrite H in H1, H2, H3 end.
  rewrite fmap_cons, <- app_comm_cons in H1, H2. rewrite fmap_cons in H3.
  assert (forall (ds : list nat) (qs : list nat) p,
            qs ++ (ds ++ [p]) ≡ₚ p :: qs ++ ds) as Hperm.
  { intros ds qs p. rewrite app_assoc. by rewrite <- Permutation_cons_append. }
  split; unfold owned_promises, queued_promises, dispatched_promises;
    rewrite ?Hq, ?Hpr, ?Ha, ?fmap_app;
    change (task_promise <$> [task']) with [task_promise task'];
    rewrite ?Hp, ?Hperm; try done.
  by apply Forall_cons in H3 as [_ H3].
Qed.

Lemma splice_insert_perm {A} i (x : A) l : splice_insert i x l ≡ₚ x :: l.
Proof.
  unfold splice_insert. rewrite <- Permutation_middle.
  by rewrite take_drop.
Qed.

Lemma extend_promises_wf s :
  promises_wf s -> promises_wf (with_promises (promises s ++ [None]) s).
Proof.
  intros [H1 H2 H3].
  split; unfold owned_promises, queued_promises, dispatched_promises in *; simpl.
  - done.
  - rewrite length_app. simpl. eapply Forall_impl; [exact H2 |]. simpl. lia.
  - apply Forall_forall. intros q Hq.
    rewrite lookup_app_l.
    + by apply (proj1 (Forall_forall _ _) H3).
    + apply (proj1 (Forall_forall _ _) H2). apply elem_of_app. by left.
Qed.

(** A new task enters the queue with a promise of its own. *)
Lemma insertTask_promises_wf task s :
  task_promise task = length (promises s) ->
  promises_wf s ->
  promises_wf (insertTaskByPriority task (with_promises (promises s ++ [None]) s)).
Proof.
  intros Hp Hwf. pose proof (extend_promises_wf s Hwf) as Hext.
  destruct Hwf as [H1 H2 H3].
  assert (length (promises s) ∉ owned_promises s) as Hfresh.
  { intros Hin. apply (proj1 (Forall_forall _ _) H2) in Hin. lia. }
  split; unfold owned_promises, queued_promises, dispatched_promises in *;
    simpl; rewrite splice_insert_perm; simpl; rewrite Hp.
  - apply NoDup_cons. split; [exact Hfresh | done].
  - apply Forall_cons. split; [rewrite length_app; simpl; lia |].
    rewrite length_app. simpl. eapply Forall_impl; [exact H2 |]. simpl. lia.
  - apply Forall_cons. split.
    + by rewrite lookup_app_r, Nat.sub_diag by lia.
    + by destruct Hext.
Qed.

Lemma addTask_promises_wf now c s :
  promises_wf s -> promises_wf (addTask now c s).2.
Proof.
  intros Hwf. pose proof (extend_promises_wf s Hwf) as Hext.
  assert (forall v, promises_wf
            (settle (length (promises s)) v (with_promises (promises s ++ [None]) s)))
    as Hreject.
  { intros v. apply settle_promises_wf; [| done].
    destruct Hwf as [_ H2 _]. intros Hin.
    assert (length (promises s) ∈ owned_promises s) as Hown
      by (apply elem_of_app; by left).
    apply (proj1 (Forall_forall _ _) H2) in Hown. lia. }
  unfold addTask.
  destruct (validTaskConfig c) as [[i b] |]; [| apply Hreject]. simpl.
  destruct (maxQueueSize (config s) <=? Z.of_nat (length (taskQueue s)));
    [apply Hreject |]. simpl.
  match goal with |- context [with_stats ?st (insertTaskByPriority ?t ?s0)] =>
    assert (promises_wf (with_stats st (insertTaskByPriority t s0))) as Hins
      by (apply (promises_wf_view (insertTaskByPriority t s0)); [done |];
          by apply insertTask_promises_wf) end.
  case_match; [by apply processNextTask_promises_wf | done].
Qed.

(** Taking a task out of the queue: the other queued tasks have other
    promises. *)
Lemma queued_promise_unique s i task :
  NoDup (queued_promises s) -> taskQueue s !! i = Some task ->
  task_promise task ∉ task_promise <$> delete i (taskQueue s).
Proof.
  unfold queued_promises. intros Hnd Hi.
  rewrite <- (take_drop_middle _ _ _ Hi) in Hnd.
  rewrite delete_take_drop. rewrite fmap_app in *. rewrite fmap_cons in Hnd.
  apply NoDup_app in Hnd as (_ & Hdisj & Hnd2).
  apply NoDup_cons in Hnd2 as [Hnotin _].
  intros [Hin | Hin]%elem_of_app; [| done].
  apply (Hdisj _ Hin). by left.
Qed.

Lemma delete_queue_promises_wf s i :
  promises_wf s -> promises_wf (with_taskQueue (delete i (taskQueue s)) s).
Proof.
  intros [H1 H2 H3].
  assert (queued_promises (with_taskQueue (delete i (taskQueue s)) s)
            `sublist_of` queued_promises s) as Hsub.
  { unfold queued_promises. simpl. rewrite list_fmap_delete. apply sublist_delete. }
  assert (owned_promises (with_taskQueue (delete i (taskQueue s)) s)
            `sublist_of` owned_promises s) as Hsub'.
  { unfold owned_promises. by apply sublist_app. }
  split.
  - by eapply sublist_NoDup.
  - apply Forall_forall. intros p Hp.
    apply (proj1 (Forall_forall _ _) H2). by eapply elem_of_sublist.
  - apply Forall_forall. intros p Hp.
    apply (proj1 (Forall_forall _ _) H3). by eapply elem_of_sublist.
Qed.

Lemma cancelTask_promises_wf taskId s :
  promises_wf s -> promises_wf (cancelTask taskId s).2.
Proof.
  intros H. unfold cancelTask.
  destruct (runningTasks s !! taskId) as [task |]; simpl.
  - eapply promises_wf_view; [| exact H]. by destruct (task_abortController task).
  - destruct (findIndex taskId (taskQueue s)) as [i |]; [| done].
    destruct (taskQueue s !! i) as [task |] eqn:Hi; [| done]. simpl.
    apply settle_promises_wf; [| by apply delete_queue_promises_wf].
    apply queued_promise_unique; [| done].
    destruct H as [Hnd _ _]. unfold owned_promises in Hnd.
    by apply NoDup_app in Hnd as (Hnd & _ & _).
Qed.

(** The loop of clearQueue only writes to the promises. *)
Lemma settle_each_view v q s :
  let s' := foldl (fun s task => settle (task_promise task) v s) s q in
  taskQueue s' = taskQueue s
  /\ activations s' = activations s
  /\ length (promises s') = length (promises s).
Proof.
  revert s. induction q as [| t q IH]; intros s; [done |]. simpl.
  destruct (IH (settle (task_promise t) v s)) as (-> & -> & ->).
  unfold settle. repeat case_match; simpl; rewrite ?length_insert; done.
Qed.

Lemma clearQueue_promises_wf s : promises_wf s -> promises_wf (clearQueue s).
Proof.
  intros [H1 H2 H3]. unfold clearQueue.
  destruct (settle_each_view (RejectedError QueueCleared) (taskQueue s) s)
    as (Hq & Ha & Hlen).
  unfold owned_promises, queued_promises, dispatched_promises in *.
  split; unfold owned_promises, queued_promises, dispatched_promises; simpl;
    rewrite ?Ha, ?Hlen.
  - by apply NoDup_app in H1 as (_ & _ & H1).
  - by apply Forall_app in H2 as [_ H2].
  - done.
Qed.

(** When executeTask finishes it settles the promise of a dispatched
    task, which is not queued. *)
Lemma dispatched_not_queued s e a :
  promises_wf s -> activations s !! e = Some a ->
  task_promise (act_task a) ∉ queued_promises s.
Proof.
  intros [Hnd _ _] Ha Hin. unfold owned_promises in Hnd.
  apply NoDup_app in Hnd as (_ & Hdisj & _).
  apply (Hdisj _ Hin). unfold dispatched_promises.
  rewrite <- list_fmap_compose. apply list_elem_of_fmap.
  exists a. split; [done |]. by eapply list_elem_of_lookup_2.
Qed.

Lemma step_promises_wf now ev s : promises_wf s -> promises_wf (step now ev s).
Proof.
  intros H. destruct ev; simpl.
  - by apply addTask_promises_wf.
  - unfold start. case_match; [done |]. apply processNextTask_promises_wf.
    eapply promises_wf_view; [| exact H]. done.
  - eapply promises_wf_view; [| exact H]. done.
  - unfold resume. apply processNextTask_promises_wf.
    eapply promises_wf_view; [| exact H]. done.
  - unfold stop. eapply promises_wf_view; [| exact H]. by rewrite abortAll_own_view.
  - by apply cancelTask_promises_wf.
  - by apply clearQueue_promises_wf.
  - repeat case_match; try done.
    eapply promises_wf_view; [| exact H]. by apply update_activation_own_view.
  - repeat case_match; try done.
    eapply promises_wf_view; [| exact H]. apply catchAttempt_own_view.
  - repeat case_match; try done.
    eapply promises_wf_view; [| exact H]. apply retryIteration_own_view.
  - repeat case_match; try done.
    eapply promises_wf_view; [| exact H].
    unfold abort. by rewrite <- (update_activation_own_view e (set_timer Fired) s).
  - destruct (activations s !! e) as [a |] eqn:Ha; [| done].
    pose proof (dispatched_not_queued s e a H Ha) as Hnq.
    destruct (act_phase a) as [| | [| error] |]; try done;
      unfold taskSucceeded, taskFailed, finallyExecuteTask;
      apply processNextTask_promises_wf;
      match goal with |- promises_wf (with_runningTasks _ (settle ?p ?v ?s0)) =>
        apply (promises_wf_view (settle p v s0)); [done |];
        apply settle_promises_wf end;
      try (eapply promises_wf_view; [| exact H]);
      try (unfold queued_promises in *; simpl; done).
    + by rewrite <- (update_activation_own_view e
                      (fun a0 => set_phase Finished
                         (set_timer match act_timer a with
                                    | Armed _ => Cleared
                                    | t => t
                                    end a0)) s).
    + by rewrite <- (update_activation_own_view e (set_phase Finished) s).
Qed.

Lemma run_promises_wf h s : promises_wf s -> promises_wf (run h s).
Proof.
  revert s. induction h as [| [now ev] h IH]; intros s H; [done |].
  simpl. by apply IH, step_promises_wf.
Qed.

Lemma constructor_promises_wf o : promises_wf (constructor o).
Proof. split; unfold owned_promises, queued_promises; simpl; constructor. Qed.

(** ** Settled promises stay settled *)

Lemma evolves_refl s : evolves s s.
Proof. split; auto. Qed.

Lemma evolves_trans s1 s2 s3 : evolves s1 s2 -> evolves s2 s3 -> evolves s1 s3.
Proof.
  intros [A1 A2 A3] [B1 B2 B3]. split.
  - auto.
  - lia.
  - intros p Hp. destruct (B3 p Hp) as [H | H]; [auto | right; lia].
Qed.

Lemma evolves_view s s' : own_view s' = own_view s -> evolves s s'.
Proof.
  unfold own_view. intros [= Hq Hp Ha].
  split; unfold owned_promises, queued_promises, dispatched_promises;
    rewrite ?Hq, ?Hp, ?Ha; auto.
Qed.

Lemma settle_evolves p v s : evolves s (settle p v s).
Proof.
  unfold settle. destruct (promises s !! p) as [[w |] |] eqn:Hp;
    try apply evolves_refl.
  split; unfold owned_promises, queued_promises, dispatched_promises; simpl.
  - intros p0 v0 H0. destruct (decide (p0 = p)) as [-> | Hne]; [congruence |].
    by rewrite list_lookup_insert_ne.
  - by rewrite length_insert.
  - auto.
Qed.

Lemma processNextTask_owned now s :
  owned_promises (processNextTask now s) ≡ₚ owned_promises s
  /\ promises (processNextTask now s) = promises s.
Proof.
  unfold processNextTask. repeat case_match; try done.
  match goal with |- context [executeTask ?n ?t ?s0] =>
    destruct (executeTask_own_view n t s0) as (task' & Hp & Hview) end.
  unfold own_view in Hview. injection Hview as Hq Hpr Ha.
  unfold owned_promises, queued_promises, dispatched_promises.
  rewrite Hq, Hpr, Ha. simpl. split; [| done].
  match goal with H : taskQueue s = _ |- _ => rewrite H end.
  rewrite fmap_cons, fmap_app.
  change (task_promise <$> [task']) with [task_promise task']. rewrite Hp.
  rewrite app_assoc, <- Permutation_cons_append. done.
Qed.

Lemma processNextTask_evolves now s : evolves s (processNextTask now s).
Proof.
  destruct (processNextTask_owned now s) as [Hperm Hpr]. split.
  - by rewrite Hpr.
  - by rewrite Hpr.
  - intros p Hp. left. by rewrite <- Hperm.
Qed.

Lemma extend_evolves s : evolves s (with_promises (promises s ++ [None]) s).
Proof.
  split; unfold owned_promises, queued_promises, dispatched_promises; simpl.
  - intros p v H. rewrite lookup_app_l; [done |]. by eapply lookup_lt_Some.
  - rewrite length_app. lia.
  - auto.
Qed.

Lemma addTask_evolves now c s : evolves s (addTask now c s).2.
Proof.
  pose proof (extend_evolves s) as Hext.
  assert (forall v, evolves s
            (settle (length (promises s)) v (with_promises (promises s ++ [None]) s)))
    as Hreject.
  { intros v. eapply evolves_trans; [exact Hext | apply settle_evolves]. }
  unfold addTask.
  destruct (validTaskConfig c) as [[i b] |]; [| apply Hreject]. simpl.
  destruct (maxQueueSize (config s) <=? Z.of_nat (length (taskQueue s)));
    [apply Hreject |]. simpl.
  match goal with |- context [with_stats ?st (insertTaskByPriority ?t ?s0)] =>
    assert (evolves s (with_stats st (insertTaskByPriority t s0))) as Hins end.
  { destruct Hext as [E1 E2 E3].
    split; unfold owned_promises, queued_promises, dispatched_promises in *; simpl.
    - exact E1.
    - exact E2.
    - intros p. rewrite splice_insert_perm. simpl.
      intros [-> | Hp]%elem_of_cons; [right; lia | by left]. }
  case_match; [| done].
  eapply evolves_trans; [exact Hins | apply processNextTask_evolves].
Qed.

Lemma settle_each_evolves v q s :
  evolves s (foldl (fun s task => settle (task_promise task) v s) s q).
Proof.
  revert s. induction q as [| t q IH]; intros s; [apply evolves_refl |].
  simpl. eapply evolves_trans; [apply settle_evolves | apply IH].
Qed.

Lemma drop_queue_evolves q s :
  q `sublist_of` taskQueue s -> evolves s (with_taskQueue q s).
Proof.
  intros Hsub.
  split; unfold owned_promises, queued_promises, dispatched_promises; simpl; auto.
  intros p [Hp | Hp]%elem_of_app; left; apply elem_of_app; [left | by right].
  eapply elem_of_sublist; [exact Hp |]. by apply fmap_sublist.
Qed.

Lemma cancelTask_evolves taskId s : evolves s (cancelTask taskId s).2.
Proof.
  unfold cancelTask.
  destruct (runningTasks s !! taskId) as [task |]; simpl.
  - apply evolves_view. by destruct (task_abortController task).
  - destruct (findIndex taskId (taskQueue s)) as [i |]; [| apply evolves_refl].
    destruct (taskQueue s !! i) as [task |] eqn:Hi; [| apply evolves_refl]. simpl.
    eapply evolves_trans; [| apply settle_evolves].
    apply drop_queue_evolves, sublist_delete.
Qed.

Lemma clearQueue_evolves s : evolves s (clearQueue s).
Proof.
  unfold clearQueue.
  eapply evolves_trans; [apply settle_each_evolves |].
  apply drop_queue_evolves, sublist_nil_l.
Qed.

Lemma step_evolves now ev s : evolves s (step now ev s).
Proof.
  destruct ev; simpl.
  - apply addTask_evolves.
  - unfold start. case_match; [apply evolves_refl |].
    eapply evolves_trans; [| apply processNextTask_evolves]. by apply evolves_view.
  - by apply evolves_view.
  - unfold resume.
    eapply evolves_trans; [| apply processNextTask_evolves]. by apply evolves_view.
  - unfold stop. apply evolves_view. by rewrite abortAll_own_view.
  - apply cancelTask_evolves.
  - apply clearQueue_evolves.
  - repeat case_match; try apply evolves_refl.
    apply evolves_view. by apply update_activation_own_view.
  - repeat case_match; try apply evolves_refl.
    apply evolves_view. apply catchAttempt_own_view.
  - repeat case_match; try apply evolves_refl.
    apply evolves_view. apply retryIteration_own_view.
  - repeat case_match; try apply evolves_refl.
    apply evolves_view.
    unfold abort. by rewrite <- (update_activation_own_view e (set_timer Fired) s).
  - destruct (activations s !! e) as [a |] eqn:Ha; [| apply evolves_refl].
    destruct (act_phase a) as [| | [| error] |]; try apply evolves_refl;
      unfold taskSucceeded, taskFailed, finallyExecuteTask.
    + eapply evolves_trans; [| apply processNextTask_evolves].
      match goal with |- evolves s (with_runningTasks _ ?s0) =>
        apply (evolves_trans s s0); [| by apply evolves_view] end.
      eapply evolves_trans; [| apply settle_evolves].
      apply evolves_view.
      by rewrite <- (update_activation_own_view e
                      (fun a0 => set_phase Finished
                         (set_timer match act_timer a with
                                    | Armed _ => Cleared
                                    | t => t
                                    end a0)) s).
    + eapply evolves_trans; [| apply processNextTask_evolves].
      match goal with |- evolves s (with_runningTasks _ ?s0) =>
        apply (evolves_trans s s0); [| by apply evolves_view] end.
      eapply evolves_trans; [| apply settle_evolves].
      apply evolves_view.
      by rewrite <- (update_activation_own_view e (set_phase Finished) s).
Qed.

Lemma run_evolves h s : evolves s (run h s).
Proof.
  revert s. induction h as [| [now ev] h IH]; intros s; [apply evolves_refl |].
  simpl. eapply evolves_trans; [apply step_evolves | apply IH].
Qed.

Lemma retired_evolves p v s s' : retired p v s -> evolves s s' -> retired p v s'.
Proof.
  intros [Hp Hno] [E1 E2 E3]. split; [auto |].
  intros Hin. destruct (E3 p Hin) as [H | H]; [done |].
  apply lookup_lt_Some in Hp. lia.
Qed.

(** X6.  In every state the controller reaches, the promise of a queued task
    is still pending, and no two tasks that are queued or were dispatched
    share a promise. *)
Theorem queued_promises_are_pending_and_distinct (o : ControllerOptions)
    (h : list (Z * Event)) :
  let s := run h (constructor o) in
  NoDup (owned_promises s)
  /\ forall task, task ∈ taskQueue s -> promises s !! task_promise task = Some None.
Proof.
  intros s.
  destruct (run_promises_wf h _ (constructor_promises_wf o)) as [H1 _ H3].
  split; [exact H1 |]. intros task Hin.
  apply (proj1 (Forall_forall _ _) H3). unfold queued_promises.
  apply list_elem_of_fmap. by exists task.
Qed.

(** ** clearQueue *)

Lemma settle_each_other v q s p :
  p ∉ task_promise <$> q ->
  promises (foldl (fun s task => settle (task_promise task) v s) s q) !! p
  = promises s !! p.
Proof.
  revert s. induction q as [| t q IH]; intros s Hp; [done |].
  rewrite fmap_cons in Hp. apply not_elem_of_cons in Hp as [Hne Hp].
  simpl. rewrite IH by done.
  unfold settle. repeat case_match; try done. simpl.
  by rewrite list_lookup_insert_ne.
Qed.

Lemma settle_each_pending v q s p :
  p ∈ task_promise <$> q -> promises s !! p = Some None ->
  promises (foldl (fun s task => settle (task_promise task) v s) s q) !! p
  = Some (Some v).
Proof.
  revert s. induction q as [| t q IH]; intros s Hp Hpend.
  - by apply elem_of_nil in Hp.
  - rewrite fmap_cons in Hp. simpl.
    destruct (decide (p = task_promise t)) as [-> | Hne].
    + apply (ev_settled _ _ (settle_each_evolves v q _)).
      unfold settle. rewrite Hpend. simpl.
      apply list_lookup_insert_eq. by eapply lookup_lt_Some.
    + apply elem_of_cons in Hp as [Hp | Hp]; [done |].
      apply IH; [done |].
      unfold settle. repeat case_match; try done. simpl.
      by rewrite list_lookup_insert_ne.
Qed.

Lemma settle_each_rest v q s :
  let s' := foldl (fun s task => settle (task_promise task) v s) s q in
  runningTasks s' = runningTasks s /\ completedTasks s' = completedTasks s
  /\ stats s' = stats s /\ abortControllers s' = abortControllers s.
Proof.
  revert s. induction q as [| t q IH]; intros s; [done |]. simpl.
  destruct (IH (settle (task_promise t) v s)) as (-> & -> & -> & ->).
  unfold settle. repeat case_match; done.
Qed.

(** X7.  clearQueue empties the queue and rejects the promise of every task
    that was waiting in it with "Queue cleared"; every other promise, the
    running tasks, their signals and the counters are left as they
    were, so the cleared tasks stay counted in totalTasks. *)
Theorem clearQueue_rejects_every_queued_task (o : ControllerOptions)
    (h : list (Z * Event)) :
  let s := run h (constructor o) in
  taskQueue (clearQueue s) = []
  /\ (forall task, task ∈ taskQueue s ->
        promises (clearQueue s) !! task_promise task
        = Some (Some (RejectedError QueueCleared)))
  /\ (forall p, p ∉ queued_promises s ->
        promises (clearQueue s) !! p = promises s !! p)
  /\ runningTasks (clearQueue s) = runningTasks s
  /\ abortControllers (clearQueue s) = abortControllers s
  /\ stats (clearQueue s) = stats s.
Proof.
  intros s.
  destruct (run_promises_wf h _ (constructor_promises_wf o)) as [_ _ H3].
  fold s in H3.
  destruct (settle_each_rest (RejectedError QueueCleared) (taskQueue s) s)
    as (Hr & _ & Hst & Hac).
  unfold clearQueue. simpl. repeat split; try done.
  - intros task Hin.
    assert (task_promise task ∈ queued_promises s) as Hq.
    { unfold queued_promises. apply list_elem_of_fmap. by exists task. }
    apply settle_each_pending; [exact Hq |].
    by apply (proj1 (Forall_forall _ _) H3).
  - intros p Hp. by apply settle_each_other.
Qed.

(** ** cancelTask on a queued task *)

(** X8.  Cancelling a task that waits in the queue returns true and rejects
    its promise with "Task cancelled"; whatever happens afterwards, the
    promise keeps that outcome and the task is neither queued again nor
    dispatched. *)
Theorem cancelled_queued_task_is_never_dispatched (o : ControllerOptions)
    (h h' : list (Z * Event)) (taskId : string) (i : nat) :
  let s := run h (constructor o) in
  runningTasks s !! taskId = None ->
  findIndex taskId (taskQueue s) = Some i ->
  exists task,
    taskQueue s !! i = Some task /\ task_id task = taskId
    /\ (cancelTask taskId s).1 = true
    /\ let s' := run h' (cancelTask taskId s).2 in
       promises s' !! task_promise task = Some (Some (RejectedError TaskCancelled))
       /\ (task_promise task ∉ queued_promises s')
       /\ (task_promise task ∉ dispatched_promises s').
Proof.
  intros s Hrun Hidx.
  destruct (cancelTask_queued taskId s i Hrun Hidx) as (task & Hi & Hid & Hcancel).
  exists task. rewrite Hcancel. simpl.
  destruct (run_promises_wf h _ (constructor_promises_wf o)) as [Hnd _ Hpend].
  fold s in Hnd, Hpend.
  assert (task_promise task ∈ queued_promises s) as Hq.
  { unfold queued_promises. apply list_elem_of_fmap. exists task.
    split; [done |]. by eapply list_elem_of_lookup_2. }
  apply (proj1 (Forall_forall _ _) Hpend) in Hq as Hp.
  unfold owned_promises in Hnd. apply NoDup_app in Hnd as (Hndq & Hdisj & _).
  assert (retired (task_promise task) (RejectedError TaskCancelled)
            (settle (task_promise task) (RejectedError TaskCancelled)
               (with_taskQueue (delete i (taskQueue s)) s))) as Hret.
  { unfold retired, settle. simpl. rewrite Hp. simpl. split.
    - apply list_lookup_insert_eq. by eapply lookup_lt_Some.
    - unfold owned_promises, queued_promises, dispatched_promises. simpl.
      intros [Hin | Hin]%elem_of_app.
      + by apply (queued_promise_unique s i task).
      + by apply (Hdisj (task_promise task)). }
  destruct (retired_evolves _ _ _ _ Hret (run_evolves h' _)) as [Hp' Hno].
  repeat split; try done.
  - intros Hin. apply Hno, elem_of_app. by left.
  - intros Hin. apply Hno, elem_of_app. by right.
Qed.

Lemma cancelled_queued_task_is_never_dispatched_witness :
  let s := run Scenario.one_running_one_queued (Scenario.controller 1) in
  let s' := run [(4, BodyResolved 0%nat); (5, RunSettled 0%nat); (6, Start)]
              (cancelTask "B" s).2 in
  exists task,
    taskQueue s !! 0%nat = Some task
    /\ promises s' !! task_promise task = Some (Some (RejectedError TaskCancelled))
    /\ task_promise task ∉ dispatched_promises s'.
Proof.
  intros s s'.
  destruct (cancelled_queued_task_is_never_dispatched
              {| opt_maxConcurrency := Some 1; opt_maxQueueSize := None;
                 opt_retryDelay := None; opt_defaultTimeout := None |}
              Scenario.one_running_one_queued
              [(4, BodyResolved 0%nat); (5, RunSettled 0%nat); (6, Start)]
              "B" 0%nat) as (task & Hi & _ & _ & Hp & _ & Hd).
  - reflexivity.
  - reflexivity.
  - exists task. exact (conj Hi (conj Hp Hd)).
Defined.

(** ** stop *)

Lemma running_wf_view s s' : run_view s' = run_view s -> running_wf s -> running_wf s'.
Proof.
  unfold run_view. intros [= Hr Hn Ha] H i task Hi.
  rewrite Hr in Hi. destruct (H i task Hi) as (e & a & He & Ht & Hc & Hlt).
  assert (((fun a => (act_task a, act_signal a)) <$> activations s') !! e
          = Some (act_task a, act_signal a)) as He'.
  { rewrite Ha, list_lookup_fmap, He. done. }
  rewrite list_lookup_fmap in He'.
  destruct (activations s' !! e) as [a' |] eqn:Ha'; [| done].
  injection He' as Ht' Hs'. exists e, a'. rewrite Hn, Ht', Hs', Ht. done.
Qed.

Lemma update_activation_run_view e f s :
  (forall a, act_task (f a) = act_task a /\ act_signal (f a) = act_signal a) ->
  run_view (update_activation e f s) = run_view s.
Proof.
  intros Hf. unfold run_view, update_activation. simpl.
  rewrite (list_fmap_alter (fun a => (act_task a, act_signal a)) f id).
  - by rewrite list_alter_id.
  - apply Forall_forall. intros a _. simpl. by destruct (Hf a) as [-> ->].
Qed.

Lemma settle_run_view p v s : run_view (settle p v s) = run_view s.
Proof. unfold settle. by repeat case_match. Qed.

Lemma abort_run_view a s : run_view (abort a s) = run_view s.
Proof. unfold run_view, abort. simpl. by rewrite length_insert. Qed.

Lemma catchAttempt_run_view e k err s : run_view (catchAttempt e k err s) = run_view s.
Proof.
  unfold catchAttempt. repeat case_match; try done;
    by rewrite update_activation_run_view.
Qed.

Lemma retryIteration_run_view e k err s :
  run_view (retryIteration e k err s) = run_view s.
Proof.
  unfold retryIteration. repeat case_match; try done;
    try (by rewrite update_activation_run_view).
  apply catchAttempt_run_view.
Qed.

Lemma abortAll_run_view tasks s : run_view (abortAll tasks s) = run_view s.
Proof.
  revert s. induction tasks as [| t tasks IH]; intros s; [done |].
  unfold abortAll in *. simpl. rewrite IH.
  destruct (task_abortController t); [apply abort_run_view | done].
Qed.

Lemma clearQueue_run_view s : run_view (clearQueue s) = run_view s.
Proof.
  unfold clearQueue.
  assert (forall q s0, run_view (foldl (fun s task =>
            settle (task_promise task) (RejectedError QueueCleared) s) s0 q)
          = run_view s0) as H.
  { induction q as [| t q IH]; intros s0; [done |]. simpl. by rewrite IH, settle_run_view. }
  specialize (H (taskQueue s) s). unfold run_view in *. simpl. done.
Qed.

Lemma running_wf_delete k s :
  running_wf s -> running_wf (with_runningTasks (delete k (runningTasks s)) s).
Proof.
  intros H i task Hi. simpl in Hi. apply lookup_delete_Some in Hi as [_ Hi].
  exact (H i task Hi).
Qed.

Lemma executeTask_running_wf now task s :
  running_wf s -> running_wf (executeTask now task s).
Proof.
  intros H. unfold executeTask, runTaskWithRetry.
  eapply running_wf_view; [apply retryIteration_run_view |].
  intros i t Hi. simpl in Hi. simpl.
  rewrite length_app. simpl.
  apply lookup_insert_Some in Hi as [[_ <-] | [_ Hi]].
  - eexists (length (activations s)), _. split.
    + by rewrite lookup_app_r, Nat.sub_diag by lia.
    + simpl. repeat split. lia.
  - destruct (H i t Hi) as (e & a & He & Ht & Hc & Hlt).
    exists e, a. repeat split; try done; [| lia].
    by apply lookup_app_l_Some.
Qed.

Lemma processNextTask_running_wf now s :
  running_wf s -> running_wf (processNextTask now s).
Proof.
  intros H. unfold processNextTask. repeat case_match; try done.
  apply executeTask_running_wf. eapply running_wf_view; [| exact H]. done.
Qed.

Lemma step_running_wf now ev s : running_wf s -> running_wf (step now ev s).
Proof.
  intros H. destruct ev; simpl.
  - unfold addTask. repeat case_match; simpl;
      try apply processNextTask_running_wf;
      (eapply running_wf_view; [| exact H]);
      rewrite ?settle_run_view; unfold run_view; simpl; done.
  - unfold start. case_match; [done |]. apply processNextTask_running_wf.
    eapply running_wf_view; [| exact H]. done.
  - eapply running_wf_view; [| exact H]. done.
  - unfold resume. apply processNextTask_running_wf.
    eapply running_wf_view; [| exact H]. done.
  - unfold stop. eapply running_wf_view; [| exact H]. by rewrite abortAll_run_view.
  - unfold cancelTask. destruct (runningTasks s !! taskId) as [task |]; simpl.
    + match goal with |- running_wf (with_runningTasks (delete _ (runningTasks ?s0)) ?s0) =>
        apply running_wf_delete; eapply (running_wf_view s s0); [| exact H] end.
      destruct (task_abortController task); [apply abort_run_view | done].
    + repeat case_match; simpl; try done.
      eapply running_wf_view; [| exact H]. by rewrite settle_run_view.
  - eapply running_wf_view; [apply clearQueue_run_view | done].
  - repeat case_match; try done.
    eapply running_wf_view; [| exact H]. by apply update_activation_run_view.
  - repeat case_match; try done.
    eapply running_wf_view; [| exact H]. apply catchAttempt_run_view.
  - repeat case_match; try done.
    eapply running_wf_view; [| exact H]. apply retryIteration_run_view.
  - repeat case_match; try done.
    eapply running_wf_view; [| exact H].
    rewrite abort_run_view. by apply update_activation_run_view.
  - destruct (activations s !! e) as [a |] eqn:Ha; [| done].
    destruct (act_phase a) as [| | [| error] |]; try done;
      unfold taskSucceeded, taskFailed, finallyExecuteTask;
      apply processNextTask_running_wf;
      match goal with |- running_wf (with_runningTasks (delete ?k (runningTasks ?s0)) ?s0) =>
        apply (running_wf_delete k s0); apply (running_wf_view s s0); [| exact H] end;
      rewrite settle_run_view; unfold run_view; simpl;
      fold (run_view s).
    + by rewrite <- (update_activation_run_view e
                      (fun a0 => set_phase Finished
                         (set_timer match act_timer a with
                                    | Armed _ => Cleared
                                    | t => t
                                    end a0)) s).
    + by rewrite <- (update_activation_run_view e (set_phase Finished) s).
Qed.

Lemma run_running_wf h s : running_wf s -> running_wf (run h s).
Proof.
  revert s. induction h as [| [now ev] h IH]; intros s H; [done |].
  simpl. by apply IH, step_running_wf.
Qed.

Lemma constructor_running_wf o : running_wf (constructor o).
Proof. intros i task Hi. simpl in Hi. by rewrite lookup_empty in Hi. Qed.

Lemma abort_aborted a b s :
  aborted b s = true -> aborted b (abort a s) = true.
Proof.
  unfold aborted, abort. simpl. intros H.
  destruct (decide (b = a)) as [-> | Hne].
  - destruct (abortControllers s !! a) eqn:Hl; [| done].
    rewrite list_lookup_insert_eq; [done |]. by eapply lookup_lt_Some.
  - by rewrite list_lookup_insert_ne.
Qed.

Lemma abortAll_aborted_mono tasks b s :
  aborted b s = true -> aborted b (abortAll tasks s) = true.
Proof.
  revert s. induction tasks as [| t tasks IH]; intros s H; [done |].
  unfold abortAll in *. simpl. apply IH.
  destruct (task_abortController t); [by apply abort_aborted | done].
Qed.

Lemma abortAll_aborts tasks t a s :
  t ∈ tasks -> task_abortController t = Some a ->
  (a < length (abortControllers s))%nat ->
  aborted a (abortAll tasks s) = true.
Proof.
  revert s. induction tasks as [| t' tasks IH]; intros s Hin Hc Hlt.
  - by apply elem_of_nil in Hin.
  - apply elem_of_cons in Hin as [<- | Hin].
    + unfold abortAll. simpl. rewrite Hc.
      apply (abortAll_aborted_mono tasks a (abort a s)).
      unfold aborted, abort. simpl. by rewrite list_lookup_insert_eq.
    + unfold abortAll in *. simpl. apply IH; [done | done |].
      destruct (task_abortController t'); [| done].
      unfold abort. simpl. by rewrite length_insert.
Qed.

(** X9.  stop aborts the AbortController of every task in the running map,
    which is the signal the activation of that task passes to the task
    body.  It settles no promise and removes nothing: the queue and the
    running map are as before, and the queued tasks stay pending. *)
Theorem stop_aborts_every_running_task (o : ControllerOptions)
    (h : list (Z * Event)) (now : Z) :
  let s := run h (constructor o) in
  let s' := stop now s in
  (forall i task, runningTasks s !! i = Some task ->
     exists e a, activations s !! e = Some a /\ act_task a = task
       /\ aborted (act_signal a) s' = true)
  /\ isRunning s' = false
  /\ taskQueue s' = taskQueue s
  /\ promises s' = promises s
  /\ runningTasks s' = runningTasks s
  /\ activations s' = activations s.
Proof.
  intros s s'.
  pose proof (run_running_wf h _ (constructor_running_wf o)) as Hwf. fold s in Hwf.
  assert (own_view s' = own_view s) as Hown
    by (unfold s', stop; by rewrite abortAll_own_view).
  assert (slots s' = slots s) as Hslots
    by (unfold s', stop; by rewrite abortAll_slots).
  assert (signal_view s' = signal_view s) as Hsig
    by (unfold s', stop; by rewrite abortAll_signal_view).
  assert (flags s' = (false, false)) as Hflags
    by (unfold s', stop; by rewrite abortAll_flags).
  unfold own_view in Hown. injection Hown as Hq Hp _.
  unfold slots in Hslots. injection Hslots as _ Hr.
  unfold signal_view in Hsig. injection Hsig as _ Ha _.
  unfold flags in Hflags. injection Hflags as Hrun _.
  repeat split; try done.
  intros i task Hi. destruct (Hwf i task Hi) as (e & a & He & Ht & Hc & Hlt).
  exists e, a. repeat split; try done.
  unfold s', stop. apply (abortAll_aborts _ task); [| done | done].
  apply list_elem_of_fmap. exists (i, task). split; [done |].
  by apply elem_of_map_to_list.
Qed.

(** ** The retry loop *)

Lemma phase_ok_bound task n p :
  phase_ok task n p -> Z.of_nat n <= Z.max 0 (maxRetries_of task + 1).
Proof. destruct p; simpl; lia. Qed.

Lemma retry_bounded_view s s' :
  signal_view s' = signal_view s -> retry_bounded s -> retry_bounded s'.
Proof.
  unfold signal_view. intros [= _ Ha Hc] H e a He. unfold calls_of.
  rewrite Hc. rewrite Ha in He. exact (H e a He).
Qed.

Lemma update_activation_bounded e f s :
  (forall a, activations s !! e = Some a ->
     act_task (f a) = act_task a
     /\ phase_ok (act_task a) (calls_of e s) (act_phase (f a))) ->
  (forall e' a', e' <> e -> activations s !! e' = Some a' ->
     phase_ok (act_task a') (calls_of e' s) (act_phase a')) ->
  retry_bounded (update_activation e f s).
Proof.
  intros Hf H e' a' He'. unfold update_activation in He'. simpl in He'.
  change (calls_of e' (update_activation e f s)) with (calls_of e' s).
  destruct (decide (e' = e)) as [-> | Hne].
  - rewrite list_lookup_alter_eq in He'.
    destruct (activations s !! e) as [a |] eqn:Ha; [| done].
    injection He' as <-. destruct (Hf a eq_refl) as [-> Hok]. exact Hok.
  - rewrite list_lookup_alter_ne in He' by done. exact (H e' a' Hne He').
Qed.

Lemma catchAttempt_bounded e k err s a :
  activations s !! e = Some a ->
  Z.of_nat (calls_of e s) <= k + 1 -> 0 <= k <= maxRetries_of (act_task a) ->
  retry_bounded s -> retry_bounded (catchAttempt e k err s).
Proof.
  intros Ha Hn Hk H. unfold catchAttempt. rewrite Ha.
  destruct (k <? maxRetries_of (act_task a)) eqn:Hlt.
  - apply Z.ltb_lt in Hlt.
    apply update_activation_bounded.
    + simpl. intros a0 Ha0. rewrite Ha in Ha0. injection Ha0 as <-.
      split; [done |]. simpl.
      change (calls_of e (with_stats _ s)) with (calls_of e s). lia.
    + intros e' a' _ He'. exact (H e' a' He').
  - apply Z.ltb_ge in Hlt.
    apply update_activation_bounded.
    + intros a0 Ha0. rewrite Ha in Ha0. injection Ha0 as <-.
      split; [done |]. simpl. lia.
    + intros e' a' _ He'. exact (H e' a' He').
Qed.

Lemma calls_of_call e' c s :
  calls_of e' (with_bodyCalls (bodyCalls s ++ [c]) s)
  = (calls_of e' s + if decide (call_activation c = e') then 1 else 0)%nat.
Proof.
  unfold calls_of. simpl. rewrite filter_app, length_app. f_equal.
  rewrite filter_cons, filter_nil. by case_decide.
Qed.

Lemma retryIteration_bounded e k err s a :
  activations s !! e = Some a ->
  0 <= k -> Z.of_nat (calls_of e s) <= k ->
  Z.of_nat (calls_of e s) <= Z.max 0 (maxRetries_of (act_task a) + 1) ->
  (forall e' a', e' <> e -> activations s !! e' = Some a' ->
     phase_ok (act_task a') (calls_of e' s) (act_phase a')) ->
  retry_bounded (retryIteration e k err s).
Proof.
  intros Ha Hk Hn Hmax H. unfold retryIteration. rewrite Ha.
  destruct (k <=? maxRetries_of (act_task a)) eqn:Hle.
  - apply Z.leb_le in Hle. destruct (aborted (act_signal a) s).
    + unfold catchAttempt. rewrite Ha.
      destruct (k <? maxRetries_of (act_task a)) eqn:Hlt.
      * apply Z.ltb_lt in Hlt.
        apply update_activation_bounded; [| exact H].
        simpl. intros a0 Ha0. rewrite Ha in Ha0. injection Ha0 as <-.
        split; [done |]. simpl.
        change (calls_of e (with_stats _ s)) with (calls_of e s). lia.
      * apply update_activation_bounded; [| exact H].
        intros a0 Ha0. rewrite Ha in Ha0. injection Ha0 as <-.
      split; [done |]. simpl. lia.
    + apply update_activation_bounded.
      * simpl. intros a0 Ha0. rewrite Ha in Ha0. injection Ha0 as <-.
        split; [done |]. simpl.
        rewrite calls_of_call. simpl. rewrite decide_True by done. lia.
      * intros e' a' Hne He'. simpl in He'. rewrite calls_of_call. simpl.
        rewrite decide_False by done.
        rewrite Nat.add_0_r. exact (H e' a' Hne He').
  - apply update_activation_bounded; [| exact H].
    intros a0 Ha0. rewrite Ha in Ha0. injection Ha0 as <-.
      split; [done |]. simpl. lia.
Qed.

(** A call of the task body belongs to an activation that exists, so a
    new activation starts without calls. *)
Lemma calls_of_fresh s e :
  signals_wf s -> (length (activations s) <= e)%nat -> calls_of e s = 0%nat.
Proof.
  intros [_ _ Hcalls] Hle. unfold calls_of.
  induction (bodyCalls s) as [| c l IH]; [done |].
  rewrite filter_cons. case_decide as Hc.
  - destruct (Hcalls c) as [_ [a Ha]]; [by left |].
    apply lookup_lt_Some in Ha. lia.
  - apply IH. intros c' Hc'. apply Hcalls. by right.
Qed.

Lemma executeTask_bounded now task s :
  signals_wf s -> retry_bounded s -> retry_bounded (executeTask now task s).
Proof.
  intros Hwf H. unfold executeTask, runTaskWithRetry.
  pose proof (calls_of_fresh s (length (activations s)) Hwf (le_n _)) as Hfresh.
  match goal with |- retry_bounded (retryIteration ?e ?k ?l ?s1) =>
    assert (calls_of e s1 = 0%nat) as Hzero by exact Hfresh;
    eapply (retryIteration_bounded e k l s1) end.
  - simpl. by rewrite lookup_app_r, Nat.sub_diag by lia.
  - done.
  - rewrite Hzero. done.
  - rewrite Hzero. simpl. lia.
  - intros e' a' Hne He'. simpl in He', Hne.
    apply lookup_app_Some in He' as [He' | [Hge He']].
    + exact (H e' a' He').
    + destruct (e' - length (activations s))%nat eqn:Hd; [lia | done].
Qed.

Lemma processNextTask_bounded now s :
  signals_wf s -> retry_bounded s -> retry_bounded (processNextTask now s).
Proof.
  intros Hwf H. unfold processNextTask. repeat case_match; try done.
  apply executeTask_bounded.
  - eapply signals_wf_view; [| exact Hwf]. done.
  - eapply retry_bounded_view; [| exact H]. done.
Qed.

Lemma step_bounded now ev s :
  signals_wf s -> retry_bounded s -> retry_bounded (step now ev s).
Proof.
  intros Hwf H. destruct ev; simpl.
  - unfold addTask. repeat case_match; simpl;
      try apply processNextTask_bounded;
      try (eapply signals_wf_view; [| exact Hwf]);
      try (eapply retry_bounded_view; [| exact H]);
      by rewrite ?settle_signal_view.
  - unfold start. case_match; [done |]. apply processNextTask_bounded.
    + eapply signals_wf_view; [| exact Hwf]. done.
    + eapply retry_bounded_view; [| exact H]. done.
  - eapply retry_bounded_view; [| exact H]. done.
  - unfold resume. apply processNextTask_bounded.
    + eapply signals_wf_view; [| exact Hwf]. done.
    + eapply retry_bounded_view; [| exact H]. done.
  - unfold stop. eapply retry_bounded_view; [| exact H].
    by rewrite abortAll_signal_view.
  - unfold cancelTask. repeat case_match; simpl; try done;
      (eapply retry_bounded_view; [| exact H]);
      by rewrite ?settle_signal_view, ?abort_signal_view.
  - eapply retry_bounded_view; [apply clearQueue_signal_view | done].
  - destruct (activations s !! e) as [a |] eqn:Ha; [| done]. simpl.
    destruct (act_phase a) eqn:Hph; try done.
    apply update_activation_bounded; [| intros e' a' _ He'; exact (H e' a' He')].
    intros a0 Ha0. rewrite Ha in Ha0. injection Ha0 as <-.
    split; [done |]. simpl.
    pose proof (H e a Ha) as Hok. rewrite Hph in Hok. simpl in Hok. lia.
  - destruct (activations s !! e) as [a |] eqn:Ha; [| done]. simpl.
    destruct (act_phase a) eqn:Hph; try done.
    pose proof (H e a Ha) as Hok. rewrite Hph in Hok. destruct Hok as [Hn Hk].
    by apply (catchAttempt_bounded e _ _ s a).
  - destruct (activations s !! e) as [a |] eqn:Ha; [| done]. simpl.
    destruct (act_phase a) eqn:Hph; try done.
    pose proof (H e a Ha) as Hok. rewrite Hph in Hok. simpl in Hok.
    apply (retryIteration_bounded e _ _ s a); try done; try lia.
    intros e' a' _ He'. exact (H e' a' He').
  - destruct (activations s !! e) as [a |] eqn:Ha; [| done].
    destruct (act_timer a); try done.
    eapply (retry_bounded_view (update_activation e (set_timer Fired) s));
      [apply abort_signal_view |].
    apply update_activation_bounded; [| intros e' a' _ He'; exact (H e' a' He')].
    intros a0 Ha0. rewrite Ha in Ha0. injection Ha0 as <-. simpl.
    split; [done |]. exact (H e a Ha).
  - destruct (activations s !! e) as [a |] eqn:Ha; [| done].
    assert (forall t, retry_bounded
              (update_activation e (fun a0 => set_phase Finished (set_timer t a0)) s))
      as Hfin1.
    { intros t. apply update_activation_bounded;
        [| intros e' a' _ He'; exact (H e' a' He')].
      intros a0 Ha0. rewrite Ha in Ha0. injection Ha0 as <-. simpl.
      split; [done |]. exact (phase_ok_bound _ _ _ (H e a Ha)). }
    assert (retry_bounded (update_activation e (set_phase Finished) s)) as Hfin2.
    { apply update_activation_bounded;
        [| intros e' a' _ He'; exact (H e' a' He')].
      intros a0 Ha0. rewrite Ha in Ha0. injection Ha0 as <-. simpl.
      split; [done |]. exact (phase_ok_bound _ _ _ (H e a Ha)). }
    assert (forall rt p v st ct s0,
              signal_view (with_runningTasks rt
                             (settle p v (with_stats st (with_completedTasks ct s0))))
              = signal_view s0) as Hview.
    { intros. transitivity (signal_view (settle p v
                               (with_stats st (with_completedTasks ct s0)))); [done |].
      by rewrite settle_signal_view. }
    destruct (act_phase a) as [| | [| error] |]; try done;
      unfold taskSucceeded, taskFailed, finallyExecuteTask;
      apply processNextTask_bounded.
    + eapply signals_wf_view; [apply Hview |]. by apply update_activation_wf.
    + eapply retry_bounded_view; [apply Hview |]. apply Hfin1.
    + eapply signals_wf_view; [apply Hview |]. by apply update_activation_wf.
    + eapply retry_bounded_view; [apply Hview |]. apply Hfin2.
Qed.

Lemma run_bounded h s :
  signals_wf s -> retry_bounded s -> retry_bounded (run h s).
Proof.
  revert s. induction h as [| [now ev] h IH]; intros s Hwf H; [done |].
  simpl. apply IH; [by apply step_wf | by apply step_bounded].
Qed.

(** X10.  The task body of a dispatched task is called at most retries + 1
    times, and not at all when retries is negative, whatever the
    history: however its calls settle, whenever its timers fire, and
    whatever is called on the controller in between. *)
Theorem body_called_at_most_retries_plus_one (o : ControllerOptions)
    (h : list (Z * Event)) (e : nat) (a : Activation) :
  let s := run h (constructor o) in
  activations s !! e = Some a ->
  Z.of_nat (calls_of e s) <= Z.max 0 (maxRetries_of (act_task a) + 1).
Proof.
  intros s Ha.
  assert (retry_bounded s) as H.
  { apply run_bounded; [apply constructor_wf |]. intros e' a' He'. done. }
  exact (phase_ok_bound _ _ _ (H e a Ha)).
Qed.

Lemma body_called_at_most_retries_plus_one_witness :
  let s := run Scenario.always_failing (Scenario.controller 1) in
  exists a, activations s !! 0%nat = Some a
    /\ Z.of_nat (calls_of 0 s) <= Z.max 0 (maxRetries_of (act_task a) + 1).
Proof.
  intros s. eexists. split.
  - vm_compute. reflexivity.
  - apply (body_called_at_most_retries_plus_one
             {| opt_maxConcurrency := Some 1; opt_maxQueueSize := None;
                opt_retryDelay := None; opt_defaultTimeout := None |}
             Scenario.always_failing 0%nat).
    vm_compute. reflexivity.
Defined.

(** ** The promise of a dispatched task *)


















(** The state in which executeTask ends: its result is recorded, the
    promise of its task is settled with that result if it was pending,
    and its id is taken out of the running map before the scheduler is
    called. *)
Lemma run_settled_state now e a out s :
  activations s !! e = Some a -> act_phase a = AwaitRun out ->
  exists s0,
    step now (RunSettled e) s = processNextTask now s0
    /\ completedTasks s0
       = <[task_id (act_task a) := result_of now a out]> (completedTasks s)
    /\ promises s0
       = match promises s !! task_promise (act_task a) with
         | Some None =>
           <[task_promise (act_task a) := Some (settlement_of now a out)]> (promises s)
         | _ => promises s
         end
    /\ runningTasks s0 = delete (task_id (act_task a)) (runningTasks s)
    /\ taskQueue s0 = taskQueue s
    /\ act_task <$> activations s0 = act_task <$> activations s.
Proof.
  intros Ha Hph. simpl. rewrite Ha, Hph.
  destruct out as [| error];
    unfold taskSucceeded, taskFailed, finallyExecuteTask;
    (eexists; split; [reflexivity |]);
    unfold settle; simpl;
    destruct (promises s !! task_promise (act_task a)) as [[w |] |]; simpl;
    repeat split; try done;
    match goal with |- act_task <$> alter ?f _ _ = _ =>
      rewrite (list_fmap_alter act_task f id) by (by apply Forall_forall);
      by rewrite list_alter_id end.
Qed.



(** ** getTaskStatus *)



(** ** The attempts counter *)

Lemma attempts_wf_view s s' :
  attempts_view s' = attempts_view s -> attempts_wf s -> attempts_wf s'.
Proof.
  unfold attempts_view. intros [= Hq Ha Hc] [H1 H2 H3].
  split; rewrite ?Hq, ?Ha, ?Hc; done.
Qed.

Lemma update_activation_attempts_view e f s :
  (forall a, act_task (f a) = act_task a) ->
  attempts_view (update_activation e f s) = attempts_view s.
Proof.
  intros Hf. unfold attempts_view, update_activation. simpl.
  rewrite (list_fmap_alter act_task f id) by (by apply Forall_forall).
  by rewrite list_alter_id.
Qed.

Lemma settle_attempts_view p v s : attempts_view (settle p v s) = attempts_view s.
Proof. unfold settle. by repeat case_match. Qed.

Lemma catchAttempt_attempts_view e k err s :
  attempts_view (catchAttempt e k err s) = attempts_view s.
Proof.
  unfold catchAttempt. repeat case_match; try done;
    by rewrite update_activation_attempts_view.
Qed.

Lemma retryIteration_attempts_view e k err s :
  attempts_view (retryIteration e k err s) = attempts_view s.
Proof.
  unfold retryIteration. repeat case_match; try done;
    try (by rewrite update_activation_attempts_view).
  apply catchAttempt_attempts_view.
Qed.

Lemma abortAll_attempts_view tasks s : attempts_view (abortAll tasks s) = attempts_view s.
Proof.
  revert s. induction tasks as [| t tasks IH]; intros s; [done |].
  unfold abortAll in *. simpl. rewrite IH. by destruct (task_abortController t).
Qed.

Lemma processNextTask_attempts_wf now s :
  attempts_wf s -> attempts_wf (processNextTask now s).
Proof.
  intros H. unfold processNextTask.
  destruct (negb (isRunning s) || isPaused s
            || (maxConcurrency (config s) <=? Z.of_nat (size (runningTasks s))));
    [done |].
  destruct (taskQueue s) as [| task rest] eqn:Hq; [done |].
  destruct H as [H1 H2 H3]. rewrite Hq in H1.
  apply Forall_cons in H1 as [Ht H1].
  unfold executeTask, runTaskWithRetry.
  eapply attempts_wf_view; [apply retryIteration_attempts_view |].
  split; simpl; [done | | done].
  rewrite fmap_app. apply Forall_app. split; [done |].
  apply Forall_singleton. simpl. lia.
Qed.

Lemma step_attempts_wf now ev s : attempts_wf s -> attempts_wf (step now ev s).
Proof.
  intros H. destruct ev; simpl.
  - assert (forall v, attempts_wf
              (settle (length (promises s)) v (with_promises (promises s ++ [None]) s)))
      as Hreject
      by (intros v; apply (attempts_wf_view s); [by rewrite settle_attempts_view | done]).
    unfold addTask.
    destruct (validTaskConfig c) as [[i b] |]; simpl; [| apply Hreject].
    destruct (maxQueueSize (config s) <=? Z.of_nat (length (taskQueue s))); simpl;
      [apply Hreject |].
    match goal with |- context [with_stats ?st (insertTaskByPriority ?t ?s0)] =>
      assert (attempts_wf (with_stats st (insertTaskByPriority t s0))) as Hins end.
    { destruct H as [H1 H2 H3]. split; simpl; [| done | done].
      rewrite splice_insert_perm. by apply Forall_cons. }
    case_match; [by apply processNextTask_attempts_wf | done].
  - unfold start. case_match; [done |]. apply processNextTask_attempts_wf.
    eapply attempts_wf_view; [| exact H]. done.
  - eapply attempts_wf_view; [| exact H]. done.
  - unfold resume. apply processNextTask_attempts_wf.
    eapply attempts_wf_view; [| exact H]. done.
  - unfold stop. eapply attempts_wf_view; [| exact H].
    by rewrite abortAll_attempts_view.
  - unfold cancelTask. destruct (runningTasks s !! taskId) as [task |]; simpl.
    + eapply attempts_wf_view; [| exact H]. by destruct (task_abortController task).
    + destruct (findIndex taskId (taskQueue s)) as [i |]; [| done].
      destruct (taskQueue s !! i) as [task |] eqn:Hi; [| done]. simpl.
      eapply attempts_wf_view; [apply settle_attempts_view |].
      destruct H as [H1 H2 H3]. split; simpl; [| done | done].
      by apply Forall_delete.
  - unfold clearQueue.
    destruct (settle_each_view (RejectedError QueueCleared) (taskQueue s) s)
      as (_ & Ha & _).
    destruct (settle_each_rest (RejectedError QueueCleared) (taskQueue s) s)
      as (_ & Hc & _).
    destruct H as [H1 H2 H3]. split; simpl; rewrite ?Ha, ?Hc; done.
  - repeat case_match; try done.
    eapply attempts_wf_view; [| exact H]. by apply update_activation_attempts_view.
  - repeat case_match; try done.
    eapply attempts_wf_view; [| exact H]. apply catchAttempt_attempts_view.
  - repeat case_match; try done.
    eapply attempts_wf_view; [| exact H]. apply retryIteration_attempts_view.
  - repeat case_match; try done.
    eapply attempts_wf_view; [| exact H].
    unfold abort. by rewrite <- (update_activation_attempts_view e (set_timer Fired) s).
  - destruct (activations s !! e) as [a |] eqn:Ha; [| done].
    destruct (act_phase a) as [| | out |] eqn:Hph; try done.
    destruct (run_settled_state now e a out s Ha Hph)
      as (s0 & Hs & Hc & _ & _ & Hq & Hacts).
    simpl in Hs. rewrite Ha, Hph in Hs. rewrite Hs.
    apply processNextTask_attempts_wf.
    destruct H as [H1 H2 H3]. split; rewrite ?Hq, ?Hacts, ?Hc; try done.
    apply map_Forall_insert_2; [| done]. simpl.
    assert (task_attempts (act_task a) = 1) as ->; [| done].
    apply (proj1 (Forall_forall _ _) H2). apply list_elem_of_fmap.
    exists a. split; [done |]. by eapply list_elem_of_lookup_2.
Qed.

Lemma run_attempts_wf h s : attempts_wf s -> attempts_wf (run h s).
Proof.
  revert s. induction h as [| [now ev] h IH]; intros s H; [done |].
  simpl. by apply IH, step_attempts_wf.
Qed.

Lemma constructor_attempts_wf o : attempts_wf (constructor o).
Proof. split; simpl; try constructor. apply map_Forall_empty. Qed.

(** X13.  Every result the controller records has retryCount 0, however often
    the task was retried: executeTask computes it as attempts - 1, and
    attempts is incremented once per dispatch, not per attempt. *)
Theorem recorded_retryCount_is_always_zero (o : ControllerOptions)
    (h : list (Z * Event)) (taskId : string) (result : TaskResult) :
  let s := run h (constructor o) in
  completedTasks s !! taskId = Some result -> res_retryCount result = 0.
Proof.
  intros s Hres.
  destruct (run_attempts_wf h _ (constructor_attempts_wf o)) as [_ _ H3].
  exact (H3 taskId result Hres).
Qed.

Lemma recorded_retryCount_is_always_zero_witness :
  let s := run Scenario.always_failing (Scenario.controller 1) in
  exists result, completedTasks s !! "A"%string = Some result
    /\ Stats.retriedTasks (stats s) = 2
    /\ res_retryCount result = 0.
Proof.
  intros s. eexists. split; [vm_compute; reflexivity |]. split; [reflexivity |].
  apply (recorded_retryCount_is_always_zero
           {| opt_maxConcurrency := Some 1; opt_maxQueueSize := None;
              opt_retryDelay := None; opt_defaultTimeout := None |}
           Scenario.always_failing "A").
  vm_compute. reflexivity.
Defined.

(** ** insertTaskByPriority *)


Lemma scanInsertIndex_stops q priority j t d :
  q !! j = Some t -> js_ge (task_priority t) priority = true ->
  (forall j' t', (j < j')%nat -> q !! j' = Some t' ->
     js_ge (task_priority t') priority = false) ->
  forall i, (j < i)%nat -> scanInsertIndex q priority i d = S j.
Proof.
  intros Hj Hge Hafter. induction i as [| i IH]; intros Hi; [lia |].
  simpl. destruct (decide (i = j)) as [-> | Hne].
  - by rewrite Hj, Hge.
  - destruct (q !! i) as [t' |] eqn:Hi'; [| apply IH; lia].
    rewrite (Hafter i t') by (done || lia). apply IH. lia.
Qed.

(** X15.  Queued tasks without a priority are overtaken: [undefined >= p] is
    false, so the scan from the back passes them, and once a task [x]
    with a priority of at least the new one is queued before them, the
    new task goes directly behind [x], ahead of all of them. *)
Theorem task_overtakes_queued_tasks_without_priority (task x : Task) (s : State)
    (front back : list Task) :
  taskQueue s = front ++ x :: back ->
  js_ge (task_priority x) (num_or (task_priority task) 0) = true ->
  Forall (fun t => task_priority t = None) back ->
  taskQueue (insertTaskByPriority task s) = front ++ x :: task :: back.
Proof.
  intros Hq Hx Hback. unfold insertTaskByPriority. simpl.
  rewrite (scanInsertIndex_stops _ _ (length front) x).
  - rewrite Hq. unfold splice_insert.
    rewrite (cons_middle x), app_assoc.
    replace (S (length front)) with (length (front ++ [x]))
      by (rewrite length_app; simpl; lia).
    rewrite take_app_length, drop_app_length.
    by rewrite <- app_assoc.
  - rewrite Hq. by rewrite list_lookup_middle.
  - exact Hx.
  - intros j' t' Hlt Hj'. rewrite Hq in Hj'.
    rewrite lookup_app_r in Hj' by lia.
    destruct (j' - length front)%nat as [| n] eqn:Hd; [lia |].
    simpl in Hj'. apply (list_elem_of_lookup_2 back) in Hj'.
    by rewrite (proj1 (Forall_forall _ _) Hback t' Hj').
  - rewrite Hq, length_app. simpl. lia.
Qed.

Lemma task_overtakes_queued_tasks_without_priority_witness :
  let mk i p := {| task_id := i; task_body := AsyncFunction 0; task_priority := p;
                   task_retries := None; task_retryDelay := None;
                   task_timeout := None; task_promise := 0; task_createdAt := 0;
                   task_attempts := 0; task_abortController := None |} in
  let s := with_taskQueue [mk "X" (Some 5); mk "A" None; mk "B" None]
             (Scenario.controller 1) in
  task_id <$> taskQueue (insertTaskByPriority (mk "C" None) s)
  = ["X"; "C"; "A"; "B"]%string.
Proof.
  intros mk s.
  rewrite (task_overtakes_queued_tasks_without_priority
             (mk "C" None) (mk "X" (Some 5)) s [] [mk "A" None; mk "B" None]).
  - reflexivity.
  - reflexivity.
  - reflexivity.
  - by repeat constructor.
Defined.

(** ** addTasks *)

Lemma settle_promises_length p v s :
  length (promises (settle p v s)) = length (promises s).
Proof. unfold settle. repeat case_match; simpl; by rewrite ?length_insert. Qed.

(** addTask returns a new promise, the next of the store. *)
Lemma addTask_handle now c s :
  (addTask now c s).1 = length (promises s)
  /\ length (promises (addTask now c s).2) = S (length (promises s)).
Proof.
  assert (length (promises s ++ [None]) = S (length (promises s))) as Hlen
    by (rewrite length_app; simpl; lia).
  unfold addTask.
  destruct (validTaskConfig c) as [[i b] |]; simpl;
    [| by rewrite settle_promises_length].
  destruct (maxQueueSize (config s) <=? Z.of_nat (length (taskQueue s))); simpl;
    [by rewrite settle_promises_length |].
  split; [done |]. case_match; [| done].
  match goal with |- context [processNextTask ?n ?s0] =>
    destruct (processNextTask_owned n s0) as [_ ->] end.
  done.
Qed.

(** addTasks calls addTask on each config in turn and collects the
    promises. *)
Lemma addTasks_run cs s :
  addTasks cs s
  = (seq (length (promises s)) (length cs),
     run ((fun c => (c.1, AddTask c.2)) <$> cs) s).
Proof.
  unfold addTasks.
  assert (forall acc s0,
            foldl (fun acc c => let r := addTask c.1 c.2 acc.2 in (acc.1 ++ [r.1], r.2))
              (acc, s0) cs
            = (acc ++ seq (length (promises s0)) (length cs),
               run ((fun c => (c.1, AddTask c.2)) <$> cs) s0)) as H.
  { induction cs as [| [now c] cs IH]; intros acc s0; simpl.
    - by rewrite app_nil_r.
    - rewrite IH. destruct (addTask_handle now c s0) as [-> ->].
      by rewrite <- app_assoc. }
  apply (H [] s).
Qed.

Lemma allSettled_evolves ps vs s s' :
  evolves s s' -> allSettled ps s = Some vs -> allSettled ps s' = Some vs.
Proof.
  intros [Hev _ _]. unfold allSettled. rewrite !mapM_Some.
  intros Hall. eapply Forall2_impl; [exact Hall |]. simpl. intros p v Hp.
  destruct (promises s !! p) as [[w |] |] eqn:Hl; try done.
  simpl in Hp. injection Hp as ->. by rewrite (Hev p v Hl).
Qed.

(** X16.  The outcome of addTasks: one entry per config, in the order of the
    configs (also for those addTask rejects at once), available when the
    last of the promises has settled, and the same from then on,
    whatever happens to the controller. *)
Theorem addTasks_outcome_is_in_input_order_and_final (cs : list (Z * TaskConfig))
    (s : State) (h h' : list (Z * Event)) (vs : list Settlement) :
  let r := addTasks cs s in
  allSettled r.1 (run h r.2) = Some vs ->
  r.2 = run ((fun c => (c.1, AddTask c.2)) <$> cs) s
  /\ length vs = length cs
  /\ Forall2 (fun i v => promises (run h r.2) !! (length (promises s) + i)%nat
                         = Some (Some v))
       (seq 0 (length cs)) vs
  /\ allSettled r.1 (run h' (run h r.2)) = Some vs.
Proof.
  intros r Hall. unfold r in *. rewrite addTasks_run in *. simpl in *.
  split; [done |].
  pose proof (length_mapM _ _ _ Hall) as Hlen. rewrite length_seq in Hlen.
  split; [done |]. split.
  - unfold allSettled in Hall. apply mapM_Some in Hall.
    replace (seq (length (promises s)) (length cs))
      with (Nat.add (length (promises s)) <$> seq 0 (length cs)) in Hall
      by (rewrite fmap_add_seq; f_equal; lia).
    apply Forall2_fmap_l in Hall.
    eapply Forall2_impl; [exact Hall |]. simpl. intros i v Hv.
    destruct (promises _ !! _) as [[w |] |]; simpl in Hv; congruence.
  - eapply allSettled_evolves; [apply run_evolves | exact Hall].
Qed.

Lemma addTasks_outcome_is_in_input_order_and_final_witness :
  let cs := [(2, Scenario.taskConfig "A" None None);
             (3, {| cfg_id := None; cfg_task := None; cfg_priority := None;
                    cfg_retries := None; cfg_retryDelay := None;
                    cfg_timeout := None |})] in
  let r := addTasks cs (run [(1, Start)] (Scenario.controller 1)) in
  let h := [(4, BodyResolved 0%nat); (5, RunSettled 0%nat)] in
  exists result,
    allSettled r.1 (run h r.2)
    = Some [Fulfilled result; RejectedError InvalidTaskConfig]
    /\ allSettled r.1 (run [(6, Stop); (7, ClearQueue)] (run h r.2))
       = Some [Fulfilled result; RejectedError InvalidTaskConfig].
Proof.
  intros cs r h. eexists.
  assert (allSettled r.1 (run h r.2) = Some [Fulfilled _; RejectedError InvalidTaskConfig])
    as Hall by (vm_compute; reflexivity).
  split; [exact Hall |].
  by destruct (addTasks_outcome_is_in_input_order_and_final cs _ h
                 [(6, Stop); (7, ClearQueue)] _ Hall) as (_ & _ & _ & Hfinal).
Defined.

(** * Event listeners *)

(** emit calls every listener of the event, in the order of registration,
    also behind one that throws. *)
Lemma emit_called throws event r :
  Listeners.called (Listeners.emit throws event r) = default [] (r !! event).
Proof.
  unfold Listeners.emit. destruct (r !! event) as [ls |]; [| done]. simpl.
  assert (forall out,
            Listeners.called
              (foldl (fun out listener =>
                        {| Listeners.called := Listeners.called out ++ [listener];
                           Listeners.logged :=
                             if throws listener
                             then Listeners.logged out ++ [listener]
                             else Listeners.logged out |}) out ls)
            = Listeners.called out ++ ls) as H.
  { induction ls as [| l ls IH]; intros out; simpl.
    - by rewrite app_nil_r.
    - rewrite IH. simpl. by rewrite <- app_assoc. }
  apply H.
Qed.

Lemma on_lookup event listener r :
  Listeners.on event listener r !! event = Some (default [] (r !! event) ++ [listener]).
Proof.
  unfold Listeners.on. destruct (r !! event) as [ls |] eqn:Hl; simpl.
  - by rewrite lookup_alter_eq, Hl.
  - by rewrite lookup_alter_eq, lookup_insert_eq.
Qed.

Lemma on_lookup_ne event event' listener r :
  event' <> event ->
  Listeners.on event listener r !! event' = r !! event'.
Proof.
  intros Hne. unfold Listeners.on. rewrite lookup_alter_ne by done.
  destruct (r !! event); [done |]. by rewrite lookup_insert_ne.
Qed.

Lemma indexOf_Some listener ls i :
  Listeners.indexOf listener ls = Some i ->
  exists before after, ls = before ++ listener :: after
    /\ (listener ∉ before) /\ length before = i.
Proof.
  revert i. induction ls as [| l ls IH]; intros i Hi; [done |]. simpl in Hi.
  destruct (Nat.eqb l listener) eqn:Heq.
  - apply Nat.eqb_eq in Heq as ->. injection Hi as <-.
    exists [], ls. repeat split. apply not_elem_of_nil.
  - apply Nat.eqb_neq in Heq.
    destruct (Listeners.indexOf listener ls) as [j |]; [| done].
    injection Hi as <-. destruct (IH j eq_refl) as (before & after & -> & Hno & <-).
    exists (l :: before), after. repeat split.
    apply not_elem_of_cons. split; [done | exact Hno].
Qed.

Lemma indexOf_None listener ls :
  Listeners.indexOf listener ls = None -> listener ∉ ls.
Proof.
  induction ls as [| l ls IH]; intros Hi; [apply not_elem_of_nil |]. simpl in Hi.
  destruct (Nat.eqb l listener) eqn:Heq; [done |]. apply Nat.eqb_neq in Heq.
  destruct (Listeners.indexOf listener ls); [done |].
  apply not_elem_of_cons. split; [done | by apply IH].
Qed.

(** X17.  off takes away one registration of the listener, the earliest: a
    listener that was registered twice for an event is still called
    once by emit, and the calls of the other listeners, and of this
    one behind its first registration, are as before. *)
Theorem off_removes_the_earliest_registration_only (throws : nat -> bool)
    (event : string) (listener : nat) (r : gmap string (list nat)) :
  listener ∈ Listeners.called (Listeners.emit throws event r) ->
  exists before after,
    Listeners.called (Listeners.emit throws event r) = before ++ listener :: after
    /\ (listener ∉ before)
    /\ Listeners.called (Listeners.emit throws event (Listeners.off event listener r))
       = before ++ after.
Proof.
  rewrite !emit_called. unfold Listeners.off.
  destruct (r !! event) as [ls |] eqn:Hl; simpl; [| by intros ?%elem_of_nil].
  intros Hin.
  destruct (Listeners.indexOf listener ls) as [i |] eqn:Hi.
  - destruct (indexOf_Some _ _ _ Hi) as (before & after & -> & Hno & <-).
    exists before, after. repeat split; [done |].
    rewrite lookup_insert_eq. simpl.
    rewrite delete_take_drop, take_app_length.
    by rewrite (cons_middle listener), app_assoc, drop_app_length'
      by (rewrite length_app; simpl; lia).
  - by apply indexOf_None in Hi.
Qed.

Lemma off_removes_the_earliest_registration_only_witness :
  let r := Listeners.on "taskFailed" 7 (Listeners.on "taskFailed" 8
             (Listeners.on "taskFailed" 7 Listeners.empty)) in
  Listeners.called
    (Listeners.emit (fun _ => false) "taskFailed" (Listeners.off "taskFailed" 7 r))
  = [8; 7]%nat.
Proof.
  intros r.
  destruct (off_removes_the_earliest_registration_only (fun _ => false)
              "taskFailed" 7%nat r) as (before & after & Hall & Hno & Hoff).
  - vm_compute. by left.
  - rewrite Hoff.
    assert (before ++ 7%nat :: after = [] ++ 7%nat :: [8; 7]%nat) as Heq
      by (rewrite <- Hall; reflexivity).
    destruct before as [| b before].
    + simpl in Heq. by injection Heq as <-.
    + injection Heq as -> _. exfalso. apply Hno. by left.
Defined.

Lemma first_occurrence_unique {A} (x : A) before after before' after' :
  before ++ x :: after = before' ++ x :: after' ->
  x ∉ before -> x ∉ before' -> before = before' /\ after = after'.
Proof.
  revert before'. induction before as [| b before IH]; intros [| b' before'] Heq Hno Hno';
    simpl in Heq.
  - by injection Heq as ->.
  - injection Heq as -> _. exfalso. apply Hno'. by left.
  - injection Heq as -> _. exfalso. apply Hno. by left.
  - injection Heq as -> Heq.
    apply not_elem_of_cons in Hno as [_ Hno].
    apply not_elem_of_cons in Hno' as [_ Hno'].
    by destruct (IH before' Heq Hno Hno') as [-> ->].
Qed.

(** X18.  Registering a listener and removing it again leaves every event with
    the listeners it had, but not always in their order: if the listener
    was registered for the event before, off removes that earlier
    registration, and the listener is now called last. *)
Theorem off_after_on_keeps_the_listeners (throws : nat -> bool)
    (event event' : string) (listener : nat) (r : gmap string (list nat)) :
  let calls r := Listeners.called (Listeners.emit throws event' r) in
  let r' := Listeners.off event listener (Listeners.on event listener r) in
  calls r' ≡ₚ calls r
  /\ (listener ∉ Listeners.called (Listeners.emit throws event r) -> calls r' = calls r)
  /\ (forall before after,
        Listeners.called (Listeners.emit throws event r) = before ++ listener :: after ->
        listener ∉ before ->
        Listeners.called (Listeners.emit throws event r')
        = before ++ after ++ [listener]).
Proof.
  intros calls r'. unfold calls, r'. clear calls r'. rewrite !emit_called.
  unfold Listeners.off. rewrite on_lookup.
  set (ls := default [] (r !! event)).
  assert (forall i, Listeners.indexOf listener (ls ++ [listener]) = Some i ->
            (<[event := delete i (ls ++ [listener])]> (Listeners.on event listener r))
              !! event' = Some (delete i (ls ++ [listener])) /\ event' = event
            \/ (<[event := delete i (ls ++ [listener])]> (Listeners.on event listener r))
                 !! event' = r !! event' /\ event' <> event) as Hcase.
  { intros i Hi. destruct (decide (event' = event)) as [-> | Hne].
    - left. by rewrite lookup_insert_eq.
    - right. by rewrite lookup_insert_ne, on_lookup_ne by done. }
  destruct (Listeners.indexOf listener (ls ++ [listener])) as [i |] eqn:Hi.
  2: { apply indexOf_None in Hi. exfalso. apply Hi, elem_of_app. right. by left. }
  destruct (indexOf_Some _ _ _ Hi) as (before & after & Heq & Hno & Hlen).
  assert (delete i (ls ++ [listener]) = before ++ after) as Hdel.
  { rewrite Heq, <- Hlen, delete_take_drop, take_app_length.
    by rewrite (cons_middle listener), app_assoc, drop_app_length'
      by (rewrite length_app; simpl; lia). }
  assert (before ++ after ≡ₚ ls) as Hperm.
  { apply (Permutation_cons_inv (a := listener)).
    rewrite Permutation_middle, <- Heq. by rewrite <- Permutation_cons_append. }
  assert (listener ∉ ls -> before ++ after = ls) as Habsent.
  { intros Hnot. destruct after as [| a after] using rev_ind.
    - rewrite app_nil_r. by apply app_inj_tail in Heq as [-> _].
    - clear IHafter. rewrite app_comm_cons, app_assoc in Heq.
      apply app_inj_tail in Heq as [-> _].
      exfalso. apply Hnot, elem_of_app. right. by left. }
  destruct (Hcase i eq_refl) as [[-> ->] | [-> Hne]]; simpl.
  - fold ls. rewrite Hdel. split; [done |]. split; [done |].
    intros before' after' Hls Hno'. rewrite ?lookup_insert_eq. simpl.
    rewrite Hls, <- app_assoc, <- app_comm_cons in Heq.
    by destruct (first_occurrence_unique _ _ _ _ _ Heq Hno' Hno) as [-> <-].
  - split; [done |]. split; [done |].
    intros before' after' Hls Hno'. fold ls in Hls.
    rewrite lookup_insert_eq. simpl. rewrite Hdel.
    rewrite Hls, <- app_assoc, <- app_comm_cons in Heq.
    by destruct (first_occurrence_unique _ _ _ _ _ Heq Hno' Hno) as [-> <-].
Qed.

(** * ConcurrencyUtils *)

(** ** batchProcess: the batches *)

Lemma batches_from_more_fuel {A} fuel fuel' (data : list A) batchSize i acc r :
  (fuel <= fuel')%nat ->
  BatchProcess.batches_from fuel data batchSize i acc = Some r ->
  BatchProcess.batches_from fuel' data batchSize i acc = Some r.
Proof.
  revert fuel' i acc. induction fuel as [| fuel IH]; intros fuel' i acc Hle Hr;
    [done |].
  destruct fuel' as [| fuel']; [lia |]. simpl in *.
  destruct (i <? Z.of_nat (length data)); [| done].
  apply IH; [lia | done].
Qed.

Lemma batches_from_chunks {A} fuel (data : list A) batchSize i acc :
  0 < batchSize -> 0 <= i -> (length data - Z.to_nat i < fuel)%nat ->
  exists chunks,
    BatchProcess.batches_from fuel data batchSize i acc = Some (acc ++ chunks)
    /\ concat chunks = drop (Z.to_nat i) data
    /\ (chunks = [] <-> Z.of_nat (length data) <= i)
    /\ Forall (fun b => 0 < Z.of_nat (length b) <= batchSize) chunks
    /\ (forall k b, chunks !! k = Some b -> (S k < length chunks)%nat ->
          Z.of_nat (length b) = batchSize).
Proof.
  intros Hbs. revert i acc.
  induction fuel as [| fuel IH]; intros i acc Hi Hfuel; [lia |]. simpl.
  destruct (i <? Z.of_nat (length data)) eqn:Hlt.
  - apply Z.ltb_lt in Hlt.
    destruct (IH (i + batchSize) (acc ++ [BatchProcess.slice i (i + batchSize) data]))
      as (chunks & -> & Hcat & Hnil & Hall & Hfull); [lia | lia |].
    set (n := Z.to_nat (Z.min (i + batchSize) (Z.of_nat (length data)) - i)).
    assert (BatchProcess.slice i (i + batchSize) data
            = take n (drop (Z.to_nat i) data)) as Hslice.
    { unfold BatchProcess.slice, n.
      destruct (i <? 0) eqn:H0; [apply Z.ltb_lt in H0; lia |].
      destruct (i + batchSize <? 0) eqn:H1; [apply Z.ltb_lt in H1; lia |].
      by rewrite (Z.min_l i) by lia. }
    assert (drop (Z.to_nat (i + batchSize)) data = drop n (drop (Z.to_nat i) data))
      as Hdrop.
    { rewrite drop_drop. unfold n.
      destruct (Z.le_gt_cases (i + batchSize) (Z.of_nat (length data))) as [Hle | Hgt].
      - rewrite Z.min_l by lia. f_equal. lia.
      - rewrite Z.min_r by lia. rewrite !drop_ge; [done | lia | lia]. }
    assert (0 < Z.of_nat (length (take n (drop (Z.to_nat i) data))) <= batchSize)
      as Hlen by (rewrite length_take, length_drop; unfold n; lia).
    exists (BatchProcess.slice i (i + batchSize) data :: chunks).
    rewrite <- app_assoc. split; [done |]. rewrite Hslice. simpl.
    split; [by rewrite Hcat, Hdrop, take_drop |].
    split; [split; [done | lia] |].
    split; [by apply Forall_cons |].
    intros [| k] b Hk Hmore; simpl in *.
    + injection Hk as <-. rewrite length_take, length_drop. unfold n.
      assert (~ Z.of_nat (length data) <= i + batchSize).
      { intros Hle. apply Hnil in Hle. subst chunks. simpl in Hmore. lia. }
      lia.
    + apply (Hfull k b Hk). lia.
  - apply Z.ltb_ge in Hlt. exists []. rewrite app_nil_r.
    repeat split; try done.
    simpl. by rewrite drop_ge by lia.
Qed.

Lemma batches_concat {A} (data : list A) batchSize fuel chunks :
  0 < batchSize ->
  BatchProcess.batches fuel data batchSize = Some chunks -> concat chunks = data.
Proof.
  intros Hbs Hrun.
  destruct (batches_from_chunks (S (length data)) data batchSize 0 [])
    as (chunks' & Hrun' & Hcat & _); [done | done | simpl; lia |].
  change (drop (Z.to_nat 0) data) with data in Hcat.
  unfold BatchProcess.batches in Hrun.
  apply (batches_from_more_fuel _ (fuel `max` S (length data))) in Hrun; [| lia].
  apply (batches_from_more_fuel _ (fuel `max` S (length data))) in Hrun'; [| lia].
  rewrite Hrun in Hrun'. by injection Hrun' as ->.
Qed.

(** X19.  With a positive batch size the loop ends, and cuts the data into
    batches that put together give the data back: each batch has
    between 1 and batchSize items, and every batch but the last has
    exactly batchSize.  So flat() of the processed batches lists the
    processed items in the order of the data. *)
Theorem batches_partition_the_data {A B : Type} (data : list A) (batchSize : Z)
    (f : A -> B) :
  0 < batchSize ->
  exists chunks : list (list A),
    (forall fuel, (length data < fuel)%nat ->
       BatchProcess.batches fuel data batchSize = Some chunks)
    /\ concat chunks = data
    /\ Forall (fun b => 0 < Z.of_nat (length b) <= batchSize) chunks
    /\ (forall k b, chunks !! k = Some b -> (S k < length chunks)%nat ->
          Z.of_nat (length b) = batchSize)
    /\ BatchProcess.flat (fmap (M := list) (fmap (M := list) f) chunks)
       = fmap (M := list) f data.
Proof.
  intros Hbs.
  destruct (batches_from_chunks (S (length data)) data batchSize 0 [])
    as (chunks & Hrun & Hcat & _ & Hall & Hfull); [done | done | simpl; lia |].
  exists chunks. change (drop (Z.to_nat 0) data) with data in Hcat.
  repeat split; try done.
  - intros fuel Hfuel. unfold BatchProcess.batches.
    apply (batches_from_more_fuel (S (length data))); [lia | done].
  - unfold BatchProcess.flat. rewrite <- Hcat. clear.
    induction chunks as [| b chunks IH]; [done |].
    rewrite fmap_cons. simpl. by rewrite fmap_app, IH.
Qed.

Lemma batches_partition_the_data_witness :
  BatchProcess.batches 8 [1; 2; 3; 4; 5; 6; 7] 3 = Some [[1; 2; 3]; [4; 5; 6]; [7]].
Proof.
  destruct (batches_partition_the_data [1; 2; 3; 4; 5; 6; 7] 3 (fun x : Z => x))
    as (chunks & Hrun & _); [lia |].
  rewrite (Hrun 8%nat) by (simpl; lia).
  specialize (Hrun 9%nat ltac:(simpl; lia)). vm_compute in Hrun.
  by injection Hrun as <-.
Defined.

(** X20.  With a batch size of 0 or less the loop never ends on data that is
    not empty: [i] never reaches the length of the data. *)
Theorem batches_never_end_without_positive_size {A : Type} (data : list A)
    (batchSize : Z) (fuel : nat) :
  batchSize <= 0 -> data <> [] ->
  BatchProcess.batches fuel data batchSize = None.
Proof.
  intros Hbs Hdata. unfold BatchProcess.batches.
  assert (0 < Z.of_nat (length data)) as Hlen by (destruct data; [done | simpl; lia]).
  assert (forall i acc, i <= 0 ->
            BatchProcess.batches_from fuel data batchSize i acc = None) as H.
  { induction fuel as [| fuel IH]; intros i acc Hi; [done |]. simpl.
    destruct (i <? Z.of_nat (length data)) eqn:Hlt; [apply IH; lia |].
    apply Z.ltb_ge in Hlt. lia. }
  by apply H.
Qed.

Lemma batches_never_end_without_positive_size_witness :
  BatchProcess.batches 1000 [1; 2; 3] 0 = None.
Proof.
  apply (batches_never_end_without_positive_size [1; 2; 3] 0 1000); [lia | done].
Defined.

(** ** limitConcurrency *)

Lemma race_of_unfulfilled {V E} (results : list (LimitConcurrency.PromiseState V E)) ps :
  (forall p v, p ∈ ps -> results !! p <> Some (LimitConcurrency.Fulfilled v)) ->
  LimitConcurrency.race_of results ps <> Some None.
Proof.
  induction ps as [| p ps IH]; intros H; [done |]. simpl.
  destruct (results !! p) as [[| v | e] |] eqn:Hp; try done.
  - apply IH. intros q v Hq. apply H. by right.
  - exfalso. apply (H p v); [by left | done].
  - apply IH. intros q v Hq. apply H. by right.
Qed.

Lemma all_of_cases {V E} (results : list (LimitConcurrency.PromiseState V E)) :
  LimitConcurrency.all_of results = LimitConcurrency.AwaitAll
  \/ exists outcome, LimitConcurrency.all_of results = LimitConcurrency.Done outcome.
Proof.
  unfold LimitConcurrency.all_of.
  destruct (LimitConcurrency.first_rejected results); [right; by eexists |].
  destruct (mapM LimitConcurrency.value_of results); [right; by eexists | by left].
Qed.

Lemma mapM_value_of {V E} (results : list (LimitConcurrency.PromiseState V E)) values :
  mapM LimitConcurrency.value_of results = Some values ->
  results = LimitConcurrency.Fulfilled <$> values.
Proof.
  intros H. apply mapM_Some in H.
  induction H as [| r v results values Hr _ IH]; [done |].
  rewrite fmap_cons, <- IH. by destruct r; simplify_eq/=.
Qed.

Lemma all_of_values {V E} (results : list (LimitConcurrency.PromiseState V E)) values :
  LimitConcurrency.all_of results = LimitConcurrency.Done (inl values) ->
  results = LimitConcurrency.Fulfilled <$> values.
Proof.
  unfold LimitConcurrency.all_of.
  destruct (LimitConcurrency.first_rejected results); [done |].
  destruct (mapM LimitConcurrency.value_of results) as [vs |] eqn:Hm; [| done].
  intros [= <-]. by apply mapM_value_of.
Qed.

(** The loop, entered with room for one more promise. *)
Lemma loop_wf {V E} (tasks : list (LimitConcurrency.TaskFn E))
    (s : LimitConcurrency.State V E) :
  executing_wf s ->
  Z.of_nat (length (LimitConcurrency.executing s)) < room s ->
  executing_wf (LimitConcurrency.loop tasks s)
  /\ executing_bounded (LimitConcurrency.loop tasks s)
  /\ LimitConcurrency.concurrency (LimitConcurrency.loop tasks s)
     = LimitConcurrency.concurrency s.
Proof.
  revert s. induction tasks as [| [| error] rest IH]; intros s Hwf Hroom;
    cbn [LimitConcurrency.loop].
  - split; [by destruct Hwf |]. split; [| done].
    unfold executing_bounded, room in *. simpl.
    destruct (all_of_cases (LimitConcurrency.results s)) as [-> | [o ->]]; lia.
  - set (s' := LimitConcurrency.push s).
    assert (executing_wf s') as Hwf'.
    { destruct Hwf as [H1 H2 H3 H4]. split; simpl.
      - apply NoDup_app. split; [done |]. split; [| apply NoDup_singleton].
        intros p Hp ->%list_elem_of_singleton. apply H4 in Hp. lia.
      - intros p Hp. apply elem_of_app.
        destruct (decide (p < length (LimitConcurrency.results s))%nat) as [Hlt | Hge].
        + left. apply H2. by rewrite lookup_app_l in Hp.
        + right. apply list_elem_of_singleton.
          destruct (decide (p = length (LimitConcurrency.results s))); [done |].
          rewrite lookup_ge_None_2 in Hp; [done |].
          rewrite length_app. simpl. lia.
      - intros p v [Hp | ->%list_elem_of_singleton]%elem_of_app.
        + rewrite lookup_app_l by (by apply H4). by apply H3.
        + by rewrite lookup_app_r, Nat.sub_diag by lia.
      - intros p [Hp | ->%list_elem_of_singleton]%elem_of_app;
          rewrite length_app; simpl; [apply H4 in Hp |]; lia. }
    assert (length (LimitConcurrency.executing s')
            = S (length (LimitConcurrency.executing s))) as Hlen
      by (simpl; rewrite length_app; simpl; lia).
    destruct (LimitConcurrency.concurrency s'
              <=? Z.of_nat (length (LimitConcurrency.executing s'))) eqn:Hfull.
    + split; [by destruct Hwf' |]. split; [| done].
      unfold executing_bounded, room in *. simpl.
      destruct (LimitConcurrency.race_of _ _) as [[e |] |] eqn:Hrace;
        cbn [LimitConcurrency.executing s'] in *; rewrite ?length_app; simpl; try lia.
      exfalso. revert Hrace. apply race_of_unfulfilled.
      intros p v Hp. by apply (lw_unfulfilled s' Hwf').
    + apply Z.leb_gt in Hfull.
      destruct (IH s' Hwf') as (H1 & H2 & H3); [unfold room; simpl in *; lia |].
      by rewrite H3.
  - split; [by destruct Hwf |]. split; [| done].
    unfold executing_bounded, room in *. simpl. lia.
Qed.

Lemma indexOf_splice p ps :
  p ∈ ps -> NoDup ps ->
  exists before after,
    ps = before ++ p :: after
    /\ LimitConcurrency.splice_out p ps = before ++ after
    /\ p ∉ before ++ after.
Proof.
  unfold LimitConcurrency.splice_out.
  induction ps as [| q ps IH]; intros Hin Hnd; [by apply elem_of_nil in Hin |].
  apply NoDup_cons in Hnd as [Hq Hnd]. simpl.
  destruct (Nat.eqb q p) eqn:Heq.
  - apply Nat.eqb_eq in Heq as ->. by exists [], ps.
  - apply Nat.eqb_neq in Heq.
    apply elem_of_cons in Hin as [-> | Hin]; [done |].
    destruct (IH Hin Hnd) as (before & after & -> & Hsp & Hno).
    destruct (LimitConcurrency.indexOf p (before ++ p :: after)) as [k |] eqn:Hk.
    + exists (q :: before), after. simpl in *. rewrite Hsp.
      repeat split. apply not_elem_of_cons. split; [done | exact Hno].
    + exfalso. clear -Hk. induction before as [| b before IHb]; simpl in Hk.
      * by rewrite Nat.eqb_refl in Hk.
      * destruct (Nat.eqb b p); [done |].
        destruct (LimitConcurrency.indexOf p (before ++ p :: after)); [done |].
        by apply IHb.
Qed.

Lemma step_wf_lc {V E} (ev : LimitConcurrency.Event V E)
    (s : LimitConcurrency.State V E) :
  executing_wf s -> executing_bounded s ->
  executing_wf (LimitConcurrency.step ev s)
  /\ executing_bounded (LimitConcurrency.step ev s)
  /\ LimitConcurrency.concurrency (LimitConcurrency.step ev s)
     = LimitConcurrency.concurrency s.
Proof.
  intros Hwf Hb. destruct ev as [p value | p error |]; simpl.
  - destruct (LimitConcurrency.results s !! p) as [[| v | e] |] eqn:Hp; try done.
    assert (p ∈ LimitConcurrency.executing s) as Hin
      by (apply (lw_pending s Hwf); by rewrite Hp).
    destruct (indexOf_splice p _ Hin (lw_nodup s Hwf))
      as (before & after & Hex & Hsp & Hno).
    destruct Hwf as [H1 H2 H3 H4]. rewrite Hex in H1.
    assert (length (LimitConcurrency.executing s) = S (length (before ++ after)))
      as Hlen by (rewrite Hex, !length_app; simpl; lia).
    split; [split; simpl; rewrite ?Hsp |]; [| | | | split; [| done]].
    + apply NoDup_app in H1 as (Hb1 & Hb2 & Hb3).
      apply NoDup_cons in Hb3 as [_ Hb3]. apply NoDup_app. repeat split; try done.
      intros q Hq Hq'. apply (Hb2 q Hq). by right.
    + intros q Hq. destruct (decide (q = p)) as [-> | Hne].
      * rewrite list_lookup_insert_eq in Hq by (by eapply lookup_lt_Some). done.
      * rewrite list_lookup_insert_ne in Hq by done.
        apply H2 in Hq. rewrite Hex in Hq.
        apply elem_of_app in Hq as [Hq | Hq]; apply elem_of_app; [by left |].
        apply elem_of_cons in Hq as [-> | Hq]; [done | by right].
    + intros q v Hq. assert (q <> p) as Hne by (intros ->; done).
      rewrite list_lookup_insert_ne by done. apply H3. rewrite Hex.
      apply elem_of_app in Hq as [Hq | Hq]; apply elem_of_app; [by left |].
      right. by right.
    + intros q Hq. rewrite length_insert. apply H4. rewrite Hex.
      apply elem_of_app in Hq as [Hq | Hq]; apply elem_of_app; [by left |].
      right. by right.
    + unfold executing_bounded, room in *. simpl. rewrite Hsp.
      destruct (LimitConcurrency.phase s) as [rest snapshot [[e |] |] | | o];
        try case_bool_decide; simpl; try lia.
      destruct (all_of_cases (<[p := LimitConcurrency.Fulfilled value]>
                                (LimitConcurrency.results s))) as [-> | [o ->]]; lia.
  - destruct (LimitConcurrency.results s !! p) as [[| v | e] |] eqn:Hp; try done.
    destruct Hwf as [H1 H2 H3 H4].
    split; [split; simpl |]; [| | | | split; [| done]].
    + done.
    + intros q Hq. destruct (decide (q = p)) as [-> | Hne].
      * rewrite list_lookup_insert_eq in Hq by (by eapply lookup_lt_Some). done.
      * rewrite list_lookup_insert_ne in Hq by done. by apply H2.
    + intros q v Hq. destruct (decide (q = p)) as [-> | Hne].
      * by rewrite list_lookup_insert_eq by (by eapply lookup_lt_Some).
      * rewrite list_lookup_insert_ne by done. by apply H3.
    + intros q Hq. rewrite length_insert. by apply H4.
    + unfold executing_bounded, room in *. simpl.
      destruct (LimitConcurrency.phase s) as [rest snapshot [[e |] |] | | o];
        try case_bool_decide; simpl; lia.
  - assert (executing_bounded s) as Hb' by done.
    unfold executing_bounded in Hb.
    destruct (LimitConcurrency.phase s) as [rest snapshot [[e |] |] | | o] eqn:Hph;
      try done.
    + split; [by destruct Hwf |]. split; [| done].
      unfold executing_bounded, room in *. simpl. lia.
    + by apply loop_wf.
Qed.

Lemma run_wf_lc {V E} (h : list (LimitConcurrency.Event V E))
    (s : LimitConcurrency.State V E) :
  executing_wf s -> executing_bounded s ->
  executing_wf (LimitConcurrency.run h s)
  /\ executing_bounded (LimitConcurrency.run h s)
  /\ LimitConcurrency.concurrency (LimitConcurrency.run h s)
     = LimitConcurrency.concurrency s.
Proof.
  revert s. induction h as [| ev h IH]; intros s Hwf Hb; [done |]. simpl.
  destruct (step_wf_lc ev s Hwf Hb) as (H1 & H2 & H3).
  destruct (IH _ H1 H2) as (H4 & H5 & H6). by rewrite H6, H3.
Qed.

Lemma in_flight_executing {V E} (s : LimitConcurrency.State V E) :
  executing_wf s ->
  (length (LimitConcurrency.in_flight s) <= length (LimitConcurrency.executing s))%nat.
Proof.
  intros Hwf. apply submseteq_length, NoDup_submseteq.
  - apply NoDup_filter, NoDup_seq.
  - intros p [Hp _]%list_elem_of_filter. apply (lw_pending s Hwf).
    by apply Is_true_true.
Qed.

(** X21.  However the promises of the tasks settle, the number of tasks that
    have been called and have not settled never exceeds the concurrency,
    or 1 if the concurrency is 0 or negative. *)
Theorem limitConcurrency_bounds_the_tasks_in_flight {V E : Type}
    (tasks : list (LimitConcurrency.TaskFn E)) (concurrency : Z)
    (h : list (LimitConcurrency.Event V E)) :
  let s := LimitConcurrency.run h (LimitConcurrency.limitConcurrency tasks concurrency) in
  Z.of_nat (length (LimitConcurrency.in_flight s)) <= Z.max concurrency 1.
Proof.
  intros s. unfold s, LimitConcurrency.limitConcurrency.
  set (s0 := {| LimitConcurrency.concurrency := concurrency;
                LimitConcurrency.results := [];
                LimitConcurrency.executing := [];
                LimitConcurrency.phase := LimitConcurrency.AwaitAll |}
             : LimitConcurrency.State V E).
  assert (executing_wf s0) as Hwf0.
  { split; simpl; [constructor | done | by intros p v ?%elem_of_nil
                  | by intros p ?%elem_of_nil]. }
  destruct (loop_wf tasks s0 Hwf0) as (H1 & H2 & H3); [unfold room; simpl; lia |].
  destruct (run_wf_lc h _ H1 H2) as (H4 & H5 & H6).
  pose proof (in_flight_executing _ H4) as Hle.
  assert (Z.of_nat (length (LimitConcurrency.executing
                              (LimitConcurrency.run h (LimitConcurrency.loop tasks s0))))
          <= Z.max concurrency 1) as Hmax.
  { unfold executing_bounded, room in H5. rewrite H6, H3 in H5. simpl in H5.
    destruct (LimitConcurrency.phase _) as [rest snapshot [[e |] |] | | o]; lia. }
  lia.
Qed.

Lemma all_of_called {V E} (tasks : list (LimitConcurrency.TaskFn E))
    (s : LimitConcurrency.State V E)
    (results' : list (LimitConcurrency.PromiseState V E)) :
  length results' = length (LimitConcurrency.results s) ->
  tasks = replicate (length (LimitConcurrency.results s)) LimitConcurrency.ReturnsPromise ->
  called_so_far tasks
    {| LimitConcurrency.concurrency := LimitConcurrency.concurrency s;
       LimitConcurrency.results := results';
       LimitConcurrency.executing := LimitConcurrency.executing s;
       LimitConcurrency.phase := LimitConcurrency.all_of results' |}.
Proof.
  intros Hlen Htasks. unfold called_so_far. simpl. rewrite Hlen.
  destruct (all_of_cases results') as [-> | [[values |error] Ho]]; [done | |].
  - rewrite Ho. split; [done |]. by apply all_of_values.
  - by rewrite Ho.
Qed.

Lemma loop_called {V E} (tasks rest : list (LimitConcurrency.TaskFn E))
    (s : LimitConcurrency.State V E) :
  tasks = replicate (length (LimitConcurrency.results s)) LimitConcurrency.ReturnsPromise
          ++ rest ->
  called_so_far tasks (LimitConcurrency.loop rest s).
Proof.
  revert s. induction rest as [| [| error] rest IH]; intros s Htasks;
    cbn [LimitConcurrency.loop].
  - rewrite app_nil_r in Htasks.
    by apply (all_of_called tasks s (LimitConcurrency.results s)).
  - assert (tasks = replicate (length (LimitConcurrency.results (LimitConcurrency.push s)))
                      LimitConcurrency.ReturnsPromise ++ rest) as Htasks'.
    { simpl. rewrite length_app. simpl. rewrite Nat.add_1_r, replicate_S_end.
      by rewrite <- app_assoc. }
    destruct (LimitConcurrency.concurrency (LimitConcurrency.push s) <=? _);
      [exact Htasks' | by apply IH].
  - done.
Qed.

Lemma step_called {V E} (tasks : list (LimitConcurrency.TaskFn E))
    (ev : LimitConcurrency.Event V E) (s : LimitConcurrency.State V E) :
  called_so_far tasks s -> called_so_far tasks (LimitConcurrency.step ev s).
Proof.
  intros H. destruct ev as [p value | p error |]; simpl.
  - destruct (LimitConcurrency.results s !! p) as [[| v | e] |] eqn:Hp; try done.
    unfold called_so_far in H.
    destruct (LimitConcurrency.phase s) as [rest snapshot race | | [values | e]] eqn:Hph.
    + unfold called_so_far. simpl. rewrite length_insert.
      destruct race; [done |]. by case_bool_decide.
    + apply (all_of_called tasks s); [by rewrite length_insert | done].
    + destruct H as [_ Hres]. rewrite Hres, list_lookup_fmap in Hp.
      by destruct (values !! p).
    + done.
  - destruct (LimitConcurrency.results s !! p) as [[| v | e] |] eqn:Hp; try done.
    unfold called_so_far in H.
    destruct (LimitConcurrency.phase s) as [rest snapshot race | | [values | e]] eqn:Hph.
    + unfold called_so_far. simpl. rewrite length_insert.
      destruct race; [done |]. by case_bool_decide.
    + done.
    + destruct H as [_ Hres]. rewrite Hres, list_lookup_fmap in Hp.
      by destruct (values !! p).
    + done.
  - pose proof H as H'. unfold called_so_far in H.
    destruct (LimitConcurrency.phase s) as [rest snapshot [[e |] |] | | o] eqn:Hph;
      try done.
    by apply loop_called.
Qed.

Lemma run_called {V E} (tasks : list (LimitConcurrency.TaskFn E))
    (h : list (LimitConcurrency.Event V E)) (s : LimitConcurrency.State V E) :
  called_so_far tasks s -> called_so_far tasks (LimitConcurrency.run h s).
Proof.
  revert s. induction h as [| ev h IH]; intros s H; [done |].
  simpl. by apply IH, step_called.
Qed.

Lemma limitConcurrency_done {V E} (tasks : list (LimitConcurrency.TaskFn E))
    (concurrency : Z) (h : list (LimitConcurrency.Event V E)) (values : list V) :
  let s := LimitConcurrency.run h (LimitConcurrency.limitConcurrency tasks concurrency) in
  LimitConcurrency.phase s = LimitConcurrency.Done (inl values) ->
  LimitConcurrency.results s = LimitConcurrency.Fulfilled <$> values
  /\ tasks = replicate (length values) LimitConcurrency.ReturnsPromise.
Proof.
  intros s Hdone.
  assert (called_so_far tasks s) as H.
  { apply run_called. by apply loop_called. }
  unfold called_so_far in H. rewrite Hdone in H. destruct H as [Htasks Hres].
  split; [done |]. by rewrite Hres, length_fmap in Htasks.
Qed.

(** X22.  When limitConcurrency resolves, every task has been called once, in
    the order of the array, every promise is fulfilled, and the values
    are in the order of the tasks, not of their completion. *)
Theorem limitConcurrency_resolves_in_task_order {V E : Type}
    (tasks : list (LimitConcurrency.TaskFn E)) (concurrency : Z)
    (h : list (LimitConcurrency.Event V E)) (values : list V) :
  let s := LimitConcurrency.run h (LimitConcurrency.limitConcurrency tasks concurrency) in
  LimitConcurrency.phase s = LimitConcurrency.Done (inl values) ->
  LimitConcurrency.results s = LimitConcurrency.Fulfilled <$> values
  /\ length values = length tasks
  /\ Forall (fun task => task = LimitConcurrency.ReturnsPromise) tasks.
Proof.
  intros s Hdone.
  destruct (limitConcurrency_done tasks concurrency h values Hdone) as [Hres Htasks].
  split; [done |]. split.
  - by rewrite Htasks, length_replicate.
  - rewrite Htasks. by apply Forall_replicate.
Qed.

Lemma limitConcurrency_resolves_in_task_order_witness :
  let tasks := [LimitConcurrency.ReturnsPromise; LimitConcurrency.ReturnsPromise;
                LimitConcurrency.ReturnsPromise] in
  let h := [LimitConcurrency.Fulfil 1 20; LimitConcurrency.Resume;
            LimitConcurrency.Fulfil 2 30; LimitConcurrency.Fulfil 0 10;
            LimitConcurrency.Resume] in
  let s := LimitConcurrency.run h
             (LimitConcurrency.limitConcurrency (V := Z) (E := JsError) tasks 2) in
  LimitConcurrency.phase s = LimitConcurrency.Done (inl [10; 20; 30])
  /\ LimitConcurrency.results s = LimitConcurrency.Fulfilled <$> [10; 20; 30].
Proof.
  intros tasks h s.
  assert (LimitConcurrency.phase s = LimitConcurrency.Done (inl [10; 20; 30])) as Hdone
    by reflexivity.
  split; [exact Hdone |].
  by destruct (limitConcurrency_resolves_in_task_order tasks 2 h [10; 20; 30] Hdone).
Defined.

(** ** batchProcess *)

(** X23.  batchProcess end to end: if the promise of each batch fulfils with
    the processed items of that batch, then what batchProcess resolves
    with is the processed data, item by item in the order of the data,
    whatever the order in which the batches complete. *)
Theorem batchProcess_resolves_in_data_order {A B E : Type} (data : list A)
    (batchSize concurrency : Z) (f : A -> B) (fuel : nat) (chunks : list (list A))
    (h : list (LimitConcurrency.Event (list B) E)) (values : list (list B)) :
  0 < batchSize ->
  BatchProcess.batches fuel data batchSize = Some chunks ->
  let s := LimitConcurrency.run h
             (LimitConcurrency.limitConcurrency (BatchProcess.batchTasks chunks)
                concurrency) in
  (forall p v, LimitConcurrency.results s !! p = Some (LimitConcurrency.Fulfilled v) ->
     exists batch, chunks !! p = Some batch /\ v = f <$> batch) ->
  LimitConcurrency.phase s = LimitConcurrency.Done (inl values) ->
  BatchProcess.flat values = f <$> data.
Proof.
  intros Hbs Hchunks s Hvalues Hdone.
  destruct (limitConcurrency_done
              (BatchProcess.batchTasks chunks) concurrency h values Hdone)
    as (Hres & Hlen).
  apply (f_equal length) in Hlen.
  unfold BatchProcess.batchTasks in Hlen.
  rewrite length_fmap, length_replicate in Hlen.
  pose proof (batches_concat data batchSize fuel chunks Hbs Hchunks) as Hcat.
  assert (values = fmap (M := list) (fmap (M := list) f) chunks) as ->.
  { apply list_eq. intros k. rewrite list_lookup_fmap.
    destruct (values !! k) as [v |] eqn:Hv.
    - destruct (Hvalues k v) as (batch & -> & ->); [| done].
      fold s in Hres. by rewrite Hres, list_lookup_fmap, Hv.
    - apply lookup_ge_None in Hv. rewrite lookup_ge_None_2; [done | lia]. }
  unfold BatchProcess.flat. rewrite <- Hcat. clear.
  induction chunks as [| b chunks IH]; [done |].
  rewrite fmap_cons. simpl. by rewrite fmap_app, IH.
Qed.

Lemma batchProcess_resolves_in_data_order_witness :
  let f := fun x : Z => x * 10 in
  let chunks := [[1; 2]; [3; 4]; [5]] in
  let h := [LimitConcurrency.Fulfil 1 [30; 40]; LimitConcurrency.Resume;
            LimitConcurrency.Fulfil 0 [10; 20]; LimitConcurrency.Fulfil 2 [50];
            LimitConcurrency.Resume] in
  let s := LimitConcurrency.run h
             (LimitConcurrency.limitConcurrency (V := list Z) (E := JsError)
                (BatchProcess.batchTasks chunks) 2) in
  BatchProcess.batches 6 [1; 2; 3; 4; 5] 2 = Some chunks
  /\ LimitConcurrency.phase s = LimitConcurrency.Done (inl [[10; 20]; [30; 40]; [50]])
  /\ BatchProcess.flat [[10; 20]; [30; 40]; [50]] = f <$> [1; 2; 3; 4; 5].
Proof.
  intros f chunks h s.
  assert (BatchProcess.batches 6 [1; 2; 3; 4; 5] 2 = Some chunks) as Hchunks
    by (vm_compute; reflexivity).
  assert (LimitConcurrency.phase s
          = LimitConcurrency.Done (inl [[10; 20]; [30; 40]; [50]])) as Hdone
    by (vm_compute; reflexivity).
  split; [exact Hchunks |]. split; [exact Hdone |].
  apply (batchProcess_resolves_in_data_order [1; 2; 3; 4; 5] 2 2 f 6%nat chunks h _
           ltac:(lia) Hchunks); [| exact Hdone].
  intros p v Hp.
  destruct p as [| [| [| p]]]; vm_compute in Hp; try discriminate;
    injection Hp as <-; eexists; split; reflexivity.
Defined.

(** ** createTaskPool *)

Lemma find_available_None pool :
  TaskPool.find_available pool = None <-> all_busy pool.
Proof.
  unfold all_busy. induction pool as [| [p |] pool IH]; simpl.
  - split; [constructor | done].
  - destruct (TaskPool.find_available pool); simpl.
    + split; [done |]. intros [_ H]%Forall_cons. by apply IH in H.
    + split; [| done]. intros _. apply Forall_cons. split; [done | by apply IH].
  - split; [done |]. by intros [H _]%Forall_cons.
Qed.

Lemma find_available_Some pool worker :
  TaskPool.find_available pool = Some worker -> pool !! worker = Some None.
Proof.
  revert worker. induction pool as [| [p |] pool IH]; intros worker H; simpl in H.
  - done.
  - destruct (TaskPool.find_available pool) as [w |]; [| done].
    injection H as <-. by apply IH.
  - by injection H as <-.
Qed.

(** The only free worker takes a task: no worker is free. *)
Lemma take_the_free_worker pool worker p :
  at_most_one_free pool -> pool !! worker = Some None ->
  all_busy (<[worker := Some p]> pool).
Proof.
  intros Hone Hw. apply Forall_forall. intros w [i Hi]%list_elem_of_lookup_1 ->.
  destruct (decide (i = worker)) as [-> | Hne].
  - rewrite list_lookup_insert_eq in Hi by (by eapply lookup_lt_Some). done.
  - rewrite list_lookup_insert_ne in Hi by done. by apply Hne, Hone.
Qed.

Lemma length_settle_promise {V E} p (outcome : TaskPool.PromiseState V E) promises :
  length (TaskPool.settle_promise p outcome promises) = length promises.
Proof.
  unfold TaskPool.settle_promise.
  destruct (promises !! p) as [[| v | e] |]; by rewrite ?length_insert.
Qed.

Lemma processQueue_on_spec {V E} (q : list (nat * TaskPool.TaskFn E))
    (s : TaskPool.State V E) :
  let s' := TaskPool.processQueue_on q s in
  TaskPool.started s' ++ (TaskPool.queue s').*1 = TaskPool.started s ++ q.*1
  /\ length (TaskPool.promises s') = length (TaskPool.promises s)
  /\ length (TaskPool.pool s') = length (TaskPool.pool s)
  /\ (tail q = [] \/ at_most_one_free (TaskPool.pool s) ->
      TaskPool.queue s' <> [] -> all_busy (TaskPool.pool s')).
Proof.
  revert s. induction q as [| [p [| error]] q IH]; intros s; simpl.
  - destruct (TaskPool.find_available (TaskPool.pool s)) eqn:Hf; simpl;
      repeat split; try done.
  - destruct (TaskPool.find_available (TaskPool.pool s)) as [worker |] eqn:Hf; simpl.
    + rewrite length_insert, <- app_assoc. repeat split; try done.
      intros [-> | Hone] Hq; [done |].
      apply take_the_free_worker; [done | by apply find_available_Some].
    + repeat split; try done. intros _ _. by apply find_available_None.
  - destruct (TaskPool.find_available (TaskPool.pool s)) as [worker |] eqn:Hf; simpl.
    + match goal with |- context [TaskPool.processQueue_on q ?s0] =>
        destruct (IH s0) as (H1 & H2 & H3 & H4) end.
      simpl in *. rewrite H1, H2, H3, length_settle_promise, <- app_assoc.
      repeat split; try done.
      intros [-> | Hone] Hq; apply H4; try done; [by left | by right].
    + repeat split; try done. intros _ _. by apply find_available_None.
Qed.

Lemma all_busy_free_one pool worker :
  all_busy pool -> at_most_one_free (<[worker := None]> pool).
Proof.
  intros Hbusy i j Hi Hj.
  assert (forall k, <[worker := None]> pool !! k = Some None -> k = worker) as H.
  { intros k Hk. destruct (decide (k = worker)) as [-> | Hne]; [done |].
    rewrite list_lookup_insert_ne in Hk by done.
    apply list_elem_of_lookup_2 in Hk.
    by apply (proj1 (Forall_forall _ _) Hbusy) in Hk. }
  by rewrite (H i Hi), (H j Hj).
Qed.

Lemma step_pool_wf {V E} (ev : TaskPool.Event V E) (s : TaskPool.State V E) :
  pool_wf s ->
  pool_wf (TaskPool.step ev s)
  /\ length (TaskPool.pool (TaskPool.step ev s)) = length (TaskPool.pool s).
Proof.
  intros [Hc Hf].
  assert (forall worker outcome,
            pool_wf (TaskPool.settle worker outcome s)
            /\ length (TaskPool.pool (TaskPool.settle worker outcome s))
               = length (TaskPool.pool s)) as Hsettle.
  { intros worker outcome. unfold TaskPool.settle.
    destruct (TaskPool.pool s !! worker) as [[p |] |] eqn:Hw; try done.
    unfold TaskPool.processQueue. simpl.
    match goal with |- context [TaskPool.processQueue_on ?q ?s0] =>
      destruct (processQueue_on_spec q s0) as (H1 & H2 & H3 & H4) end.
    simpl in *. split; [| by rewrite H3, length_insert].
    split; [| by rewrite H1, H2, length_settle_promise].
    intros Hq. apply H4; [| done].
    destruct (TaskPool.queue s) as [| x q] eqn:Hqueue; [by left |].
    right. by apply all_busy_free_one, Hc. }
  destruct ev as [task | worker value | worker error]; simpl; try apply Hsettle.
  unfold TaskPool.execute, TaskPool.processQueue. simpl.
  match goal with |- context [TaskPool.processQueue_on ?q ?s0] =>
    destruct (processQueue_on_spec q s0) as (H1 & H2 & H3 & H4) end.
  simpl in *. split; [| done]. split.
  - intros Hq. destruct (TaskPool.queue s) as [| x q] eqn:Hqueue.
    + apply H4; [by left | done].
    + apply H4; [| done]. right. intros i j Hi Hj.
      apply list_elem_of_lookup_2 in Hi.
      by apply (proj1 (Forall_forall _ _) (Hc ltac:(done))) in Hi.
  - rewrite H1, H2, fmap_app, app_assoc, Hf, length_app. simpl.
    by rewrite seq_app.
Qed.

Lemma run_pool_wf {V E} (h : list (TaskPool.Event V E)) (s : TaskPool.State V E) :
  pool_wf s ->
  pool_wf (TaskPool.run h s)
  /\ length (TaskPool.pool (TaskPool.run h s)) = length (TaskPool.pool s).
Proof.
  revert s. induction h as [| ev h IH]; intros s Hwf; [done |]. simpl.
  destruct (step_pool_wf ev s Hwf) as [H1 H2].
  destruct (IH _ H1) as [H3 H4]. by rewrite H4, H2.
Qed.

Lemma createTaskPool_wf {V E} poolSize :
  pool_wf (TaskPool.createTaskPool (V := V) (E := E) poolSize).
Proof. by split. Qed.

(** X24.  The pool is work conserving and fair: whatever is executed and
    however the tasks settle, no task waits in the queue while a worker
    is free, and the tasks are taken from the queue one by one in the
    order of the calls of execute, none of them twice. *)
Theorem task_pool_is_work_conserving_and_fifo {V E : Type} (poolSize : Z)
    (h : list (TaskPool.Event V E)) :
  let s := TaskPool.run h (TaskPool.createTaskPool poolSize) in
  (TaskPool.queue s <> [] -> all_busy (TaskPool.pool s))
  /\ TaskPool.started s ++ (TaskPool.queue s).*1
     = seq 0 (length (TaskPool.promises s))
  /\ length (TaskPool.pool s) = Z.to_nat poolSize.
Proof.
  intros s.
  destruct (run_pool_wf h _ (createTaskPool_wf (V := V) (E := E) poolSize))
    as [[Hc Hf] Hlen].
  repeat split; try done.
  fold s in Hlen. rewrite Hlen. simpl. apply length_replicate.
Qed.

Lemma empty_pool_starts_nothing {V E} (ev : TaskPool.Event V E) (s : TaskPool.State V E) :
  TaskPool.pool s = [] ->
  let s' := TaskPool.step ev s in
  TaskPool.pool s' = [] /\ TaskPool.started s' = TaskPool.started s
  /\ (Forall (fun p => p = TaskPool.Pending) (TaskPool.promises s) ->
      Forall (fun p => p = TaskPool.Pending) (TaskPool.promises s')).
Proof.
  intros Hpool. destruct ev as [task | worker value | worker error]; simpl.
  - unfold TaskPool.execute, TaskPool.processQueue. simpl.
    destruct (TaskPool.queue s ++ _) as [| x q]; simpl; rewrite Hpool; simpl;
      (repeat split; try done);
      intros H; apply Forall_app; split; try done; by apply Forall_singleton.
  - unfold TaskPool.settle. by rewrite Hpool.
  - unfold TaskPool.settle. by rewrite Hpool.
Qed.

(** X25.  A pool created with size 0 or less has no worker: execute queues
    the task, and no task is ever started, so none of the promises
    execute returns ever settles. *)
Theorem pool_without_workers_runs_nothing {V E : Type} (poolSize : Z)
    (h : list (TaskPool.Event V E)) :
  poolSize <= 0 ->
  let s := TaskPool.run h (TaskPool.createTaskPool poolSize) in
  TaskPool.started s = []
  /\ Forall (fun p => p = TaskPool.Pending) (TaskPool.promises s)
  /\ (TaskPool.queue s).*1 = seq 0 (length (TaskPool.promises s)).
Proof.
  intros Hsize s.
  assert (forall s0 : TaskPool.State V E,
            TaskPool.pool s0 = [] -> TaskPool.started s0 = [] ->
            Forall (fun p => p = TaskPool.Pending) (TaskPool.promises s0) ->
            TaskPool.started (TaskPool.run h s0) = []
            /\ Forall (fun p => p = TaskPool.Pending)
                 (TaskPool.promises (TaskPool.run h s0))) as H.
  { induction h as [| ev h IH]; intros s0 Hp Hs Hpend; [done |]. simpl.
    destruct (empty_pool_starts_nothing ev s0 Hp) as (H1 & H2 & H3).
    apply IH; [done | by rewrite H2 | by apply H3]. }
  destruct (H (TaskPool.createTaskPool poolSize)) as [Hs Hpend].
  - unfold TaskPool.createTaskPool. simpl. by rewrite Z2Nat.nonpos.
  - done.
  - constructor.
  - destruct (run_pool_wf h _ (createTaskPool_wf (V := V) (E := E) poolSize))
      as [[_ Hf] _].
    fold s in Hs, Hpend, Hf. rewrite Hs in Hf. done.
Qed.

Lemma pool_without_workers_runs_nothing_witness :
  let s := TaskPool.run [TaskPool.Execute TaskPool.ReturnsPromise;
                         TaskPool.Execute (TaskPool.Throws BodyError)]
             (TaskPool.createTaskPool (V := Z) (E := JsError) 0) in
  TaskPool.started s = [] /\ (TaskPool.queue s).*1 = [0; 1]%nat.
Proof.
  intros s.
  destruct (pool_without_workers_runs_nothing (V := Z) (E := JsError) 0
              [TaskPool.Execute TaskPool.ReturnsPromise;
               TaskPool.Execute (TaskPool.Throws BodyError)]) as (Hs & _ & Hq);
    [lia |].
  split; [exact Hs | exact Hq].
Defined.
